(** * ElMalloc: an explicit-list heap allocator (el_malloc.c)

    A shallow embedding of the allocator of [src/el_malloc.c] and the
    verification of its specification.

    Memory is modelled per struct field (one finite map per field of
    [el_blockhead_t] and one for [el_blockfoot_t.size]), keyed by the
    address of the struct; a cell that was never written reads as zero
    (the arena comes zero-filled from mmap, and [el_ctl] is a zeroed
    global).  Addresses and [size_t] values are integers in
    [0, 2^64) and every arithmetic operation of the source is followed
    by its wrap-around.  Dereferencing the null pointer is a fault: the
    operations live in a state-and-fault monad; every other address is
    taken to be mapped.

    The maps agree with byte-addressed memory as long as no two structs
    that are accessed overlap in part.  That is so on every heap reached
    from [el_init] without wrap-around, where the blocks tile the arena,
    and in the histories below in which a size wraps around to zero,
    where the structs written coincide with existing ones.  What the
    functions that write block fields leave unchanged is therefore
    stated for the blocks of such heaps. *)

From Stdlib Require Import ZArith Lia List.
From stdpp Require Import gmap list.

Open Scope Z_scope.

(** ** Machine integers and the constants of el_malloc.h *)

Definition SIZE_MAX_P1 : Z := 2 ^ 64.

(** The value of an unsigned 64-bit expression. *)
Definition wrap (z : Z) : Z := z mod SIZE_MAX_P1.

Definition NULL : Z := 0.

(** Modelled from the spec: el_malloc.h is not part of the sources.  The
    spec fixes the per-block overhead at 40 bytes; the dump in the comment
    of [el_print_blocklist] shows a 128-byte block whose footer is 160
    bytes above its header and whose neighbour starts 8 bytes later, so
    the header takes 32 bytes and the footer 8. *)
Definition sizeof_blockhead : Z := 32.
Definition sizeof_blockfoot : Z := 8.
Definition EL_BLOCK_OVERHEAD : Z := sizeof_blockhead + sizeof_blockfoot.

(** Modelled from the spec: the block states of el_malloc.h, as the
    characters printed by [el_print_blocklist] ('a', 'u') and two marker
    characters for the list sentinels. *)
Definition EL_AVAILABLE : Z := 97.
Definition EL_USED : Z := 117.
Definition EL_BEGIN_BLOCK : Z := 66.
Definition EL_END_BLOCK : Z := 69.
Definition EL_UNINITIALIZED : Z := wrap (-1).

(** [PTR_PLUS_BYTES] and [PTR_MINUS_BYTES]: byte arithmetic on addresses. *)
Definition PTR_PLUS_BYTES (p off : Z) : Z := wrap (p + off).
Definition PTR_MINUS_BYTES (p off : Z) : Z := wrap (p - off).

(** ** Memory and allocator state *)

Record mem : Type := Mem {
  h_size  : gmap Z Z;   (* el_blockhead_t.size  *)
  h_state : gmap Z Z;   (* el_blockhead_t.state *)
  h_next  : gmap Z Z;   (* el_blockhead_t.next  *)
  h_prev  : gmap Z Z;   (* el_blockhead_t.prev  *)
  f_size  : gmap Z Z    (* el_blockfoot_t.size  *)
}.

(** [el_blocklist_t]: [beg] and [end] hold the addresses of the two
    sentinel heads [beg_actual] and [end_actual]. *)
Record el_blocklist_t : Type := Blocklist {
  bl_beg    : Z;
  bl_end    : Z;
  bl_length : Z;
  bl_bytes  : Z
}.

(** [el_ctl_t]; [avail] and [used] point to [avail_actual] / [used_actual]. *)
Record el_ctl_t : Type := Ctl {
  heap_start : Z;
  heap_end   : Z;
  heap_bytes : Z;
  avail      : el_blocklist_t;
  used       : el_blocklist_t
}.

Record state : Type := State {
  el_ctl : el_ctl_t;
  memory : mem
}.

(** The two list pointers held by [el_ctl]. *)
Inductive list_ptr : Type := Avail | Used.

Definition get_list (l : list_ptr) (c : el_ctl_t) : el_blocklist_t :=
  match l with Avail => avail c | Used => used c end.

Definition set_list (l : list_ptr) (b : el_blocklist_t) (c : el_ctl_t) : el_ctl_t :=
  match l with
  | Avail => Ctl (heap_start c) (heap_end c) (heap_bytes c) b (used c)
  | Used => Ctl (heap_start c) (heap_end c) (heap_bytes c) (avail c) b
  end.

(** Reading a cell: zero unless written. *)
Definition rd (m : gmap Z Z) (a : Z) : Z := default 0 (m !! a).

(** ** The state-and-fault monad *)

Definition M (A : Type) : Type := state -> option (A * state).

Definition ret {A} (a : A) : M A := fun s => Some (a, s).

Definition bind {A B} (m : M A) (f : A -> M B) : M B :=
  fun s => match m s with
           | Some (a, s') => f a s'
           | None => None
           end.

Definition fault {A} : M A := fun _ => None.

Notation "'do' x <- e1 ; e2" := (bind e1 (fun x => e2))
  (at level 10, x name, e1 at level 100, e2 at level 200).
Notation "'run' e1 ; e2" := (bind e1 (fun _ => e2))
  (at level 10, e1 at level 100, e2 at level 200).

Definition get_ctl : M el_ctl_t := fun s => Some (el_ctl s, s).

Definition put_list (l : list_ptr) (b : el_blocklist_t) : M unit :=
  fun s => Some (tt, State (set_list l b (el_ctl s)) (memory s)).

(** Field accesses [p->f] and [p->f = v]; a null [p] faults. *)
Definition load (f : mem -> gmap Z Z) (p : Z) : M Z :=
  fun s => if p =? NULL then None else Some (rd (f (memory s)) p, s).

Definition store_size (p v : Z) : M unit :=
  fun s => if p =? NULL then None else
    let m := memory s in
    Some (tt, State (el_ctl s)
      (Mem (<[p := v]> (h_size m)) (h_state m) (h_next m) (h_prev m) (f_size m))).

Definition store_state (p v : Z) : M unit :=
  fun s => if p =? NULL then None else
    let m := memory s in
    Some (tt, State (el_ctl s)
      (Mem (h_size m) (<[p := v]> (h_state m)) (h_next m) (h_prev m) (f_size m))).

Definition store_next (p v : Z) : M unit :=
  fun s => if p =? NULL then None else
    let m := memory s in
    Some (tt, State (el_ctl s)
      (Mem (h_size m) (h_state m) (<[p := v]> (h_next m)) (h_prev m) (f_size m))).

Definition store_prev (p v : Z) : M unit :=
  fun s => if p =? NULL then None else
    let m := memory s in
    Some (tt, State (el_ctl s)
      (Mem (h_size m) (h_state m) (h_next m) (<[p := v]> (h_prev m)) (f_size m))).

Definition store_foot (p v : Z) : M unit :=
  fun s => if p =? NULL then None else
    let m := memory s in
    Some (tt, State (el_ctl s)
      (Mem (h_size m) (h_state m) (h_next m) (h_prev m) (<[p := v]> (f_size m)))).

(** ** Pointer arithmetic between adjacent headers and footers *)

(** [el_get_footer]: the foot of [head], from the size [head] records. *)
Definition el_get_footer (head : Z) : M Z :=
  do size <- load h_size head;
  ret (PTR_PLUS_BYTES head (wrap (sizeof_blockhead + size))).

(** [el_get_header]: the head of [foot], from the size [foot] records. *)
Definition el_get_header (foot : Z) : M Z :=
  do size <- load f_size foot;
  ret (PTR_MINUS_BYTES foot (wrap (size + sizeof_blockhead))).

(** [el_block_above]: the block one higher in memory, NULL off the heap. *)
Definition el_block_above (block : Z) : M Z :=
  do size <- load h_size block;
  let higher := PTR_PLUS_BYTES block (wrap (size + EL_BLOCK_OVERHEAD)) in
  do c <- get_ctl;
  if higher >=? heap_end c then ret NULL else ret higher.

(** [el_block_below]: the block one lower in memory, NULL off the heap. *)
Definition el_block_below (block : Z) : M Z :=
  let prev_foot := PTR_MINUS_BYTES block sizeof_blockfoot in
  do c <- get_ctl;
  if prev_foot <? heap_start c then ret NULL
  else
    do lower <- el_get_header prev_foot;
    ret lower.

(** ** Block lists *)

(** [el_init_blocklist]; [beg_actual] and [end_actual] are the addresses
    of the two sentinel heads embedded in the list structure. *)
Definition el_init_blocklist (list : list_ptr) (beg_actual end_actual : Z) : M unit :=
  run store_state beg_actual EL_BEGIN_BLOCK;
  run store_size beg_actual EL_UNINITIALIZED;
  run store_state end_actual EL_END_BLOCK;
  run store_size end_actual EL_UNINITIALIZED;
  run store_next beg_actual end_actual;
  run store_prev beg_actual NULL;
  run store_next end_actual NULL;
  run store_prev end_actual beg_actual;
  put_list list (Blocklist beg_actual end_actual 0 0).

(** [el_add_block_front]. *)
Definition el_add_block_front (list : list_ptr) (block : Z) : M unit :=
  do c <- get_ctl;
  run store_prev block (bl_beg (get_list list c));
  do beg_next <- load h_next (bl_beg (get_list list c));
  run store_next block beg_next;
  do block_prev <- load h_prev block;
  run store_next block_prev block;
  do block_next <- load h_next block;
  run store_prev block_next block;
  do size <- load h_size block;
  do c' <- get_ctl;
  let l := get_list list c' in
  put_list list (Blocklist (bl_beg l) (bl_end l)
                   (wrap (bl_length l + 1))
                   (wrap (bl_bytes l + wrap (EL_BLOCK_OVERHEAD + size)))).

(** [el_remove_block]. *)
Definition el_remove_block (list : list_ptr) (block : Z) : M unit :=
  do block_prev <- load h_prev block;
  do block_next <- load h_next block;
  run store_next block_prev block_next;
  do block_next' <- load h_next block;
  do block_prev' <- load h_prev block;
  run store_prev block_next' block_prev';
  do size <- load h_size block;
  do c <- get_ctl;
  let l := get_list list c in
  put_list list (Blocklist (bl_beg l) (bl_end l)
                   (wrap (bl_length l - 1))
                   (wrap (bl_bytes l - wrap (EL_BLOCK_OVERHEAD + size)))).

(** ** Allocation *)

(** The loop of [el_find_first_avail], with the iterations that remain. *)
Fixpoint find_loop (remaining : nat) (size : Z) (start : Z) : M Z :=
  match remaining with
  | O => ret NULL
  | S k =>
    do start_size <- load h_size start;
    if start_size >=? wrap (size + EL_BLOCK_OVERHEAD) then ret start
    else
      do next <- load h_next start;
      find_loop k size next
  end.

(** [el_find_first_avail]. *)
Definition el_find_first_avail (size : Z) : M Z :=
  do c <- get_ctl;
  let total_avail := bl_length (avail c) in
  do start <- load h_next (bl_beg (avail c));
  find_loop (Z.to_nat total_avail) size start.

(** [el_split_block]; the size of [block] is read before [block] is
    compared with NULL, as in the source. *)
Definition el_split_block (block new_size : Z) : M Z :=
  do block_size <- load h_size block;
  if (block_size <? wrap (new_size + EL_BLOCK_OVERHEAD)) || (block =? NULL)
  then ret NULL
  else
    do size <- load h_size block;
    do split_foot <- el_get_footer block;
    let new_head :=
      PTR_PLUS_BYTES block (wrap (new_size + sizeof_blockfoot + sizeof_blockhead)) in
    let new_foot := PTR_PLUS_BYTES block (wrap (new_size + sizeof_blockhead)) in
    run store_size block new_size;
    run store_foot new_foot new_size;
    run store_size new_head (wrap (size - new_size - EL_BLOCK_OVERHEAD));
    run store_foot split_foot (wrap (size - new_size - EL_BLOCK_OVERHEAD));
    ret new_head.

(** The part of [el_malloc] that follows a successful search. *)
Definition el_malloc_found (first nbytes : Z) : M Z :=
  run el_remove_block Avail first;
  do second <- el_split_block first nbytes;
  run el_add_block_front Used first;
  run store_state first EL_USED;
  run el_add_block_front Avail second;
  run store_state second EL_AVAILABLE;
  ret (PTR_PLUS_BYTES first sizeof_blockhead).

(** [el_malloc]. *)
Definition el_malloc (nbytes : Z) : M Z :=
  do first <- el_find_first_avail nbytes;
  if first =? NULL then ret NULL
  else el_malloc_found first nbytes.

(** ** De-allocation *)

(** [el_merge_block_with_above]; [el_block_above lower] is evaluated
    before the tests, and the tests short-circuit from left to right. *)
Definition el_merge_block_with_above (lower : Z) : M unit :=
  do above <- el_block_above lower;
  if lower =? NULL then ret tt else
  do lower_state <- load h_state lower;
  if negb (lower_state =? EL_AVAILABLE) then ret tt else
  if above =? NULL then ret tt else
  do above_state <- load h_state above;
  if negb (above_state =? EL_AVAILABLE) then ret tt else
    do size_lower <- load h_size lower;
    do size_above <- load h_size above;
    let total := wrap (size_lower + size_above) in
    do above_foot <- el_get_footer above;
    run el_remove_block Avail above;
    run el_remove_block Avail lower;
    run store_size lower (wrap (total + EL_BLOCK_OVERHEAD));
    run store_foot above_foot (wrap (total + EL_BLOCK_OVERHEAD));
    el_add_block_front Avail lower.

(** [el_free]. *)
Definition el_free (ptr : Z) : M unit :=
  let header_to_free := PTR_MINUS_BYTES ptr sizeof_blockhead in
  do st <- load h_state header_to_free;
  if st =? EL_AVAILABLE then ret tt
  else
    do before <- el_block_below header_to_free;
    run el_remove_block Used header_to_free;
    run store_state header_to_free EL_AVAILABLE;
    run el_add_block_front Avail header_to_free;
    run el_merge_block_with_above header_to_free;
    if negb (before =? NULL) then el_merge_block_with_above before
    else ret tt.

(** ** Initialisation *)

(** Where the linker put the four sentinel heads of [el_ctl]. *)
Record globals : Type := Globals {
  avail_beg_actual : Z;
  avail_end_actual : Z;
  used_beg_actual  : Z;
  used_end_actual  : Z
}.

(** The zeroed global [el_ctl] and untouched memory, before [el_init]. *)
Definition boot : state :=
  State (Ctl 0 0 0 (Blocklist 0 0 0 0) (Blocklist 0 0 0 0))
        (Mem ∅ ∅ ∅ ∅ ∅).

(** [el_init]; [heap] is the address mmap returned ([EL_HEAP_START_ADDRESS])
    and [initial_size] is [EL_HEAP_INITIAL_SIZE].  The call of mmap is
    taken to have succeeded at the requested address, so that the assert
    holds; a call that fails, as it does for a size of zero, aborts the
    program and has no run here. *)
Definition el_init (g : globals) (heap initial_size : Z) : M Z :=
  fun s0 =>
  let c0 := Ctl heap (PTR_PLUS_BYTES heap initial_size) initial_size
                (avail (el_ctl s0)) (used (el_ctl s0)) in
  let s := State c0 (memory s0) in
  if initial_size <? EL_BLOCK_OVERHEAD then Some (-1, s)
  else
    (run el_init_blocklist Avail (avail_beg_actual g) (avail_end_actual g);
     run el_init_blocklist Used (used_beg_actual g) (used_end_actual g);
     let size := wrap (initial_size - EL_BLOCK_OVERHEAD) in
     let ablock := heap in
     run store_size ablock size;
     run store_state ablock EL_AVAILABLE;
     do afoot <- el_get_footer ablock;
     run store_foot afoot size;
     run el_add_block_front Avail ablock;
     ret 0) s.

(** ** Abstraction functions *)

(** The members of a list, front to back: [count] steps along [next]
    from the head [p]. *)
Fixpoint walk_next (nx : gmap Z Z) (count : nat) (p : Z) : list Z :=
  match count with
  | O => []
  | S k => rd nx p :: walk_next nx k (rd nx p)
  end.

Definition list_members (l : list_ptr) (s : state) : list Z :=
  let bl := get_list l (el_ctl s) in
  walk_next (h_next (memory s)) (Z.to_nat (bl_length bl)) (bl_beg bl).

(** The blocks of the arena in address order, found from the recorded
    sizes; every block spans at least its overhead, so [fuel] steps
    cover an arena of [fuel] bytes. *)
Fixpoint walk_arena (sz : gmap Z Z) (fuel : nat) (a e : Z) : list Z :=
  match fuel with
  | O => []
  | S k => if a >=? e then []
           else a :: walk_arena sz k (a + rd sz a + EL_BLOCK_OVERHEAD) e
  end.

Definition arena_blocks (s : state) : list Z :=
  walk_arena (h_size (memory s)) (Z.to_nat (heap_bytes (el_ctl s)))
             (heap_start (el_ctl s)) (heap_end (el_ctl s)).

Definition size_of (s : state) (b : Z) : Z := rd (h_size (memory s)) b.
Definition state_of (s : state) (b : Z) : Z := rd (h_state (memory s)) b.
Definition foot_of (s : state) (b : Z) : Z :=
  rd (f_size (memory s)) (b + sizeof_blockhead + size_of s b).

Definition is_available (st : gmap Z Z) (b : Z) : bool := rd st b =? EL_AVAILABLE.

(** No two neighbours in a sequence of blocks are both AVAILABLE. *)
Fixpoint coalesced_seq (st : gmap Z Z) (bs : list Z) : bool :=
  match bs with
  | [] => true
  | b :: rest =>
    match rest with
    | [] => true
    | b' :: _ => negb (is_available st b && is_available st b') && coalesced_seq st rest
    end
  end.

(** No two physically adjacent blocks of the arena are both AVAILABLE. *)
Definition coalesced (s : state) : bool :=
  coalesced_seq (h_state (memory s)) (arena_blocks s).

(** The reference first-fit scan over a sequence of blocks. *)
Fixpoint first_fit (s : state) (need : Z) (bs : list Z) : Z :=
  match bs with
  | [] => NULL
  | b :: rest => if size_of s b >=? need then b else first_fit s need rest
  end.

(** ** Representation predicates and the heap invariant *)

(** A doubly-linked chain: [p] is followed by the members [l] in order,
    the last of them by [q], and [prev] links the same nodes backwards. *)
Fixpoint dl (nx pv : gmap Z Z) (p : Z) (l : list Z) (q : Z) : Prop :=
  match l with
  | [] => rd nx p = q /\ rd pv q = p
  | x :: l' => rd nx p = x /\ rd pv x = p /\ dl nx pv x l' q
  end.

(** The blocks [bs] tile the addresses from [a] to [e]: each starts where
    the one below ends, and its footer repeats the size of its header. *)
Fixpoint tiles (sz ft : gmap Z Z) (a : Z) (bs : list Z) (e : Z) : Prop :=
  match bs with
  | [] => a = e
  | b :: rest =>
    b = a /\ 0 <= rd sz b /\
    rd ft (b + sizeof_blockhead + rd sz b) = rd sz b /\
    tiles sz ft (b + rd sz b + EL_BLOCK_OVERHEAD) rest e
  end.

(** What the members of a list contribute to its [bytes] field. *)
Fixpoint sum_bytes (sz : gmap Z Z) (l : list Z) : Z :=
  match l with
  | [] => 0
  | b :: rest => rd sz b + EL_BLOCK_OVERHEAD + sum_bytes sz rest
  end.

Definition bl_grow (l : el_blocklist_t) (size : Z) : el_blocklist_t :=
  Blocklist (bl_beg l) (bl_end l) (wrap (bl_length l + 1))
            (wrap (bl_bytes l + wrap (EL_BLOCK_OVERHEAD + size))).

Definition bl_shrink (l : el_blocklist_t) (size : Z) : el_blocklist_t :=
  Blocklist (bl_beg l) (bl_end l) (wrap (bl_length l - 1))
            (wrap (bl_bytes l - wrap (EL_BLOCK_OVERHEAD + size))).

(** The head of a chain: what follows [p]. *)
Definition chain_head (l : list Z) (q : Z) : Z :=
  match l with [] => q | x :: _ => x end.


(** [l] without the first occurrence of [b]. *)
Fixpoint without (b : Z) (l : list Z) : list Z :=
  match l with
  | [] => []
  | x :: rest => if x =? b then rest else x :: without b rest
  end.

(** The nodes of a chain, sentinels included. *)
Definition nodes (p : Z) (l : list Z) (q : Z) : list Z := p :: l ++ [q].

(** The two lists of [el_ctl] as chains over the same [next] and [prev]
    cells: [la] between the sentinels [ab] and [ae], [lu] between [ub]
    and [ue], no node shared and none null. *)
Record lists_ok (ab ae ub ue : Z) (nx pv : gmap Z Z) (la lu : list Z) : Prop := {
  lo_a : dl nx pv ab la ae;
  lo_u : dl nx pv ub lu ue;
  lo_nodup : NoDup (nodes ab la ae ++ nodes ub lu ue);
  lo_nonnull : Forall (fun x => x <> NULL) (nodes ab la ae ++ nodes ub lu ue)
}.


(** A sentinel head lies outside the arena. *)
Definition sentinel_ok (c : el_ctl_t) (x : Z) : Prop :=
  ~ (heap_start c <= x < heap_end c).

(** The heap invariant, for the arena blocks [bs] in address order and
    the members [la] and [lu] of the available and the used list. *)
Record inv0 (s : state) (bs la lu : list Z) : Prop := {
  inv_start : sizeof_blockfoot <= heap_start (el_ctl s);
  inv_end : heap_end (el_ctl s) = heap_start (el_ctl s) + heap_bytes (el_ctl s);
  inv_top : heap_end (el_ctl s) < SIZE_MAX_P1;
  inv_tiles : tiles (h_size (memory s)) (f_size (memory s))
                (heap_start (el_ctl s)) bs (heap_end (el_ctl s));
  inv_lists : lists_ok (bl_beg (avail (el_ctl s))) (bl_end (avail (el_ctl s)))
                (bl_beg (used (el_ctl s))) (bl_end (used (el_ctl s)))
                (h_next (memory s)) (h_prev (memory s)) la lu;
  inv_perm : la ++ lu ≡ₚ bs;
  inv_sent_ok : Forall (sentinel_ok (el_ctl s))
                  [bl_beg (avail (el_ctl s)); bl_end (avail (el_ctl s));
                   bl_beg (used (el_ctl s)); bl_end (used (el_ctl s))];
  inv_astate : Forall (fun b => state_of s b = EL_AVAILABLE) la;
  inv_ustate : Forall (fun b => state_of s b = EL_USED) lu;
  inv_alen : bl_length (avail (el_ctl s)) = Z.of_nat (length la);
  inv_abytes : bl_bytes (avail (el_ctl s)) = sum_bytes (h_size (memory s)) la;
  inv_ulen : bl_length (used (el_ctl s)) = Z.of_nat (length lu);
  inv_ubytes : bl_bytes (used (el_ctl s)) = sum_bytes (h_size (memory s)) lu
}.

(** Well-formed states: the invariant holds and the arena is coalesced. *)
Definition inv (s : state) (bs la lu : list Z) : Prop :=
  inv0 s bs la lu /\ coalesced_seq (h_state (memory s)) bs = true.

Definition wf (s : state) : Prop := exists bs la lu, inv s bs la lu.


(** ** The operations as state transformers

    What each step of [el_malloc] and [el_free] does to a state in which
    it does not fault. *)

Definition remove_st (l : list_ptr) (b : Z) (s : state) : state :=
  let m := memory s in
  let bp := rd (h_prev m) b in
  let bn := rd (h_next m) b in
  State (set_list l (bl_shrink (get_list l (el_ctl s)) (rd (h_size m) b)) (el_ctl s))
        (Mem (h_size m) (h_state m) (<[bp := bn]> (h_next m))
             (<[bn := bp]> (h_prev m)) (f_size m)).

Definition add_st (l : list_ptr) (b : Z) (s : state) : state :=
  let m := memory s in
  let beg := bl_beg (get_list l (el_ctl s)) in
  let bn := rd (h_next m) beg in
  State (set_list l (bl_grow (get_list l (el_ctl s)) (rd (h_size m) b)) (el_ctl s))
        (Mem (h_size m) (h_state m) (<[beg := b]> (<[b := bn]> (h_next m)))
             (<[bn := b]> (<[b := beg]> (h_prev m))) (f_size m)).

Definition split_st (b n : Z) (s : state) : state :=
  let m := memory s in
  let S := rd (h_size m) b in
  State (el_ctl s)
        (Mem (<[b + n + EL_BLOCK_OVERHEAD := S - n - EL_BLOCK_OVERHEAD]>
                (<[b := n]> (h_size m)))
             (h_state m) (h_next m) (h_prev m)
             (<[b + sizeof_blockhead + S := S - n - EL_BLOCK_OVERHEAD]>
                (<[b + sizeof_blockhead + n := n]> (f_size m)))).

Definition set_state_st (b v : Z) (s : state) : state :=
  let m := memory s in
  State (el_ctl s)
        (Mem (h_size m) (<[b := v]> (h_state m)) (h_next m) (h_prev m) (f_size m)).

(** The size updates of a merge of [lower] with [above]. *)
Definition join_st (lower above : Z) (total : Z) (s : state) : state :=
  let m := memory s in
  State (el_ctl s)
        (Mem (<[lower := total]> (h_size m)) (h_state m) (h_next m) (h_prev m)
             (<[above + sizeof_blockhead + rd (h_size m) above := total]> (f_size m))).

(** The members of the two lists, by list. *)
Definition members (la lu : list Z) (l : list_ptr) : list Z :=
  match l with Avail => la | Used => lu end.

Definition list_ptr_eqb (l l' : list_ptr) : bool :=
  match l, l' with Avail, Avail | Used, Used => true | _, _ => false end.

Definition set_members (l : list_ptr) (v : list Z) (L : list_ptr -> list Z)
  : list_ptr -> list Z :=
  fun l' => if list_ptr_eqb l' l then v else L l'.

(** The part of the invariant that holds between the steps of an
    operation: [out] are the blocks that are in neither list, and the
    block states are left out. *)
Record shape (s : state) (bs : list Z) (L : list_ptr -> list Z) (out : list Z) : Prop := {
  sh_start : sizeof_blockfoot <= heap_start (el_ctl s);
  sh_end : heap_end (el_ctl s) = heap_start (el_ctl s) + heap_bytes (el_ctl s);
  sh_top : heap_end (el_ctl s) < SIZE_MAX_P1;
  sh_tiles : tiles (h_size (memory s)) (f_size (memory s))
               (heap_start (el_ctl s)) bs (heap_end (el_ctl s));
  sh_lists : lists_ok (bl_beg (avail (el_ctl s))) (bl_end (avail (el_ctl s)))
               (bl_beg (used (el_ctl s))) (bl_end (used (el_ctl s)))
               (h_next (memory s)) (h_prev (memory s)) (L Avail) (L Used);
  sh_perm : L Avail ++ L Used ++ out ≡ₚ bs;
  sh_sent : Forall (sentinel_ok (el_ctl s))
              [bl_beg (avail (el_ctl s)); bl_end (avail (el_ctl s));
               bl_beg (used (el_ctl s)); bl_end (used (el_ctl s))];
  sh_len : forall l, bl_length (get_list l (el_ctl s)) = Z.of_nat (length (L l));
  sh_bytes : forall l, bl_bytes (get_list l (el_ctl s)) = sum_bytes (h_size (memory s)) (L l)
}.


(** The state after the steps of [el_malloc] on the found block [b]. *)
Definition malloc_st (b n : Z) (s : state) : state :=
  let b2 := b + n + EL_BLOCK_OVERHEAD in
  set_state_st b2 EL_AVAILABLE
    (add_st Avail b2
       (set_state_st b EL_USED
          (add_st Used b
             (split_st b n
                (remove_st Avail b s))))).


(** The state after [el_merge_block_with_above lower] merges [lower]
    with the block [above] it. *)
Definition merge_st (lower above : Z) (s : state) : state :=
  add_st Avail lower
    (join_st lower above (size_of s lower + size_of s above + EL_BLOCK_OVERHEAD)
       (remove_st Avail lower (remove_st Avail above s))).


(** What is left above [lower] once [el_merge_block_with_above lower]
    has run: the neighbour is absorbed when both blocks are AVAILABLE. *)
Definition merge_tail (st : gmap Z Z) (lower : Z) (bs2 : list Z) : list Z :=
  match bs2 with
  | [] => []
  | above :: rest =>
    if is_available st lower && is_available st above then rest else bs2
  end.


(** The state in which [el_free] starts merging: [b] has moved from the
    used list to the front of the available list. *)
Definition release_st (b : Z) (s : state) : state :=
  add_st Avail b (set_state_st b EL_AVAILABLE (remove_st Used b s)).

(** The arena blocks after [el_free] of the block [b] that lies between
    [bs1] and [bs2]; [st] holds the block states once [b] is AVAILABLE. *)
Definition free_blocks (st : gmap Z Z) (bs1 : list Z) (b : Z) (bs2 : list Z) : list Z :=
  let rest := merge_tail st b bs2 in
  match last bs1 with
  | None => bs1 ++ b :: rest
  | Some c => removelast bs1 ++ c :: merge_tail st c (b :: rest)
  end.


(** What [el_init] relies on: the arena fits the address space above
    address 8 and holds one block's overhead, and the four sentinel heads
    of [el_ctl] are distinct non-null addresses outside the arena. *)
Record valid_boot (g : globals) (heap initial_size : Z) : Prop := {
  vb_size : EL_BLOCK_OVERHEAD <= initial_size;
  vb_heap : sizeof_blockfoot <= heap;
  vb_top : heap + initial_size < SIZE_MAX_P1;
  vb_nodup : NoDup [avail_beg_actual g; avail_end_actual g;
                    used_beg_actual g; used_end_actual g];
  vb_out : Forall (fun x => x <> NULL /\ ~ (heap <= x < heap + initial_size))
             [avail_beg_actual g; avail_end_actual g;
              used_beg_actual g; used_end_actual g]
}.


(** The first block of a sequence, if any, is not AVAILABLE. *)
Definition head_unavail (st : gmap Z Z) (l : list Z) : Prop :=
  match l with [] => True | x :: _ => is_available st x = false end.

(** ** Histories of the allocator *)

(** [p] is the payload address of a block of the used list: a pointer
    that [el_malloc] returned and that has not been freed since. *)
Definition allocated (s : state) (p : Z) : Prop :=
  exists b, b ∈ list_members Used s /\ p = b + sizeof_blockhead.

(** [n + EL_BLOCK_OVERHEAD] is computed without wrap-around. *)
Definition representable (n : Z) : Prop :=
  0 <= n /\ n + EL_BLOCK_OVERHEAD < SIZE_MAX_P1.

(** The header that [el_free p] inspects records the state AVAILABLE. *)
Definition already_available (s : state) (p : Z) : Prop :=
  PTR_MINUS_BYTES p sizeof_blockhead <> NULL /\
  state_of s (PTR_MINUS_BYTES p sizeof_blockhead) = EL_AVAILABLE.

(** The states the allocator reaches from a successful [el_init] through
    [el_malloc] of representable sizes and [el_free] of allocated
    pointers or of pointers whose block is already AVAILABLE. *)
Inductive reachable : state -> Prop :=
| reach_init g heap initial_size s :
    valid_boot g heap initial_size ->
    el_init g heap initial_size boot = Some (0, s) ->
    reachable s
| reach_malloc s n p s' :
    reachable s -> representable n ->
    el_malloc n s = Some (p, s') ->
    reachable s'
| reach_free s p s' :
    reachable s -> allocated s p \/ already_available s p ->
    el_free p s = Some (tt, s') ->
    reachable s'.


(** ** A concrete heap

    The arena of the spec's example: 4096 bytes at the address that the
    dump in [el_print_stats] shows, with the sentinels of [el_ctl] in the
    data segment. *)
Definition demo_globals : globals := Globals 4210752 4210784 4210848 4210880.
Definition demo_heap : Z := 105553116266496.
Definition demo_size : Z := 4096.

(** The state in which a computation ends (the start state on a fault). *)
Definition final_state {A} (m : M A) (s : state) : state :=
  match m s with Some (_, s') => s' | None => s end.

Definition demo_init : state := final_state (el_init demo_globals demo_heap demo_size) boot.

(** Conservation as the specification words it: the overhead of every
    member is added to the two [bytes] fields. *)
Definition conservation_as_stated (s : state) : Prop :=
  bl_bytes (avail (el_ctl s)) + bl_bytes (used (el_ctl s))
  + EL_BLOCK_OVERHEAD * (bl_length (avail (el_ctl s)) + bl_length (used (el_ctl s)))
  = heap_bytes (el_ctl s).


(** The largest [size_t]. *)
Definition SIZE_MAX : Z := SIZE_MAX_P1 - 1.

(** The concrete heap after [el_malloc 8]. *)
Definition demo_one : state := final_state (el_malloc 8) demo_init.


(** ** Histories of calls

    A call of the public interface with what the caller sees of it: the
    pointer [el_malloc] returned. *)
Inductive call : Type :=
| Malloc (nbytes : Z) (returned : Z)
| Free (ptr : Z).

(** The state after a sequence of calls; none when a call faults or when
    [el_malloc] returns another pointer than the one recorded. *)
Fixpoint replay (cs : list call) (s : state) : option state :=
  match cs with
  | [] => Some s
  | Malloc nbytes returned :: rest =>
      match el_malloc nbytes s with
      | Some (p, s') => if p =? returned then replay rest s' else None
      | None => None
      end
  | Free ptr :: rest =>
      match el_free ptr s with
      | Some (_, s') => replay rest s'
      | None => None
      end
  end.

(** The state in which a sequence of calls ends (the start state when it
    has no run). *)
Definition after_calls (cs : list call) (s : state) : state :=
  default s (replay cs s).

(** A history in which the second request wraps around: 8 bytes,
    [SIZE_MAX - 39] bytes, 16 bytes, then the first and the last pointer
    are freed. *)
Definition wrapped_frees : list call :=
  [Malloc 8 (demo_heap + 32); Malloc (SIZE_MAX - 39) (demo_heap + 80);
   Malloc 16 (demo_heap + 80); Free (demo_heap + 32); Free (demo_heap + 80)].

(** The same with a first request of 3000 bytes, followed by a request
    of 2000 bytes. *)
Definition wrapped_then_malloc : list call :=
  [Malloc 3000 (demo_heap + 32); Malloc (SIZE_MAX - 39) (demo_heap + 3072);
   Malloc 16 (demo_heap + 3072); Free (demo_heap + 32); Free (demo_heap + 3072);
   Malloc 2000 (demo_heap + 32)].


(** ** What an operation leaves alone *)

(** Every run of [m] that returns relates its start and end state by [R]. *)
Definition preserves {A} (R : state -> state -> Prop) (m : M A) : Prop :=
  forall s r s', m s = Some (r, s') -> R s s'.

(** The arena bounds and the addresses of the four sentinels. *)
Definition same_bounds (s s' : state) : Prop :=
  heap_start (el_ctl s') = heap_start (el_ctl s) /\
  heap_end (el_ctl s') = heap_end (el_ctl s) /\
  heap_bytes (el_ctl s') = heap_bytes (el_ctl s) /\
  bl_beg (avail (el_ctl s')) = bl_beg (avail (el_ctl s)) /\
  bl_end (avail (el_ctl s')) = bl_end (avail (el_ctl s)) /\
  bl_beg (used (el_ctl s')) = bl_beg (used (el_ctl s)) /\
  bl_end (used (el_ctl s')) = bl_end (used (el_ctl s)).

(** The sizes in headers and footers and the block states. *)
Definition same_tags (s s' : state) : Prop :=
  h_size (memory s') = h_size (memory s) /\
  f_size (memory s') = f_size (memory s) /\
  h_state (memory s') = h_state (memory s).

(** Everything but the sizes in headers and footers. *)
Definition same_but_sizes (s s' : state) : Prop :=
  el_ctl s' = el_ctl s /\
  h_state (memory s') = h_state (memory s) /\
  h_next (memory s') = h_next (memory s) /\
  h_prev (memory s') = h_prev (memory s).



(** The concrete heap after [el_malloc 8] and [el_malloc 16]. *)
Definition demo_two : state := final_state (el_malloc 16) demo_one.

(** * Proofs *)

(** ** Basic facts: wrap-around, cells, monad steps *)

Lemma wrap_small z : 0 <= z < SIZE_MAX_P1 -> wrap z = z.
Proof. intros H. unfold wrap. apply Z.mod_small. exact H. Qed.

Lemma wrap_range z : 0 <= wrap z < SIZE_MAX_P1.
Proof. unfold wrap. apply Z.mod_pos_bound. reflexivity. Qed.

Lemma rd_insert_eq (m : gmap Z Z) a v : rd (<[a := v]> m) a = v.
Proof. unfold rd. rewrite lookup_insert_eq. reflexivity. Qed.

Lemma rd_insert_ne (m : gmap Z Z) a b v : a <> b -> rd (<[a := v]> m) b = rd m b.
Proof. intros H. unfold rd. rewrite lookup_insert_ne by exact H. reflexivity. Qed.

Lemma rd_insert (m : gmap Z Z) a b v :
  rd (<[a := v]> m) b = if decide (a = b) then v else rd m b.
Proof.
  destruct (decide (a = b)) as [->|H].
  - apply rd_insert_eq.
  - apply rd_insert_ne, H.
Qed.

Lemma bind_ret {A B} (a : A) (k : A -> M B) s : bind (ret a) k s = k a s.
Proof. reflexivity. Qed.

Lemma bind_ret_r {A} (m : M A) s : bind m ret s = m s.
Proof. unfold bind, ret. destruct (m s) as [[a s']|]; reflexivity. Qed.

Lemma bind_assoc {A B C} (m : M A) (f : A -> M B) (g : B -> M C) s :
  bind (bind m f) g s = bind m (fun x => bind (f x) g) s.
Proof. unfold bind. destruct (m s) as [[a s']|]; reflexivity. Qed.

Lemma bind_get_ctl {B} (k : el_ctl_t -> M B) s : bind get_ctl k s = k (el_ctl s) s.
Proof. reflexivity. Qed.

Lemma bind_put_list {B} l b (k : unit -> M B) s :
  bind (put_list l b) k s = k tt (State (set_list l b (el_ctl s)) (memory s)).
Proof. reflexivity. Qed.

Lemma bind_load {B} f p (k : Z -> M B) s :
  p <> NULL -> bind (load f p) k s = k (rd (f (memory s)) p) s.
Proof.
  intros H. unfold bind, load. destruct (Z.eqb_spec p NULL); [contradiction | reflexivity].
Qed.

Lemma bind_load_null {B} f (k : Z -> M B) s : bind (load f NULL) k s = None.
Proof. reflexivity. Qed.

Lemma bind_store_size {B} p v (k : unit -> M B) c sz st nx pv ft :
  p <> NULL ->
  bind (store_size p v) k (State c (Mem sz st nx pv ft))
  = k tt (State c (Mem (<[p := v]> sz) st nx pv ft)).
Proof.
  intros H. unfold bind, store_size. destruct (Z.eqb_spec p NULL); [contradiction | reflexivity].
Qed.

Lemma bind_store_state {B} p v (k : unit -> M B) c sz st nx pv ft :
  p <> NULL ->
  bind (store_state p v) k (State c (Mem sz st nx pv ft))
  = k tt (State c (Mem sz (<[p := v]> st) nx pv ft)).
Proof.
  intros H. unfold bind, store_state. destruct (Z.eqb_spec p NULL); [contradiction | reflexivity].
Qed.

Lemma bind_store_next {B} p v (k : unit -> M B) c sz st nx pv ft :
  p <> NULL ->
  bind (store_next p v) k (State c (Mem sz st nx pv ft))
  = k tt (State c (Mem sz st (<[p := v]> nx) pv ft)).
Proof.
  intros H. unfold bind, store_next. destruct (Z.eqb_spec p NULL); [contradiction | reflexivity].
Qed.

Lemma bind_store_prev {B} p v (k : unit -> M B) c sz st nx pv ft :
  p <> NULL ->
  bind (store_prev p v) k (State c (Mem sz st nx pv ft))
  = k tt (State c (Mem sz st nx (<[p := v]> pv) ft)).
Proof.
  intros H. unfold bind, store_prev. destruct (Z.eqb_spec p NULL); [contradiction | reflexivity].
Qed.

Lemma bind_store_foot {B} p v (k : unit -> M B) c sz st nx pv ft :
  p <> NULL ->
  bind (store_foot p v) k (State c (Mem sz st nx pv ft))
  = k tt (State c (Mem sz st nx pv (<[p := v]> ft))).
Proof.
  intros H. unfold bind, store_foot. destruct (Z.eqb_spec p NULL); [contradiction | reflexivity].
Qed.

(** ** The list operations as state transformers *)

Ltac consts :=
  unfold EL_BLOCK_OVERHEAD, sizeof_blockhead, sizeof_blockfoot, NULL, SIZE_MAX_P1 in *;
  try change (32 + 8) with 40 in *.

Ltac nonnull := first [assumption | consts; lia].

Ltac mstep :=
  first
    [ rewrite bind_assoc
    | rewrite bind_ret
    | rewrite bind_get_ctl
    | rewrite bind_put_list
    | rewrite bind_load by nonnull
    | rewrite bind_store_size by nonnull
    | rewrite bind_store_state by nonnull
    | rewrite bind_store_next by nonnull
    | rewrite bind_store_prev by nonnull
    | rewrite bind_store_foot by nonnull ];
  cbn [memory el_ctl h_size h_state h_next h_prev f_size].

Lemma el_add_block_front_run {B} l block (k : unit -> M B) c sz st nx pv ft :
  let beg := bl_beg (get_list l c) in
  let bn := rd nx beg in
  block <> NULL -> beg <> NULL -> bn <> NULL -> beg <> block ->
  bind (el_add_block_front l block) k (State c (Mem sz st nx pv ft))
  = k tt (State (set_list l (bl_grow (get_list l c) (rd sz block)) c)
            (Mem sz st (<[beg := block]> (<[block := bn]> nx))
                       (<[bn := block]> (<[block := beg]> pv)) ft)).
Proof.
  intros beg bn Hb Hbeg Hbn Hne. unfold el_add_block_front.
  repeat mstep. fold beg. fold bn.
  rewrite rd_insert_eq. repeat mstep.
  rewrite (rd_insert_ne _ beg block) by assumption. rewrite rd_insert_eq.
  repeat mstep. reflexivity.
Qed.

Lemma el_remove_block_run {B} l block (k : unit -> M B) c sz st nx pv ft :
  let bp := rd pv block in
  let bn := rd nx block in
  block <> NULL -> bp <> NULL -> bn <> NULL -> bp <> block ->
  bind (el_remove_block l block) k (State c (Mem sz st nx pv ft))
  = k tt (State (set_list l (bl_shrink (get_list l c) (rd sz block)) c)
            (Mem sz st (<[bp := bn]> nx) (<[bn := bp]> pv) ft)).
Proof.
  intros bp bn Hb Hbp Hbn Hne. unfold el_remove_block.
  repeat mstep. fold bp. fold bn.
  rewrite (rd_insert_ne _ bp block) by assumption. fold bn.
  repeat mstep. reflexivity.
Qed.

(** ** Doubly-linked chains *)

Lemma dl_ext nx pv nx' pv' p l q :
  (forall x, x ∈ p :: l -> rd nx' x = rd nx x) ->
  (forall x, x ∈ l ++ [q] -> rd pv' x = rd pv x) ->
  dl nx pv p l q -> dl nx' pv' p l q.
Proof.
  revert p. induction l as [|y l IH]; intros p Hn Hp H; simpl in *.
  - destruct H as [H1 H2]. split.
    + rewrite Hn; [exact H1 | set_solver].
    + rewrite Hp; [exact H2 | set_solver].
  - destruct H as (H1 & H2 & H3). split; [|split].
    + rewrite Hn; [exact H1 | set_solver].
    + rewrite Hp; [exact H2 | set_solver].
    + apply IH; [ | | exact H3].
      * intros x Hx. apply Hn. set_solver.
      * intros x Hx. apply Hp. set_solver.
Qed.

Lemma dl_walk nx pv p l q :
  dl nx pv p l q -> walk_next nx (length l) p = l.
Proof.
  revert p. induction l as [|y l IH]; intros p H; simpl in *; [reflexivity|].
  destruct H as (H1 & _ & H3). rewrite H1. f_equal. apply IH, H3.
Qed.

Lemma dl_head nx pv p l q : dl nx pv p l q -> rd nx p = chain_head l q.
Proof. destruct l; simpl; intros H; apply H. Qed.

Lemma chain_head_in l q : chain_head l q ∈ l ++ [q].
Proof. destruct l; simpl; set_solver. Qed.

Lemma dl_add_front nx pv p l q b :
  NoDup (p :: l ++ [q]) -> b ∉ p :: l ++ [q] ->
  dl nx pv p l q ->
  dl (<[p := b]> (<[b := rd nx p]> nx))
     (<[rd nx p := b]> (<[b := p]> pv)) p (b :: l) q.
Proof.
  intros Hnd Hb H.
  assert (Hpb : p <> b) by set_solver.
  apply NoDup_cons in Hnd as [Hp Hnd].
  pose proof (dl_head _ _ _ _ _ H) as Hh. rewrite Hh.
  pose proof (chain_head_in l q) as Hin.
  assert (Hhb : chain_head l q <> b) by set_solver.
  assert (Hhp : chain_head l q <> p) by (intros E; apply Hp; rewrite <- E; exact Hin).
  simpl. split; [apply rd_insert_eq|]. split.
  { rewrite rd_insert_ne by exact Hhb. apply rd_insert_eq. }
  destruct l as [|x l]; simpl in *.
  - destruct H as [H1 H2]. split.
    + rewrite rd_insert_ne by exact Hpb. apply rd_insert_eq.
    + apply rd_insert_eq.
  - destruct H as (H1 & H2 & H3). split; [|split].
    + rewrite rd_insert_ne by exact Hpb. apply rd_insert_eq.
    + apply rd_insert_eq.
    + apply NoDup_cons in Hnd as [Hx Hnd].
      apply dl_ext with (nx := nx) (pv := pv); [ | | exact H3].
      * intros y Hy. rewrite !rd_insert_ne; [reflexivity | set_solver | set_solver].
      * intros y Hy. rewrite !rd_insert_ne; [reflexivity | set_solver | set_solver].
Qed.

Lemma dl_remove nx pv p l1 b l2 q :
  NoDup (p :: (l1 ++ b :: l2) ++ [q]) ->
  dl nx pv p (l1 ++ b :: l2) q ->
  dl (<[rd pv b := rd nx b]> nx) (<[rd nx b := rd pv b]> pv) p (l1 ++ l2) q.
Proof.
  revert p. induction l1 as [|y l1 IH]; intros p Hnd H.
  - simpl in *. destruct H as (H1 & H2 & H3). rewrite H2.
    pose proof (dl_head _ _ _ _ _ H3) as Hh. rewrite Hh.
    apply NoDup_cons in Hnd as [Hp Hnd]. apply NoDup_cons in Hnd as [Hb Hnd].
    pose proof (chain_head_in l2 q) as Hin.
    destruct l2 as [|x l2]; simpl in *.
    + split; apply rd_insert_eq.
    + destruct H3 as (H4 & H5 & H6). split; [apply rd_insert_eq|].
      split; [apply rd_insert_eq|].
      apply NoDup_cons in Hnd as [Hx Hnd].
      apply dl_ext with (nx := nx) (pv := pv); [ | | exact H6].
      * intros y Hy. rewrite rd_insert_ne; [reflexivity | set_solver].
      * intros y Hy. rewrite rd_insert_ne; [reflexivity | set_solver].
  - simpl in H. destruct H as (H1 & H2 & H3).
    assert (Hnd' : NoDup (y :: (l1 ++ b :: l2) ++ [q])).
    { simpl in Hnd. apply NoDup_cons in Hnd as [_ Hnd]. exact Hnd. }
    specialize (IH y Hnd' H3).
    assert (Hpvb : rd pv b ∈ y :: l1).
    { clear -H3. revert y H3. induction l1 as [|z l1 IH]; intros y H3; simpl in *.
      - destruct H3 as (_ & E & _). rewrite E. set_solver.
      - destruct H3 as (_ & _ & H3). specialize (IH z H3). set_solver. }
    assert (Hnxb : rd nx b ∈ l2 ++ [q]).
    { clear -H3. revert y H3. induction l1 as [|z l1 IH]; intros y H3; simpl in *.
      - destruct H3 as (_ & _ & H3). rewrite (dl_head _ _ _ _ _ H3). apply chain_head_in.
      - destruct H3 as (_ & _ & H3). exact (IH z H3). }
    simpl in Hnd. apply NoDup_cons in Hnd as [Hp Hnd].
    apply NoDup_cons in Hnd as [Hy Hnd].
    simpl. split; [|split].
    + rewrite rd_insert_ne; [exact H1|]. intros E. apply Hp. rewrite <- E. set_solver.
    + rewrite rd_insert_ne; [exact H2|]. intros E. apply Hy. rewrite <- E. set_solver.
    + exact IH.
Qed.

(** ** Tilings of the arena *)

Lemma tiles_app sz ft a l1 l2 e :
  tiles sz ft a (l1 ++ l2) e <-> exists mid, tiles sz ft a l1 mid /\ tiles sz ft mid l2 e.
Proof.
  revert a. induction l1 as [|b l1 IH]; intros a; simpl.
  - split.
    + intros H. exists a. split; [reflexivity | exact H].
    + intros (mid & -> & H). exact H.
  - split.
    + intros (H1 & H2 & H3 & H4). apply IH in H4 as (mid & H5 & H6).
      exists mid. repeat split; assumption.
    + intros (mid & (H1 & H2 & H3 & H4) & H5). repeat split; try assumption.
      apply IH. exists mid. split; assumption.
Qed.

Lemma tiles_le sz ft a bs e : tiles sz ft a bs e -> a + 40 * Z.of_nat (length bs) <= e.
Proof.
  revert a. induction bs as [|b bs IH]; intros a H; simpl in H.
  - subst. simpl. lia.
  - destruct H as (-> & H2 & _ & H4). apply IH in H4. consts.
    rewrite length_cons. lia.
Qed.

Lemma tiles_bounds sz ft a bs e b :
  tiles sz ft a bs e -> b ∈ bs ->
  a <= b /\ 0 <= rd sz b /\ b + rd sz b + EL_BLOCK_OVERHEAD <= e.
Proof.
  revert a. induction bs as [|x bs IH]; intros a H Hb; [set_solver|].
  simpl in H. destruct H as (-> & H2 & H3 & H4).
  apply elem_of_cons in Hb as [->|Hb].
  - apply tiles_le in H4. consts. lia.
  - destruct (IH _ H4 Hb) as (? & ? & ?). consts. lia.
Qed.

Lemma tiles_ext sz ft sz' ft' a bs e :
  (forall x, a <= x < e -> rd sz' x = rd sz x) ->
  (forall x, a <= x < e -> rd ft' x = rd ft x) ->
  tiles sz ft a bs e -> tiles sz' ft' a bs e.
Proof.
  revert a. induction bs as [|b bs IH]; intros a Hs Hf H; simpl in *; [exact H|].
  destruct H as (-> & H2 & H3 & H4).
  pose proof (tiles_le _ _ _ _ _ H4) as Hle. consts.
  assert (E : rd sz' a = rd sz a) by (apply Hs; lia).
  rewrite E. repeat split; try assumption.
  - rewrite Hf by lia. exact H3.
  - apply IH; [ | | exact H4]; intros x Hx; [apply Hs | apply Hf]; lia.
Qed.

Lemma tiles_sum sz ft a bs e : tiles sz ft a bs e -> sum_bytes sz bs = e - a.
Proof.
  revert a. induction bs as [|b bs IH]; intros a H; simpl in *.
  - lia.
  - destruct H as (-> & _ & _ & H4). rewrite (IH _ H4). lia.
Qed.

Lemma tiles_walk sz ft a bs e fuel :
  tiles sz ft a bs e -> (length bs <= fuel)%nat -> walk_arena sz fuel a e = bs.
Proof.
  revert a bs. induction fuel as [|k IH]; intros a bs H Hf.
  - destruct bs; [reflexivity | simpl in Hf; lia].
  - simpl. destruct bs as [|b bs]; simpl in H.
    + subst. rewrite Z.geb_leb, Z.leb_refl. reflexivity.
    + destruct H as (-> & H2 & _ & H4).
      pose proof (tiles_le _ _ _ _ _ H4) as Hle. consts.
      destruct (Z.geb_spec a e) as [Hge|_]; [lia|].
      f_equal. apply IH; [exact H4 | simpl in Hf; lia].
Qed.

Lemma tiles_lt sz ft a bs e b : tiles sz ft a bs e -> b ∈ bs -> a <= b < e.
Proof.
  intros H Hb. destruct (tiles_bounds _ _ _ _ _ _ H Hb) as (? & ? & ?). consts. lia.
Qed.

Lemma tiles_NoDup sz ft a bs e : tiles sz ft a bs e -> NoDup bs.
Proof.
  revert a. induction bs as [|b bs IH]; intros a H; [constructor|].
  simpl in H. destruct H as (-> & H2 & _ & H4). constructor.
  - intros Hin. pose proof (tiles_lt _ _ _ _ _ _ H4 Hin). consts. lia.
  - exact (IH _ H4).
Qed.

Lemma tiles_split sz ft a l1 b l2 e n :
  let S := rd sz b in
  0 <= n -> n + EL_BLOCK_OVERHEAD <= S ->
  tiles sz ft a (l1 ++ b :: l2) e ->
  tiles (<[b + n + EL_BLOCK_OVERHEAD := S - n - EL_BLOCK_OVERHEAD]> (<[b := n]> sz))
        (<[b + sizeof_blockhead + S := S - n - EL_BLOCK_OVERHEAD]>
           (<[b + sizeof_blockhead + n := n]> ft))
        a (l1 ++ b :: (b + n + EL_BLOCK_OVERHEAD) :: l2) e.
Proof.
  intros S Hn HS H. subst S. apply tiles_app in H as (mid & H1 & H2).
  simpl in H2. destruct H2 as (<- & H3 & H4 & H5).
  pose proof (tiles_le _ _ _ _ _ H5) as Hle.
  pose proof (tiles_le _ _ _ _ _ H1) as Hle1.
  apply tiles_app. exists b. split.
  - apply tiles_ext with (sz := sz) (ft := ft); [ | | exact H1];
      intros x Hx; consts; rewrite !rd_insert_ne by lia; reflexivity.
  - simpl. consts.
    rewrite (rd_insert_ne _ (b + n + 40) b) by lia. rewrite !rd_insert_eq.
    split; [reflexivity|]. split; [lia|]. split.
    { rewrite rd_insert_ne by lia. apply rd_insert_eq. }
    split; [reflexivity|]. split; [lia|]. split.
    { replace (b + n + 40 + 32 + (rd sz b - n - 40)) with (b + 32 + rd sz b) by lia.
      apply rd_insert_eq. }
    replace (b + n + 40 + (rd sz b - n - 40) + 40) with (b + rd sz b + 40) by lia.
    apply tiles_ext with (sz := sz) (ft := ft); [ | | exact H5];
      intros x Hx; rewrite !rd_insert_ne by lia; reflexivity.
Qed.

Lemma tiles_merge sz ft a l1 b b' l2 e :
  let S := rd sz b in
  let S' := rd sz b' in
  tiles sz ft a (l1 ++ b :: b' :: l2) e ->
  tiles (<[b := S + S' + EL_BLOCK_OVERHEAD]> sz)
        (<[b' + sizeof_blockhead + S' := S + S' + EL_BLOCK_OVERHEAD]> ft)
        a (l1 ++ b :: l2) e.
Proof.
  intros S S' H. subst S S'. apply tiles_app in H as (mid & H1 & H2).
  simpl in H2. destruct H2 as (<- & H3 & H4 & -> & H6 & H7 & H8).
  pose proof (tiles_le _ _ _ _ _ H8) as Hle.
  pose proof (tiles_le _ _ _ _ _ H1) as Hle1.
  apply tiles_app. exists b. split.
  - apply tiles_ext with (sz := sz) (ft := ft); [ | | exact H1];
      intros x Hx; consts; rewrite !rd_insert_ne by lia; reflexivity.
  - simpl. consts. rewrite !rd_insert_eq.
    split; [reflexivity|]. split; [lia|]. split.
    { match goal with |- rd _ ?k = _ =>
        replace k with (b + rd sz b + 40 + 32 + rd sz (b + rd sz b + 40)) by lia end.
      apply rd_insert_eq. }
    match goal with |- tiles _ _ ?k _ _ =>
      replace k with (b + rd sz b + 40 + rd sz (b + rd sz b + 40) + 40) by lia end.
    apply tiles_ext with (sz := sz) (ft := ft); [ | | exact H8];
      intros x Hx; rewrite !rd_insert_ne by lia; reflexivity.
Qed.

(** ** The two lists together *)

Lemma without_split b l1 l2 : b ∉ l1 -> without b (l1 ++ b :: l2) = l1 ++ l2.
Proof.
  induction l1 as [|x l1 IH]; intros H; simpl.
  - rewrite Z.eqb_refl. reflexivity.
  - destruct (Z.eqb_spec x b) as [->|Hne]; [set_solver|].
    f_equal. apply IH. set_solver.
Qed.

Lemma NoDup_split_notin (b : Z) l1 l2 : NoDup (l1 ++ b :: l2) -> b ∉ l1 /\ b ∉ l2.
Proof.
  intros H. apply NoDup_app in H as (_ & H2 & H3).
  apply NoDup_cons in H3 as [H3 _]. split; [|exact H3].
  intros Hin. apply (H2 _ Hin). set_solver.
Qed.

Lemma dl_prev_in nx pv p l1 b l2 q :
  dl nx pv p (l1 ++ b :: l2) q -> rd pv b ∈ p :: l1.
Proof.
  revert p. induction l1 as [|z l1 IH]; intros p H; simpl in *.
  - destruct H as (_ & E & _). rewrite E. set_solver.
  - destruct H as (_ & _ & H). specialize (IH z H). set_solver.
Qed.

Lemma dl_next_in nx pv p l1 b l2 q :
  dl nx pv p (l1 ++ b :: l2) q -> rd nx b ∈ l2 ++ [q].
Proof.
  revert p. induction l1 as [|z l1 IH]; intros p H; simpl in *.
  - destruct H as (_ & _ & H). rewrite (dl_head _ _ _ _ _ H). apply chain_head_in.
  - destruct H as (_ & _ & H). exact (IH z H).
Qed.

Lemma lists_ok_swap ab ae ub ue nx pv la lu :
  lists_ok ab ae ub ue nx pv la lu -> lists_ok ub ue ab ae nx pv lu la.
Proof.
  intros [Ha Hu Hnd Hnn]. constructor; try assumption.
  - apply NoDup_app in Hnd as (H1 & H2 & H3). apply NoDup_app.
    split; [exact H3|]. split; [|exact H1].
    intros x Hx Hx'. exact (H2 x Hx' Hx).
  - apply Forall_app in Hnn as [H1 H2]. apply Forall_app. split; assumption.
Qed.

Lemma lists_remove ab ae ub ue nx pv la lu b :
  lists_ok ab ae ub ue nx pv la lu -> b ∈ la ->
  b <> NULL /\ rd pv b <> NULL /\ rd nx b <> NULL /\ rd pv b <> b /\
  lists_ok ab ae ub ue (<[rd pv b := rd nx b]> nx) (<[rd nx b := rd pv b]> pv)
           (without b la) lu.
Proof.
  intros [Ha Hu Hnd Hnn] Hb.
  apply list_elem_of_split in Hb as (l1 & l2 & ->).
  pose proof (dl_prev_in _ _ _ _ _ _ _ Ha) as Hp.
  pose proof (dl_next_in _ _ _ _ _ _ _ Ha) as Hn.
  pose proof Hnd as Hnd0.
  apply NoDup_app in Hnd as (Hnda & Hdisj & Hndu).
  unfold nodes in *.
  assert (Eshape : ab :: (l1 ++ b :: l2) ++ [ae] = (ab :: l1) ++ b :: (l2 ++ [ae])).
  { simpl. rewrite <- app_assoc. reflexivity. }
  rewrite Eshape in Hnda.
  assert (Hsplit : b ∉ ab :: l1 /\ b ∉ l2 ++ [ae]).
  { apply NoDup_split_notin in Hnda. exact Hnda. }
  destruct Hsplit as [Hb1 Hb2].
  rewrite Forall_forall in Hnn.
  assert (Hina : forall x, x ∈ ab :: (l1 ++ b :: l2) ++ [ae] -> x <> NULL).
  { intros x Hx. apply Hnn. set_solver. }
  split; [apply Hina; set_solver|].
  split; [apply Hina; set_solver|].
  split; [apply Hina; set_solver|].
  split; [intros E; rewrite E in Hp; contradiction|].
  rewrite without_split by set_solver.
  constructor; unfold nodes.
  - apply dl_remove; [rewrite Eshape; exact Hnda | exact Ha].
  - apply dl_ext with (nx := nx) (pv := pv); [ | | exact Hu].
    + intros x Hx. rewrite rd_insert_ne; [reflexivity|].
      intros E. subst x. apply (Hdisj (rd pv b)); set_solver.
    + intros x Hx. rewrite rd_insert_ne; [reflexivity|].
      intros E. subst x. apply (Hdisj (rd nx b)); set_solver.
  - apply NoDup_app. split; [|split].
    + replace (ab :: (l1 ++ l2) ++ [ae]) with ((ab :: l1) ++ (l2 ++ [ae]))
        by (simpl; rewrite <- app_assoc; reflexivity).
      apply NoDup_app in Hnda as (N1 & N2 & N3). apply NoDup_cons in N3 as [_ N3].
      apply NoDup_app. split; [exact N1|]. split; [|exact N3].
      intros x Hx. specialize (N2 x Hx). set_solver.
    + intros x Hx. apply Hdisj. set_solver.
    + exact Hndu.
  - apply Forall_forall. intros x Hx. apply Hnn. set_solver.
Qed.

Lemma lists_add ab ae ub ue nx pv la lu b :
  lists_ok ab ae ub ue nx pv la lu ->
  b <> NULL -> b ∉ nodes ab la ae ++ nodes ub lu ue ->
  ab <> NULL /\ rd nx ab <> NULL /\ ab <> b /\
  lists_ok ab ae ub ue (<[ab := b]> (<[b := rd nx ab]> nx))
           (<[rd nx ab := b]> (<[b := ab]> pv)) (b :: la) lu.
Proof.
  intros [Ha Hu Hnd Hnn] Hb0 Hb. unfold nodes in *.
  pose proof (dl_head _ _ _ _ _ Ha) as Hh.
  pose proof (chain_head_in la ae) as Hin. rewrite <- Hh in Hin.
  apply NoDup_app in Hnd as (Hnda & Hdisj & Hndu).
  rewrite Forall_forall in Hnn.
  split; [apply Hnn; set_solver|].
  split; [apply Hnn; set_solver|].
  split; [set_solver|].
  constructor; unfold nodes.
  - apply dl_add_front; [exact Hnda | set_solver | exact Ha].
  - apply dl_ext with (nx := nx) (pv := pv); [ | | exact Hu].
    + intros x Hx. rewrite !rd_insert_ne; [reflexivity | set_solver | ].
      intros E. subst x. apply (Hdisj ab); set_solver.
    + intros x Hx. rewrite !rd_insert_ne; [reflexivity | set_solver | ].
      intros E. subst x. apply (Hdisj (rd nx ab)); set_solver.
  - apply NoDup_app. split; [|split].
    + simpl. apply NoDup_cons in Hnda as [N1 N2].
      apply NoDup_cons. split; [set_solver|].
      apply NoDup_cons. split; [set_solver | exact N2].
    + intros x Hx Hx'. apply elem_of_cons in Hx as [->|Hx]; [apply (Hdisj ab); set_solver|].
      apply elem_of_cons in Hx as [->|Hx]; [set_solver|].
      apply (Hdisj x); set_solver.
    + exact Hndu.
  - apply Forall_forall. intros x Hx.
    apply elem_of_app in Hx as [Hx|Hx]; [|apply Hnn; set_solver].
    apply elem_of_cons in Hx as [->|Hx]; [apply Hnn; set_solver|].
    apply elem_of_cons in Hx as [->|Hx]; [exact Hb0|].
    apply Hnn. set_solver.
Qed.

(** ** Sizes, sums and states under updates *)

Lemma sum_bytes_ext sz sz' l :
  (forall x, x ∈ l -> rd sz' x = rd sz x) -> sum_bytes sz' l = sum_bytes sz l.
Proof.
  induction l as [|b l IH]; intros H; simpl; [reflexivity|].
  rewrite H by set_solver. rewrite IH; [reflexivity|]. intros x Hx. apply H. set_solver.
Qed.

Lemma sum_bytes_app sz l1 l2 : sum_bytes sz (l1 ++ l2) = sum_bytes sz l1 + sum_bytes sz l2.
Proof. induction l1 as [|b l1 IH]; simpl; [reflexivity|]. rewrite IH. lia. Qed.

Lemma sum_bytes_perm sz l1 l2 : l1 ≡ₚ l2 -> sum_bytes sz l1 = sum_bytes sz l2.
Proof.
  induction 1 as [|x l l' _ IH|x y l|l l' l'' _ IH1 _ IH2]; simpl; try lia.
Qed.

Lemma sum_bytes_without sz b l :
  b ∈ l -> sum_bytes sz (without b l) = sum_bytes sz l - (rd sz b + EL_BLOCK_OVERHEAD).
Proof.
  induction l as [|x l IH]; intros H; [set_solver|]. simpl.
  destruct (Z.eqb_spec x b) as [->|Hne]; [lia|].
  simpl. rewrite IH by set_solver. lia.
Qed.

Lemma length_without (b : Z) l :
  b ∈ l -> Z.of_nat (length (without b l)) = Z.of_nat (length l) - 1.
Proof.
  induction l as [|x l IH]; intros H; [set_solver|]. simpl.
  destruct (Z.eqb_spec x b) as [->|Hne]; [lia|].
  simpl. specialize (IH ltac:(set_solver)). lia.
Qed.

Lemma without_subset (b x : Z) l : x ∈ without b l -> x ∈ l.
Proof.
  induction l as [|y l IH]; simpl; [trivial|].
  destruct (Z.eqb_spec y b); set_solver.
Qed.

Lemma without_perm (b : Z) l : b ∈ l -> l ≡ₚ b :: without b l.
Proof.
  induction l as [|x l IH]; intros H; [set_solver|]. simpl.
  destruct (Z.eqb_spec x b) as [->|Hne]; [reflexivity|].
  rewrite (IH ltac:(set_solver)) at 1. apply Permutation_swap.
Qed.

Lemma without_notin (b : Z) l : NoDup l -> b ∉ without b l.
Proof.
  induction l as [|x l IH]; intros H; simpl; [set_solver|].
  apply NoDup_cons in H as [H1 H2].
  destruct (Z.eqb_spec x b) as [->|Hne]; [exact H1|].
  specialize (IH H2). set_solver.
Qed.

Lemma sum_bytes_nonneg sz l :
  (forall x, x ∈ l -> 0 <= rd sz x) -> 0 <= sum_bytes sz l.
Proof.
  induction l as [|b l IH]; intros H; simpl; [lia|].
  specialize (H b ltac:(set_solver)) as Hb.
  assert (0 <= sum_bytes sz l) by (apply IH; intros x Hx; apply H; set_solver).
  consts. lia.
Qed.

(** ** First-fit search *)

Lemma find_loop_spec s l p q n :
  dl (h_next (memory s)) (h_prev (memory s)) p l q ->
  Forall (fun x => x <> NULL) l ->
  find_loop (length l) n (rd (h_next (memory s)) p) s
  = Some (first_fit s (wrap (n + EL_BLOCK_OVERHEAD)) l, s).
Proof.
  revert p. induction l as [|b l IH]; intros p H Hnn; simpl in *; [reflexivity|].
  destruct H as (H1 & H2 & H3). apply Forall_cons in Hnn as [Hb Hnn].
  rewrite H1. rewrite bind_load by exact Hb. unfold size_of.
  destruct (rd (h_size (memory s)) b >=? wrap (n + EL_BLOCK_OVERHEAD)); [reflexivity|].
  rewrite bind_load by exact Hb. apply IH; assumption.
Qed.

Lemma first_fit_found s need l b :
  Forall (fun x => x <> NULL) l ->
  first_fit s need l = b -> b <> NULL ->
  exists l1 l2, l = l1 ++ b :: l2 /\ need <= size_of s b /\
                Forall (fun x => size_of s x < need) l1.
Proof.
  intros Hnn. induction l as [|x l IH]; simpl; intros E Hb; [congruence|].
  apply Forall_cons in Hnn as [Hx Hnn].
  destruct (Z.geb_spec (size_of s x) need) as [Hge|Hlt].
  - subst x. exists [], l. repeat split; [lia | constructor].
  - destruct (IH Hnn E Hb) as (l1 & l2 & -> & H1 & H2).
    exists (x :: l1), l2. repeat split; [exact H1|]. constructor; [lia | exact H2].
Qed.

Lemma first_fit_none s need l :
  Forall (fun x => x <> NULL) l ->
  first_fit s need l = NULL <-> Forall (fun x => size_of s x < need) l.
Proof.
  induction l as [|x l IH]; intros Hnn; simpl.
  - split; [constructor | reflexivity].
  - apply Forall_cons in Hnn as [Hx Hnn].
    destruct (Z.geb_spec (size_of s x) need) as [Hge|Hlt].
    + split; [contradiction|]. intros H. apply Forall_cons in H as [H _]. lia.
    + rewrite (IH Hnn). split.
      * intros H. constructor; [lia | exact H].
      * intros H. apply Forall_cons in H as [_ H]. exact H.
Qed.

Lemma inv0_members_nonnull s bs la lu :
  inv0 s bs la lu -> Forall (fun x => x <> NULL) la /\ Forall (fun x => x <> NULL) lu.
Proof.
  intros H. pose proof (lo_nonnull _ _ _ _ _ _ _ _ (inv_lists _ _ _ _ H)) as Hnn.
  unfold nodes in Hnn. rewrite Forall_forall in Hnn.
  split; apply Forall_forall; intros x Hx; apply Hnn; set_solver.
Qed.

Lemma el_find_first_avail_spec s bs la lu n :
  inv0 s bs la lu ->
  el_find_first_avail n s = Some (first_fit s (wrap (n + EL_BLOCK_OVERHEAD)) la, s).
Proof.
  intros H. unfold el_find_first_avail. rewrite bind_get_ctl.
  pose proof (inv_lists _ _ _ _ H) as HL.
  pose proof (lo_nonnull _ _ _ _ _ _ _ _ HL) as Hnn.
  rewrite Forall_forall in Hnn.
  rewrite bind_load by (apply Hnn; unfold nodes; set_solver).
  rewrite (inv_alen _ _ _ _ H), Nat2Z.id.
  apply find_loop_spec with (q := bl_end (avail (el_ctl s))).
  - exact (lo_a _ _ _ _ _ _ _ _ HL).
  - apply (inv0_members_nonnull _ _ _ _ H).
Qed.

(** ** Splitting *)

Lemma el_split_block_run {B} block n (k : Z -> M B) c sz st nx pv ft :
  let S := rd sz block in
  0 < block -> 0 <= n -> n + EL_BLOCK_OVERHEAD <= S ->
  block + S + EL_BLOCK_OVERHEAD < SIZE_MAX_P1 ->
  bind (el_split_block block n) k (State c (Mem sz st nx pv ft))
  = k (block + n + EL_BLOCK_OVERHEAD)
      (State c (Mem
         (<[block + n + EL_BLOCK_OVERHEAD := S - n - EL_BLOCK_OVERHEAD]> (<[block := n]> sz))
         st nx pv
         (<[block + sizeof_blockhead + S := S - n - EL_BLOCK_OVERHEAD]>
            (<[block + sizeof_blockhead + n := n]> ft)))).
Proof.
  intros S Hb Hn HS Htop. subst S. unfold el_split_block, el_get_footer, PTR_PLUS_BYTES.
  assert (Hb0 : block <> NULL) by (consts; lia).
  repeat mstep.
  rewrite (wrap_small (n + EL_BLOCK_OVERHEAD)) by (consts; lia).
  destruct (Z.ltb_spec (rd sz block) (n + EL_BLOCK_OVERHEAD)) as [Hlt|_]; [lia|].
  destruct (Z.eqb_spec block NULL) as [E|_]; [contradiction|]. simpl orb. cbv iota.
  repeat mstep.
  rewrite (wrap_small (sizeof_blockhead + rd sz block)) by (consts; lia).
  rewrite (wrap_small (n + sizeof_blockfoot + sizeof_blockhead)) by (consts; lia).
  rewrite (wrap_small (n + sizeof_blockhead)) by (consts; lia).
  rewrite (wrap_small (rd sz block - n - EL_BLOCK_OVERHEAD)) by (consts; lia).
  rewrite (wrap_small (block + (n + sizeof_blockfoot + sizeof_blockhead))) by (consts; lia).
  rewrite (wrap_small (block + (n + sizeof_blockhead))) by (consts; lia).
  rewrite (wrap_small (block + (sizeof_blockhead + rd sz block))) by (consts; lia).
  repeat mstep.
  replace (block + (n + sizeof_blockfoot + sizeof_blockhead))
    with (block + n + EL_BLOCK_OVERHEAD) by (consts; lia).
  replace (block + (n + sizeof_blockhead)) with (block + sizeof_blockhead + n) by lia.
  replace (block + (sizeof_blockhead + rd sz block))
    with (block + sizeof_blockhead + rd sz block) by lia.
  reflexivity.
Qed.

(** ** Coalesced sequences *)

Lemma coal_ext st st' l :
  (forall x, x ∈ l -> rd st' x = rd st x) -> coalesced_seq st' l = coalesced_seq st l.
Proof.
  induction l as [|x l IH]; intros H; [reflexivity|].
  destruct l as [|y l]; [reflexivity|].
  change (negb (is_available st' x && is_available st' y) && coalesced_seq st' (y :: l)
          = negb (is_available st x && is_available st y) && coalesced_seq st (y :: l)).
  unfold is_available. rewrite (H x), (H y) by set_solver.
  rewrite IH; [reflexivity|]. intros z Hz. apply H. set_solver.
Qed.

Lemma coal_cons2 st x y l :
  coalesced_seq st (x :: y :: l)
  = negb (is_available st x && is_available st y) && coalesced_seq st (y :: l).
Proof. reflexivity. Qed.

Lemma coal_app st l1 x l2 :
  coalesced_seq st (l1 ++ x :: l2)
  = coalesced_seq st (l1 ++ [x]) && coalesced_seq st (x :: l2).
Proof.
  induction l1 as [|y l1 IH].
  - reflexivity.
  - destruct l1 as [|z l1].
    + simpl app. rewrite !coal_cons2. simpl coalesced_seq at 2.
      rewrite andb_true_r. reflexivity.
    + change ((y :: z :: l1) ++ x :: l2) with (y :: z :: (l1 ++ x :: l2)).
      change ((y :: z :: l1) ++ [x]) with (y :: z :: (l1 ++ [x])).
      rewrite !coal_cons2. change (z :: l1 ++ x :: l2) with ((z :: l1) ++ x :: l2).
      rewrite IH. rewrite andb_assoc. reflexivity.
Qed.

Lemma coal_cons_tail st x l : coalesced_seq st (x :: l) = true -> coalesced_seq st l = true.
Proof.
  destruct l as [|y l]; [reflexivity|]. rewrite coal_cons2.
  intros H. apply andb_true_iff in H as [_ H]. exact H.
Qed.

Lemma coal_cons_unavail st x l :
  is_available st x = false -> coalesced_seq st (x :: l) = coalesced_seq st l.
Proof.
  intros H. destruct l as [|y l]; [reflexivity|]. rewrite coal_cons2, H. reflexivity.
Qed.

Lemma coal_snoc_init st l x : coalesced_seq st (l ++ [x]) = true -> coalesced_seq st l = true.
Proof.
  induction l as [|y l IH]; [reflexivity|].
  destruct l as [|z l]; [reflexivity|].
  change ((y :: z :: l) ++ [x]) with (y :: z :: (l ++ [x])). rewrite !coal_cons2.
  intros H. apply andb_true_iff in H as [H1 H2]. rewrite H1. apply IH. exact H2.
Qed.

Lemma coal_snoc_unavail st l x :
  is_available st x = false -> coalesced_seq st l = true -> coalesced_seq st (l ++ [x]) = true.
Proof.
  intros Hx. induction l as [|y l IH]; [reflexivity|].
  destruct l as [|z l].
  - intros _. simpl app. rewrite coal_cons2, Hx, andb_false_r. reflexivity.
  - change ((y :: z :: l) ++ [x]) with (y :: z :: (l ++ [x])). rewrite !coal_cons2.
    intros H. apply andb_true_iff in H as [H1 H2]. rewrite H1. apply IH. exact H2.
Qed.

(** In a coalesced sequence the neighbours of an AVAILABLE block are not. *)
Lemma coal_next_unavail st x y l :
  coalesced_seq st (x :: y :: l) = true -> is_available st x = true ->
  is_available st y = false.
Proof.
  rewrite coal_cons2. intros H Hx. rewrite Hx in H. simpl in H.
  apply andb_true_iff in H as [H _]. apply negb_true_iff in H. exact H.
Qed.

Lemma coal_prev_unavail st l y x :
  coalesced_seq st (l ++ [y; x]) = true -> is_available st x = true ->
  is_available st y = false.
Proof.
  intros H Hx. change (l ++ [y; x]) with (l ++ y :: [x]) in H.
  rewrite coal_app in H. apply andb_true_iff in H as [_ H].
  rewrite coal_cons2, Hx, andb_true_r in H. simpl in H.
  rewrite andb_true_r in H. apply negb_true_iff in H. exact H.
Qed.

(** ** Geometry of a tiling *)

Lemma tiles_apart sz ft a l1 b l2 e x :
  tiles sz ft a (l1 ++ b :: l2) e ->
  (x ∈ l1 -> x + rd sz x + EL_BLOCK_OVERHEAD <= b) /\
  (x ∈ l2 -> b + rd sz b + EL_BLOCK_OVERHEAD <= x).
Proof.
  intros H. apply tiles_app in H as (mid & H1 & H2).
  simpl in H2. destruct H2 as (<- & _ & _ & H2). split; intros Hx.
  - apply (tiles_bounds _ _ _ _ _ _ H1 Hx).
  - apply (tiles_bounds _ _ _ _ _ _ H2 Hx).
Qed.

Lemma tiles_inside_notin sz ft a bs e b x :
  tiles sz ft a bs e -> b ∈ bs ->
  b < x < b + rd sz b + EL_BLOCK_OVERHEAD -> x ∉ bs.
Proof.
  intros H Hb Hx Hin.
  apply list_elem_of_split in Hb as (l1 & l2 & ->).
  pose proof (tiles_apart _ _ _ _ _ _ _ x H) as [A1 A2].
  assert (Hx0 : 0 <= rd sz x) by apply (tiles_bounds _ _ _ _ _ _ H Hin).
  apply elem_of_app in Hin as [Hin|Hin].
  - specialize (A1 Hin). consts. lia.
  - apply elem_of_cons in Hin as [->|Hin]; [lia|]. specialize (A2 Hin). lia.
Qed.

(** ** Consequences of the invariant *)

Lemma inv0_in_bs s bs la lu x :
  inv0 s bs la lu -> (x ∈ la \/ x ∈ lu) <-> x ∈ bs.
Proof.
  intros H. rewrite <- (inv_perm _ _ _ _ H). rewrite elem_of_app. reflexivity.
Qed.

Lemma inv0_block_bounds s bs la lu x :
  inv0 s bs la lu -> x ∈ bs ->
  heap_start (el_ctl s) <= x /\ 0 <= size_of s x /\
  x + size_of s x + EL_BLOCK_OVERHEAD <= heap_end (el_ctl s).
Proof. intros H Hx. exact (tiles_bounds _ _ _ _ _ _ (inv_tiles _ _ _ _ H) Hx). Qed.

Lemma inv0_NoDup s bs la lu :
  inv0 s bs la lu -> NoDup la /\ NoDup lu /\ (forall x, x ∈ la -> x ∉ lu).
Proof.
  intros H. pose proof (tiles_NoDup _ _ _ _ _ (inv_tiles _ _ _ _ H)) as Hnd.
  rewrite <- (inv_perm _ _ _ _ H) in Hnd. apply NoDup_app in Hnd as (H1 & H2 & H3).
  repeat split; assumption.
Qed.

Lemma inv0_sentinels s bs la lu x :
  inv0 s bs la lu -> x ∈ bs ->
  x <> bl_beg (avail (el_ctl s)) /\ x <> bl_end (avail (el_ctl s)) /\
  x <> bl_beg (used (el_ctl s)) /\ x <> bl_end (used (el_ctl s)).
Proof.
  intros H Hx. pose proof (inv_sent_ok _ _ _ _ H) as Hs.
  rewrite Forall_forall in Hs. unfold sentinel_ok in Hs.
  pose proof (tiles_lt _ _ _ _ _ _ (inv_tiles _ _ _ _ H) Hx) as Hr.
  repeat split; intros E; apply (Hs x); try exact Hr; rewrite E; set_solver.
Qed.

Lemma inv0_counts s bs la lu :
  inv0 s bs la lu ->
  40 * (Z.of_nat (length la) + Z.of_nat (length lu)) <= heap_bytes (el_ctl s) /\
  sum_bytes (h_size (memory s)) la + sum_bytes (h_size (memory s)) lu
  = heap_bytes (el_ctl s) /\
  0 <= sum_bytes (h_size (memory s)) la /\ 0 <= sum_bytes (h_size (memory s)) lu /\
  heap_bytes (el_ctl s) < SIZE_MAX_P1.
Proof.
  intros H. pose proof (inv_tiles _ _ _ _ H) as Ht.
  pose proof (tiles_le _ _ _ _ _ Ht) as Hle.
  pose proof (tiles_sum _ _ _ _ _ Ht) as Hsum.
  pose proof (inv_perm _ _ _ _ H) as Hp.
  rewrite <- (sum_bytes_perm _ _ _ Hp), sum_bytes_app in Hsum.
  rewrite <- (Permutation_length Hp), length_app in Hle.
  pose proof (inv_end _ _ _ _ H). pose proof (inv_start _ _ _ _ H).
  pose proof (inv_top _ _ _ _ H).
  assert (forall x, x ∈ la ++ lu -> 0 <= rd (h_size (memory s)) x) as Hnn.
  { intros x Hx. rewrite Hp in Hx. apply (tiles_bounds _ _ _ _ _ _ Ht Hx). }
  split; [lia|]. split; [lia|]. split; [|split].
  - apply sum_bytes_nonneg. intros x Hx. apply Hnn. set_solver.
  - apply sum_bytes_nonneg. intros x Hx. apply Hnn. set_solver.
  - consts; lia.
Qed.

(** ** The shape of the heap between steps *)

Lemma inv0_shape s bs la lu :
  inv0 s bs la lu <->
  shape s bs (members la lu) [] /\
  Forall (fun b => state_of s b = EL_AVAILABLE) la /\
  Forall (fun b => state_of s b = EL_USED) lu.
Proof.
  split.
  - intros H. split; [|split; apply H].
    constructor; try apply H.
    + simpl. rewrite app_nil_r. apply H.
    + intros []; apply H.
    + intros []; apply H.
  - intros (H & Ha & Hu). constructor; try apply H; try assumption.
    + pose proof (sh_perm _ _ _ _ H) as Hp. simpl in Hp. rewrite app_nil_r in Hp. exact Hp.
    + exact (sh_len _ _ _ _ H Avail).
    + exact (sh_bytes _ _ _ _ H Avail).
    + exact (sh_len _ _ _ _ H Used).
    + exact (sh_bytes _ _ _ _ H Used).
Qed.

Lemma shape_in_bs s bs L out x :
  shape s bs L out -> (x ∈ L Avail \/ x ∈ L Used \/ x ∈ out) <-> x ∈ bs.
Proof.
  intros H. rewrite <- (sh_perm _ _ _ _ H). rewrite !elem_of_app. reflexivity.
Qed.

Lemma shape_NoDup s bs L out :
  shape s bs L out -> NoDup (L Avail ++ L Used ++ out).
Proof.
  intros H. rewrite (sh_perm _ _ _ _ H). exact (tiles_NoDup _ _ _ _ _ (sh_tiles _ _ _ _ H)).
Qed.

Lemma shape_block_bounds s bs L out x :
  shape s bs L out -> x ∈ bs ->
  heap_start (el_ctl s) <= x /\ 0 <= size_of s x /\
  x + size_of s x + EL_BLOCK_OVERHEAD <= heap_end (el_ctl s).
Proof. intros H Hx. exact (tiles_bounds _ _ _ _ _ _ (sh_tiles _ _ _ _ H) Hx). Qed.

Lemma shape_counts s bs L out :
  shape s bs L out ->
  40 * (Z.of_nat (length (L Avail)) + Z.of_nat (length (L Used))
        + Z.of_nat (length out)) <= heap_bytes (el_ctl s) /\
  sum_bytes (h_size (memory s)) (L Avail) + sum_bytes (h_size (memory s)) (L Used)
  + sum_bytes (h_size (memory s)) out = heap_bytes (el_ctl s) /\
  0 <= sum_bytes (h_size (memory s)) (L Avail) /\
  0 <= sum_bytes (h_size (memory s)) (L Used) /\
  0 <= sum_bytes (h_size (memory s)) out /\
  heap_bytes (el_ctl s) < SIZE_MAX_P1.
Proof.
  intros H. pose proof (sh_tiles _ _ _ _ H) as Ht.
  pose proof (tiles_le _ _ _ _ _ Ht) as Hle.
  pose proof (tiles_sum _ _ _ _ _ Ht) as Hsum.
  pose proof (sh_perm _ _ _ _ H) as Hp.
  rewrite <- (sum_bytes_perm _ _ _ Hp), !sum_bytes_app in Hsum.
  rewrite <- (Permutation_length Hp), !length_app in Hle.
  pose proof (sh_end _ _ _ _ H). pose proof (sh_start _ _ _ _ H).
  pose proof (sh_top _ _ _ _ H).
  assert (forall x, x ∈ L Avail ++ L Used ++ out -> 0 <= rd (h_size (memory s)) x) as Hnn.
  { intros x Hx. rewrite Hp in Hx. apply (tiles_bounds _ _ _ _ _ _ Ht Hx). }
  split; [lia|]. split; [lia|].
  split; [apply sum_bytes_nonneg; intros x Hx; apply Hnn; set_solver|].
  split; [apply sum_bytes_nonneg; intros x Hx; apply Hnn; set_solver|].
  split; [apply sum_bytes_nonneg; intros x Hx; apply Hnn; set_solver|].
  consts; lia.
Qed.

Lemma shape_sentinels s bs L out x l :
  shape s bs L out -> x ∈ bs ->
  x <> bl_beg (get_list l (el_ctl s)) /\ x <> bl_end (get_list l (el_ctl s)).
Proof.
  intros H Hx. pose proof (sh_sent _ _ _ _ H) as Hs.
  rewrite Forall_forall in Hs. unfold sentinel_ok in Hs.
  pose proof (tiles_lt _ _ _ _ _ _ (sh_tiles _ _ _ _ H) Hx) as Hr.
  destruct l; simpl; split; intros E; apply (Hs x); try exact Hr; rewrite E; set_solver.
Qed.

Lemma perm_move_out (b : Z) la lu out :
  la ++ lu ++ b :: out ≡ₚ (b :: la) ++ lu ++ out.
Proof.
  rewrite !app_assoc. rewrite <- Permutation_middle. simpl. reflexivity.
Qed.

Lemma perm_move_out_u (b : Z) la lu out :
  la ++ lu ++ b :: out ≡ₚ la ++ (b :: lu) ++ out.
Proof.
  simpl. rewrite <- !Permutation_middle. reflexivity.
Qed.

Lemma remove_shape s bs L out l b :
  shape s bs L out -> b ∈ L l ->
  (forall B (k : unit -> M B), bind (el_remove_block l b) k s = k tt (remove_st l b s)) /\
  shape (remove_st l b s) bs (set_members l (without b (L l)) L) (b :: out).
Proof.
  intros H Hb.
  assert (Hbs : b ∈ bs) by (apply (shape_in_bs _ _ _ _ _ H); destruct l; auto).
  pose proof (shape_block_bounds _ _ _ _ _ H Hbs) as (Hb1 & Hb2 & Hb3).
  pose proof (shape_counts _ _ _ _ H) as (Hc1 & Hc2 & Hc3 & Hc4 & Hc5 & Hc6).
  pose proof (sh_len _ _ _ _ H l) as Hlen.
  pose proof (sh_bytes _ _ _ _ H l) as Hbytes.
  pose proof (length_without b (L l) Hb) as Hlw.
  pose proof (sum_bytes_without (h_size (memory s)) b (L l) Hb) as Hsw.
  pose proof (sh_end _ _ _ _ H) as He. pose proof (sh_start _ _ _ _ H) as Hs.
  pose proof (sh_top _ _ _ _ H) as Ht.
  assert (Hlists : rd (h_prev (memory s)) b <> NULL /\ rd (h_next (memory s)) b <> NULL /\
            b <> NULL /\ rd (h_prev (memory s)) b <> b /\
            lists_ok (bl_beg (avail (el_ctl s))) (bl_end (avail (el_ctl s)))
              (bl_beg (used (el_ctl s))) (bl_end (used (el_ctl s)))
              (<[rd (h_prev (memory s)) b := rd (h_next (memory s)) b]> (h_next (memory s)))
              (<[rd (h_next (memory s)) b := rd (h_prev (memory s)) b]> (h_prev (memory s)))
              (set_members l (without b (L l)) L Avail)
              (set_members l (without b (L l)) L Used)).
  { pose proof (sh_lists _ _ _ _ H) as HL. destruct l; simpl.
    - destruct (lists_remove _ _ _ _ _ _ _ _ _ HL Hb) as (A1 & A2 & A3 & A4 & A5). auto.
    - apply lists_ok_swap in HL.
      destruct (lists_remove _ _ _ _ _ _ _ _ _ HL Hb) as (A1 & A2 & A3 & A4 & A5).
      apply lists_ok_swap in A5. auto. }
  destruct Hlists as (A1 & A2 & A3 & A4 & A5).
  assert (Hsum_l : 0 <= sum_bytes (h_size (memory s)) (L l) <= heap_bytes (el_ctl s))
    by (destruct l; lia).
  assert (Hlen_l : 40 * Z.of_nat (length (L l)) <= heap_bytes (el_ctl s))
    by (destruct l; lia).
  assert (Hsw0 : 0 <= sum_bytes (h_size (memory s)) (without b (L l))).
  { apply sum_bytes_nonneg. intros x Hx. apply without_subset in Hx.
    apply (shape_block_bounds _ _ _ _ _ H). apply (shape_in_bs _ _ _ _ _ H).
    destruct l; auto. }
  assert (Hlw0 : 0 <= Z.of_nat (length (without b (L l)))) by lia.
  unfold size_of in *.
  split.
  - intros B k. destruct s as [c [sz st nx pv ft]]. cbn in *.
    apply el_remove_block_run; assumption.
  - destruct s as [c [sz st nx pv ft]]. unfold remove_st. cbn in *.
    constructor; cbn.
    + destruct l; exact Hs.
    + destruct l; exact He.
    + destruct l; exact Ht.
    + destruct l; apply (sh_tiles _ _ _ _ H).
    + destruct l; exact A5.
    + rewrite <- (sh_perm _ _ _ _ H). destruct l; cbn.
      * rewrite (without_perm b (L Avail) Hb) at 2. apply perm_move_out.
      * rewrite (without_perm b (L Used) Hb) at 2. apply perm_move_out_u.
    + destruct l; apply (sh_sent _ _ _ _ H).
    + intros l'. destruct l, l'; cbn in *;
        try apply (sh_len _ _ _ _ H Avail); try apply (sh_len _ _ _ _ H Used);
        rewrite Hlen, wrap_small by (consts; lia); lia.
    + intros l'. destruct l, l'; cbn in *;
        try apply (sh_bytes _ _ _ _ H Avail); try apply (sh_bytes _ _ _ _ H Used);
        rewrite Hbytes, (wrap_small (EL_BLOCK_OVERHEAD + _)) by (consts; lia);
        rewrite wrap_small by (consts; lia); lia.
Qed.

Lemma add_shape s bs L out l b :
  shape s bs L out -> b ∈ out ->
  (forall B (k : unit -> M B), bind (el_add_block_front l b) k s = k tt (add_st l b s)) /\
  shape (add_st l b s) bs (set_members l (b :: L l) L) (without b out).
Proof.
  intros H Hb.
  assert (Hbs : b ∈ bs) by (apply (shape_in_bs _ _ _ _ _ H); auto).
  pose proof (shape_block_bounds _ _ _ _ _ H Hbs) as (Hb1 & Hb2 & Hb3).
  pose proof (shape_counts _ _ _ _ H) as (Hc1 & Hc2 & Hc3 & Hc4 & Hc5 & Hc6).
  pose proof (sh_len _ _ _ _ H l) as Hlen.
  pose proof (sh_bytes _ _ _ _ H l) as Hbytes.
  pose proof (length_without b out Hb) as Hlw.
  pose proof (sum_bytes_without (h_size (memory s)) b out Hb) as Hsw.
  pose proof (sh_end _ _ _ _ H) as He. pose proof (sh_start _ _ _ _ H) as Hs.
  pose proof (sh_top _ _ _ _ H) as Ht.
  pose proof (shape_NoDup _ _ _ _ H) as Hnd.
  assert (Hb0 : b <> NULL) by (consts; lia).
  assert (Hnotin : b ∉ L Avail /\ b ∉ L Used).
  { apply NoDup_app in Hnd as (_ & N1 & N2). apply NoDup_app in N2 as (_ & N2 & _).
    split; intros Hin; [apply (N1 b Hin) | apply (N2 b Hin)]; set_solver. }
  assert (Hnodes : b ∉ nodes (bl_beg (avail (el_ctl s))) (L Avail) (bl_end (avail (el_ctl s)))
                     ++ nodes (bl_beg (used (el_ctl s))) (L Used) (bl_end (used (el_ctl s)))).
  { pose proof (shape_sentinels _ _ _ _ b Avail H Hbs) as [S1 S2].
    pose proof (shape_sentinels _ _ _ _ b Used H Hbs) as [S3 S4].
    simpl in S1, S2, S3, S4. unfold nodes. set_solver. }
  assert (Hlists : bl_beg (get_list l (el_ctl s)) <> NULL /\
            rd (h_next (memory s)) (bl_beg (get_list l (el_ctl s))) <> NULL /\
            bl_beg (get_list l (el_ctl s)) <> b /\
            lists_ok (bl_beg (avail (el_ctl s))) (bl_end (avail (el_ctl s)))
              (bl_beg (used (el_ctl s))) (bl_end (used (el_ctl s)))
              (<[bl_beg (get_list l (el_ctl s)) := b]>
                 (<[b := rd (h_next (memory s)) (bl_beg (get_list l (el_ctl s)))]>
                    (h_next (memory s))))
              (<[rd (h_next (memory s)) (bl_beg (get_list l (el_ctl s))) := b]>
                 (<[b := bl_beg (get_list l (el_ctl s))]> (h_prev (memory s))))
              (set_members l (b :: L l) L Avail)
              (set_members l (b :: L l) L Used)).
  { pose proof (sh_lists _ _ _ _ H) as HL. destruct l; simpl.
    - destruct (lists_add _ _ _ _ _ _ _ _ _ HL Hb0 Hnodes) as (A1 & A2 & A3 & A4). auto.
    - apply lists_ok_swap in HL.
      assert (Hnodes' : b ∉ nodes (bl_beg (used (el_ctl s))) (L Used) (bl_end (used (el_ctl s)))
                          ++ nodes (bl_beg (avail (el_ctl s))) (L Avail)
                               (bl_end (avail (el_ctl s)))) by set_solver.
      destruct (lists_add _ _ _ _ _ _ _ _ _ HL Hb0 Hnodes') as (A1 & A2 & A3 & A4).
      apply lists_ok_swap in A4. auto. }
  destruct Hlists as (A1 & A2 & A3 & A4).
  assert (Hsw0 : 0 <= sum_bytes (h_size (memory s)) (without b out)).
  { apply sum_bytes_nonneg. intros x Hx. apply without_subset in Hx.
    apply (shape_block_bounds _ _ _ _ _ H). apply (shape_in_bs _ _ _ _ _ H). auto. }
  assert (Hlw0 : 0 <= Z.of_nat (length (without b out))) by lia.
  assert (Hsum_l : 0 <= sum_bytes (h_size (memory s)) (L l) /\
            sum_bytes (h_size (memory s)) (L l) + sum_bytes (h_size (memory s)) out
            <= heap_bytes (el_ctl s)) by (destruct l; lia).
  assert (Hlen_l : 40 * (Z.of_nat (length (L l)) + Z.of_nat (length out))
                   <= heap_bytes (el_ctl s)) by (destruct l; lia).
  unfold size_of in *.
  split.
  - intros B k. destruct s as [c [sz st nx pv ft]]. cbn in *.
    apply el_add_block_front_run; assumption.
  - destruct s as [c [sz st nx pv ft]]. unfold add_st. cbn in *.
    constructor; cbn.
    + destruct l; exact Hs.
    + destruct l; exact He.
    + destruct l; exact Ht.
    + destruct l; apply (sh_tiles _ _ _ _ H).
    + destruct l; exact A4.
    + rewrite <- (sh_perm _ _ _ _ H). destruct l; cbn.
      * rewrite (without_perm b out Hb) at 2. symmetry. apply (perm_move_out b).
      * rewrite (without_perm b out Hb) at 2. symmetry. apply (perm_move_out_u b).
    + destruct l; apply (sh_sent _ _ _ _ H).
    + intros l'. destruct l, l'; cbn in *;
        try apply (sh_len _ _ _ _ H Avail); try apply (sh_len _ _ _ _ H Used);
        rewrite Hlen, wrap_small by (consts; lia); lia.
    + intros l'. destruct l, l'; cbn in *;
        try apply (sh_bytes _ _ _ _ H Avail); try apply (sh_bytes _ _ _ _ H Used);
        rewrite Hbytes, (wrap_small (EL_BLOCK_OVERHEAD + _)) by (consts; lia);
        rewrite wrap_small by (consts; lia); lia.
Qed.

Lemma set_state_shape s bs L out b v :
  shape s bs L out -> shape (set_state_st b v s) bs L out.
Proof. intros H. constructor; cbn; apply H. Qed.

Lemma shape_out_notin s bs L out b l :
  shape s bs L out -> b ∈ out -> b ∉ L l.
Proof.
  intros H Hb Hin. pose proof (shape_NoDup _ _ _ _ H) as Hnd.
  apply NoDup_app in Hnd as (_ & N1 & N2). apply NoDup_app in N2 as (_ & N2 & _).
  destruct l; [apply (N1 b Hin) | apply (N2 b Hin)]; set_solver.
Qed.

Lemma split_shape s bs1 bs2 L out b n :
  shape s (bs1 ++ b :: bs2) L out -> b ∈ out ->
  0 <= n -> n + EL_BLOCK_OVERHEAD <= size_of s b ->
  (forall B (k : Z -> M B),
      bind (el_split_block b n) k s = k (b + n + EL_BLOCK_OVERHEAD) (split_st b n s)) /\
  shape (split_st b n s) (bs1 ++ b :: (b + n + EL_BLOCK_OVERHEAD) :: bs2) L
        ((b + n + EL_BLOCK_OVERHEAD) :: out).
Proof.
  intros H Hb Hn HS.
  assert (Hbs : b ∈ bs1 ++ b :: bs2) by set_solver.
  pose proof (shape_block_bounds _ _ _ _ _ H Hbs) as (Hb1 & Hb2 & Hb3).
  pose proof (sh_end _ _ _ _ H) as He. pose proof (sh_start _ _ _ _ H) as Hs.
  pose proof (sh_top _ _ _ _ H) as Ht.
  pose proof (sh_tiles _ _ _ _ H) as Htl.
  assert (Hb2in : b + n + EL_BLOCK_OVERHEAD ∉ bs1 ++ b :: bs2).
  { apply (tiles_inside_notin _ _ _ _ _ b _ Htl Hbs). unfold size_of in *. consts. lia. }
  unfold size_of in *.
  split.
  - intros B k. destruct s as [c [sz st nx pv ft]]. cbn in *.
    apply el_split_block_run; consts; lia.
  - unfold split_st. constructor; cbn; try apply H.
    + apply tiles_split; assumption.
    + transitivity ((b + n + EL_BLOCK_OVERHEAD) :: (L Avail ++ L Used ++ out));
        [solve_Permutation|].
      rewrite (sh_perm _ _ _ _ H). solve_Permutation.
    + intros l. rewrite (sh_bytes _ _ _ _ H l). symmetry. apply sum_bytes_ext.
      intros x Hx. rewrite !rd_insert_ne; [reflexivity | |].
      * intros E. subst x. exact (shape_out_notin _ _ _ _ _ l H Hb Hx).
      * intros E. subst x. apply Hb2in. apply (shape_in_bs _ _ _ _ _ H). destruct l; auto.
Qed.

Lemma join_shape s bs1 bs2 L out b b' :
  shape s (bs1 ++ b :: b' :: bs2) L out -> b ∈ out -> b' ∈ out ->
  shape (join_st b b' (size_of s b + size_of s b' + EL_BLOCK_OVERHEAD) s)
        (bs1 ++ b :: bs2) L (without b' out).
Proof.
  intros H Hb Hb'. unfold join_st, size_of. constructor; cbn; try apply H.
  - apply tiles_merge. apply H.
  - apply (Permutation_cons_inv (a := b')).
    transitivity (L Avail ++ L Used ++ b' :: without b' out); [solve_Permutation|].
    rewrite <- (without_perm b' out Hb'). rewrite (sh_perm _ _ _ _ H). solve_Permutation.
  - intros l. rewrite (sh_bytes _ _ _ _ H l). symmetry. apply sum_bytes_ext.
    intros x Hx. rewrite rd_insert_ne; [reflexivity|].
    intros E. subst x. exact (shape_out_notin _ _ _ _ _ l H Hb Hx).
Qed.

Lemma shape_members s bs L out :
  shape s bs L out <-> shape s bs (members (L Avail) (L Used)) out.
Proof.
  split; intros H; constructor; try apply H.
  - intros []; apply H.
  - intros []; apply H.
  - intros []; apply (sh_len _ _ _ _ H).
  - intros []; apply (sh_bytes _ _ _ _ H).
Qed.

(** ** Allocation on a well-formed heap *)

Lemma el_malloc_found_run s bs1 bs2 la lu b n :
  shape s (bs1 ++ b :: bs2) (members la lu) [] -> b ∈ la ->
  0 <= n -> n + EL_BLOCK_OVERHEAD <= size_of s b ->
  el_malloc_found b n s = Some (b + sizeof_blockhead, malloc_st b n s) /\
  shape (malloc_st b n s) (bs1 ++ b :: (b + n + EL_BLOCK_OVERHEAD) :: bs2)
        (members ((b + n + EL_BLOCK_OVERHEAD) :: without b la) (b :: lu)) [].
Proof.
  intros H0 Hb Hn HS.
  assert (Hbs : b ∈ bs1 ++ b :: bs2) by set_solver.
  pose proof (shape_block_bounds _ _ _ _ _ H0 Hbs) as (Hb1 & Hb2 & Hb3).
  pose proof (sh_start _ _ _ _ H0) as Hs. pose proof (sh_top _ _ _ _ H0) as Ht.
  destruct (remove_shape _ _ _ _ Avail b H0 Hb) as [R1 H1].
  assert (HS1 : n + EL_BLOCK_OVERHEAD <= size_of (remove_st Avail b s) b) by exact HS.
  destruct (split_shape _ _ _ _ _ b n H1 ltac:(set_solver) Hn HS1) as [R2 H2].
  set (b2 := b + n + EL_BLOCK_OVERHEAD) in *.
  assert (Hne : b2 <> b) by (subst b2; consts; lia).
  destruct (add_shape _ _ _ _ Used b H2 ltac:(set_solver)) as [R3 H3].
  apply (set_state_shape _ _ _ _ b EL_USED) in H3.
  assert (E3 : without b [b2; b] = [b2]).
  { simpl. destruct (Z.eqb_spec b2 b); [contradiction|]. rewrite Z.eqb_refl. reflexivity. }
  rewrite E3 in H3.
  destruct (add_shape _ _ _ _ Avail b2 H3 ltac:(set_solver)) as [R4 H4].
  apply (set_state_shape _ _ _ _ b2 EL_AVAILABLE) in H4.
  assert (E4 : without b2 [b2] = []) by (simpl; rewrite Z.eqb_refl; reflexivity).
  rewrite E4 in H4.
  split.
  - unfold el_malloc_found. rewrite R1, R2. fold b2. rewrite R3.
    assert (N1 : b <> NULL) by (consts; lia).
    assert (N2 : b2 <> NULL) by (subst b2; consts; lia).
    unfold bind at 1. unfold store_state at 1.
    destruct (Z.eqb_spec b NULL) as [|_]; [contradiction|].
    change (State (el_ctl ?s) (Mem (h_size (memory ?s)) (<[b := EL_USED]> (h_state (memory ?s)))
              (h_next (memory ?s)) (h_prev (memory ?s)) (f_size (memory ?s))))
      with (set_state_st b EL_USED s).
    match goal with |- context [add_st Used b ?s0] =>
      change (State (el_ctl (add_st Used b s0))
                (Mem (h_size (memory (add_st Used b s0)))
                     (<[b := EL_USED]> (h_state (memory (add_st Used b s0))))
                     (h_next (memory (add_st Used b s0)))
                     (h_prev (memory (add_st Used b s0)))
                     (f_size (memory (add_st Used b s0)))))
        with (set_state_st b EL_USED (add_st Used b s0)) end.
    rewrite R4.
    unfold bind at 1. unfold store_state at 1.
    destruct (Z.eqb_spec b2 NULL) as [|_]; [contradiction|].
    unfold ret, PTR_PLUS_BYTES. rewrite wrap_small by (consts; lia). reflexivity.
  - apply shape_members in H4. exact H4.
Qed.

Lemma malloc_st_state b n s :
  h_state (memory (malloc_st b n s))
  = <[b + n + EL_BLOCK_OVERHEAD := EL_AVAILABLE]> (<[b := EL_USED]> (h_state (memory s))).
Proof. reflexivity. Qed.

Lemma malloc_st_size b n s :
  h_size (memory (malloc_st b n s))
  = <[b + n + EL_BLOCK_OVERHEAD := size_of s b - n - EL_BLOCK_OVERHEAD]>
      (<[b := n]> (h_size (memory s))).
Proof. reflexivity. Qed.

Lemma is_available_true st x : is_available st x = true <-> rd st x = EL_AVAILABLE.
Proof. unfold is_available. apply Z.eqb_eq. Qed.

Lemma is_available_used st x : rd st x = EL_USED -> is_available st x = false.
Proof. unfold is_available. intros ->. reflexivity. Qed.

Lemma el_malloc_found_inv s bs la lu b n :
  inv s bs la lu -> b ∈ la -> 0 <= n -> n + EL_BLOCK_OVERHEAD <= size_of s b ->
  exists bs1 bs2, bs = bs1 ++ b :: bs2 /\
    el_malloc_found b n s = Some (b + sizeof_blockhead, malloc_st b n s) /\
    inv (malloc_st b n s) (bs1 ++ b :: (b + n + EL_BLOCK_OVERHEAD) :: bs2)
        ((b + n + EL_BLOCK_OVERHEAD) :: without b la) (b :: lu).
Proof.
  intros [H Hco] Hb Hn HS.
  assert (Hbs : b ∈ bs) by (apply (inv0_in_bs _ _ _ _ _ H); auto).
  destruct (list_elem_of_split _ _ Hbs) as (bs1 & bs2 & ->).
  exists bs1, bs2. split; [reflexivity|].
  pose proof H as H'. apply inv0_shape in H' as (Hsh & Hsa & Hsu).
  destruct (el_malloc_found_run _ _ _ _ _ _ _ Hsh Hb Hn HS) as [R Hsh'].
  split; [exact R|].
  set (b2 := b + n + EL_BLOCK_OVERHEAD) in *.
  pose proof (inv0_block_bounds _ _ _ _ _ H Hbs) as (Hb1 & Hb2 & Hb3).
  assert (Hb2out : b2 ∉ bs1 ++ b :: bs2).
  { apply (tiles_inside_notin _ _ _ _ _ b _ (inv_tiles _ _ _ _ H) Hbs).
    unfold size_of in *. subst b2. consts. lia. }
  assert (Hne : b2 <> b) by (subst b2; consts; lia).
  destruct (inv0_NoDup _ _ _ _ H) as (Nda & Ndu & Ndis).
  rewrite Forall_forall in Hsa, Hsu.
  assert (Hstate : forall x, x ∈ bs1 ++ b :: bs2 -> x <> b ->
            rd (h_state (memory (malloc_st b n s))) x = rd (h_state (memory s)) x).
  { intros x Hx Hxb. rewrite malloc_st_state. fold b2.
    rewrite !rd_insert_ne; [reflexivity | congruence |].
    intros E. subst x. contradiction. }
  split.
  - apply inv0_shape. split; [exact Hsh'|]. unfold state_of. split.
    + apply Forall_cons. split.
      * rewrite malloc_st_state. apply rd_insert_eq.
      * apply Forall_forall. intros x Hx.
        assert (x <> b) by (intros ->; exact (without_notin b la Nda Hx)).
        apply without_subset in Hx.
        rewrite Hstate; [apply Hsa; exact Hx | | assumption].
        apply (inv0_in_bs _ _ _ _ _ H). auto.
    + apply Forall_cons. split.
      * rewrite malloc_st_state. fold b2. rewrite rd_insert_ne by exact Hne.
        apply rd_insert_eq.
      * apply Forall_forall. intros x Hx.
        assert (x <> b) by (intros ->; exact (Ndis b Hb Hx)).
        rewrite Hstate; [apply Hsu; exact Hx | | assumption].
        apply (inv0_in_bs _ _ _ _ _ H). auto.
  - assert (Hav : is_available (h_state (memory s)) b = true).
    { apply is_available_true. apply Hsa. exact Hb. }
    assert (Hb_used : is_available (h_state (memory (malloc_st b n s))) b = false).
    { apply is_available_used. rewrite malloc_st_state. fold b2.
      rewrite rd_insert_ne by exact Hne. apply rd_insert_eq. }
    rewrite coal_app in Hco. apply andb_true_iff in Hco as [Hco1 Hco2].
    rewrite coal_app. apply andb_true_iff. split.
    + apply coal_snoc_unavail; [exact Hb_used|].
      apply coal_snoc_init in Hco1. rewrite <- Hco1. apply coal_ext.
      intros x Hx. apply Hstate; [set_solver|].
      intros ->. pose proof (tiles_NoDup _ _ _ _ _ (inv_tiles _ _ _ _ H)) as Nd.
      apply NoDup_split_notin in Nd as [Nd _]. contradiction.
    + rewrite coal_cons_unavail by exact Hb_used.
      assert (Hbs2 : forall x, x ∈ bs2 ->
                rd (h_state (memory (malloc_st b n s))) x = rd (h_state (memory s)) x).
      { intros x Hx. apply Hstate; [set_solver|].
        intros ->. pose proof (tiles_NoDup _ _ _ _ _ (inv_tiles _ _ _ _ H)) as Nd.
        apply NoDup_split_notin in Nd as [_ Nd]. contradiction. }
      destruct bs2 as [|y bs2]; [reflexivity|].
      rewrite coal_cons2. apply andb_true_iff. split.
      * pose proof (coal_next_unavail _ _ _ _ Hco2 Hav) as Hy.
        unfold is_available at 2. rewrite Hbs2 by set_solver.
        fold (is_available (h_state (memory s)) y). rewrite Hy, andb_false_r. reflexivity.
      * apply coal_cons_tail in Hco2. rewrite <- Hco2. apply coal_ext. exact Hbs2.
Qed.

(** ** Merging on a well-formed heap *)

Lemma store_state_run {B} p v (k : unit -> M B) s :
  p <> NULL -> bind (store_state p v) k s = k tt (set_state_st p v s).
Proof.
  intros H. unfold bind, store_state. destruct (Z.eqb_spec p NULL); [contradiction|].
  reflexivity.
Qed.

Lemma join_run {B} lower above total (k : unit -> M B) s fa :
  lower <> NULL -> fa <> NULL ->
  fa = above + sizeof_blockhead + size_of s above ->
  bind (store_size lower total) (fun _ => bind (store_foot fa total) k) s
  = k tt (join_st lower above total s).
Proof.
  intros H1 H2 ->. destruct s as [c [sz st nx pv ft]]. unfold size_of in *. cbn in *.
  rewrite bind_store_size by exact H1. rewrite bind_store_foot by exact H2. reflexivity.
Qed.

Lemma el_block_above_run {B} s bs1 bs2 L out lower (k : Z -> M B) :
  shape s (bs1 ++ lower :: bs2) L out ->
  bind (el_block_above lower) k s = k (chain_head bs2 NULL) s.
Proof.
  intros H.
  assert (Hbs : lower ∈ bs1 ++ lower :: bs2) by set_solver.
  pose proof (shape_block_bounds _ _ _ _ _ H Hbs) as (Hb1 & Hb2 & Hb3).
  pose proof (sh_start _ _ _ _ H) as Hs. pose proof (sh_top _ _ _ _ H) as Ht.
  pose proof (sh_tiles _ _ _ _ H) as Htl.
  apply tiles_app in Htl as (mid & _ & Htl). simpl in Htl.
  destruct Htl as (<- & _ & _ & Htl).
  unfold size_of in *. unfold el_block_above, PTR_PLUS_BYTES.
  rewrite bind_assoc. rewrite bind_load by (consts; lia). cbv zeta.
  rewrite bind_assoc, bind_get_ctl.
  rewrite (wrap_small (_ + EL_BLOCK_OVERHEAD)) by (consts; lia).
  rewrite wrap_small by (consts; lia).
  destruct bs2 as [|a bs2]; simpl in Htl |- *.
  - rewrite Z.add_assoc, Htl. rewrite Z.geb_leb, Z.leb_refl. apply bind_ret.
  - destruct Htl as (-> & Ha & _ & Htl). apply tiles_le in Htl.
    rewrite Z.add_assoc.
    destruct (Z.geb_spec (lower + rd (h_size (memory s)) lower + EL_BLOCK_OVERHEAD)
                (heap_end (el_ctl s))) as [Hge|_]; [consts; lia|].
    apply bind_ret.
Qed.

Lemma el_get_footer_run {B} s bs L out b (k : Z -> M B) :
  shape s bs L out -> b ∈ bs ->
  bind (el_get_footer b) k s = k (b + sizeof_blockhead + size_of s b) s.
Proof.
  intros H Hbs.
  pose proof (shape_block_bounds _ _ _ _ _ H Hbs) as (Hb1 & Hb2 & Hb3).
  pose proof (sh_start _ _ _ _ H) as Hs. pose proof (sh_top _ _ _ _ H) as Ht.
  unfold size_of in *. unfold el_get_footer, PTR_PLUS_BYTES.
  rewrite bind_assoc. rewrite bind_load by (consts; lia).
  rewrite (wrap_small (sizeof_blockhead + _)) by (consts; lia).
  rewrite wrap_small by (consts; lia). rewrite bind_ret. rewrite Z.add_assoc. reflexivity.
Qed.

Lemma merge_noop_top s bs1 L out lower :
  shape s (bs1 ++ [lower]) L out ->
  el_merge_block_with_above lower s = Some (tt, s).
Proof.
  intros H. unfold el_merge_block_with_above.
  rewrite (el_block_above_run _ _ _ _ _ _ _ H). cbn [chain_head].
  assert (Hbs : lower ∈ bs1 ++ [lower]) by set_solver.
  pose proof (shape_block_bounds _ _ _ _ _ H Hbs) as (Hb1 & _ & _).
  pose proof (sh_start _ _ _ _ H) as Hs.
  destruct (Z.eqb_spec lower NULL) as [E|N]; [consts; lia|].
  rewrite bind_load by exact N.
  destruct (negb _); reflexivity.
Qed.

Lemma merge_noop_state s bs1 bs2 L out lower above :
  shape s (bs1 ++ lower :: above :: bs2) L out ->
  state_of s lower <> EL_AVAILABLE \/ state_of s above <> EL_AVAILABLE ->
  el_merge_block_with_above lower s = Some (tt, s).
Proof.
  intros H Hst. unfold el_merge_block_with_above.
  rewrite (el_block_above_run _ _ _ _ _ _ _ H). cbn [chain_head].
  assert (Hbs : lower ∈ bs1 ++ lower :: above :: bs2) by set_solver.
  assert (Hbs' : above ∈ bs1 ++ lower :: above :: bs2) by set_solver.
  pose proof (shape_block_bounds _ _ _ _ _ H Hbs) as (Hb1 & _ & _).
  pose proof (shape_block_bounds _ _ _ _ _ H Hbs') as (Hb1' & _ & _).
  pose proof (sh_start _ _ _ _ H) as Hs.
  destruct (Z.eqb_spec lower NULL) as [E|N]; [consts; lia|].
  rewrite bind_load by exact N. unfold state_of in Hst.
  destruct (Z.eqb_spec (rd (h_state (memory s)) lower) EL_AVAILABLE) as [E1|N1];
    [|reflexivity]. cbn [negb].
  destruct (Z.eqb_spec above NULL) as [E|N']; [consts; lia|].
  rewrite bind_load by exact N'.
  destruct (Z.eqb_spec (rd (h_state (memory s)) above) EL_AVAILABLE) as [E2|N2];
    [|reflexivity].
  destruct Hst; contradiction.
Qed.

Lemma in_without (b x : Z) l : x ∈ l -> x <> b -> x ∈ without b l.
Proof.
  induction l as [|y l IH]; intros H Hne; [set_solver|]. simpl.
  destruct (Z.eqb_spec y b) as [->|Hyb]; set_solver.
Qed.

Lemma inv0_available_in s bs la lu x :
  inv0 s bs la lu -> x ∈ bs -> state_of s x = EL_AVAILABLE -> x ∈ la.
Proof.
  intros H Hx Hst. apply (inv0_in_bs _ _ _ _ _ H) in Hx as [Hx|Hx]; [exact Hx|].
  pose proof (inv_ustate _ _ _ _ H) as Hu. rewrite Forall_forall in Hu.
  rewrite (Hu x Hx) in Hst. discriminate.
Qed.

Lemma merge_run s bs1 bs2 la lu lower above :
  inv0 s (bs1 ++ lower :: above :: bs2) la lu ->
  state_of s lower = EL_AVAILABLE -> state_of s above = EL_AVAILABLE ->
  el_merge_block_with_above lower s = Some (tt, merge_st lower above s) /\
  inv0 (merge_st lower above s) (bs1 ++ lower :: bs2)
       (lower :: without lower (without above la)) lu.
Proof.
  intros H Hsl Hsa.
  assert (Hbs : lower ∈ bs1 ++ lower :: above :: bs2) by set_solver.
  assert (Hbs' : above ∈ bs1 ++ lower :: above :: bs2) by set_solver.
  pose proof (inv0_available_in _ _ _ _ _ H Hbs Hsl) as Hla.
  pose proof (inv0_available_in _ _ _ _ _ H Hbs' Hsa) as Hla'.
  pose proof (inv0_block_bounds _ _ _ _ _ H Hbs) as (Hb1 & Hb2 & Hb3).
  pose proof (inv0_block_bounds _ _ _ _ _ H Hbs') as (Hb1' & Hb2' & Hb3').
  pose proof (inv_start _ _ _ _ H) as Hs. pose proof (inv_top _ _ _ _ H) as Ht.
  assert (Habove : above = lower + size_of s lower + EL_BLOCK_OVERHEAD).
  { pose proof (inv_tiles _ _ _ _ H) as Htl.
    apply tiles_app in Htl as (mid & _ & Htl). simpl in Htl.
    destruct Htl as (<- & _ & _ & -> & _). reflexivity. }
  assert (Hne : lower <> above) by (consts; lia).
  pose proof H as H'. apply inv0_shape in H' as (Hsh & Hfa & Hfu).
  destruct (remove_shape _ _ _ _ Avail above Hsh Hla') as [R1 H1].
  cbn [members] in H1.
  destruct (remove_shape _ _ _ _ Avail lower H1) as [R2 H2].
  { cbn. apply in_without; assumption. }
  cbn [set_members list_ptr_eqb] in H2.
  pose proof (join_shape _ _ _ _ _ lower above H2 ltac:(set_solver) ltac:(set_solver)) as H3.
  assert (E3 : without above [lower; above] = [lower]).
  { simpl. destruct (Z.eqb_spec lower above); [contradiction|]. rewrite Z.eqb_refl.
    reflexivity. }
  rewrite E3 in H3.
  destruct (add_shape _ _ _ _ Avail lower H3 ltac:(set_solver)) as [R4 H4].
  assert (E4 : without lower [lower] = []) by (simpl; rewrite Z.eqb_refl; reflexivity).
  rewrite E4 in H4. cbn [set_members list_ptr_eqb] in H4.
  split.
  - unfold el_merge_block_with_above.
    rewrite (el_block_above_run _ _ _ _ _ _ _ Hsh). cbn [chain_head].
    destruct (Z.eqb_spec lower NULL) as [E|N]; [consts; lia|].
    rewrite bind_load by exact N. unfold state_of in Hsl, Hsa. rewrite Hsl.
    cbn [Z.eqb Pos.eqb EL_AVAILABLE negb].
    destruct (Z.eqb_spec above NULL) as [E|N']; [consts; lia|].
    rewrite bind_load by exact N'. rewrite Hsa.
    cbn [Z.eqb Pos.eqb EL_AVAILABLE negb].
    rewrite bind_load by exact N. rewrite bind_load by exact N'.
    rewrite (el_get_footer_run _ _ _ _ _ _ Hsh Hbs').
    rewrite R1, R2. unfold size_of in *.
    rewrite (wrap_small (rd _ lower + rd _ above)) by (consts; lia).
    rewrite wrap_small by (consts; lia).
    assert (Nfa : above + sizeof_blockhead + rd (h_size (memory s)) above <> NULL)
      by (consts; lia).
    rewrite (join_run lower above _ _
               (remove_st Avail lower (remove_st Avail above s)) _ N Nfa eq_refl).
    rewrite <- bind_ret_r. rewrite R4. reflexivity.
  - apply inv0_shape. split; [|split].
    + apply shape_members in H4. exact H4.
    + rewrite Forall_forall in Hfa. apply Forall_forall. intros x Hx.
      unfold state_of. cbn. apply Hfa.
      apply elem_of_cons in Hx as [->|Hx]; [exact Hla|].
      apply without_subset in Hx. apply without_subset in Hx. exact Hx.
    + exact Hfu.
Qed.

Lemma merge_spec s bs1 bs2 la lu lower :
  inv0 s (bs1 ++ lower :: bs2) la lu ->
  exists s' la',
    el_merge_block_with_above lower s = Some (tt, s') /\
    h_state (memory s') = h_state (memory s) /\
    used (el_ctl s') = used (el_ctl s) /\
    heap_bytes (el_ctl s') = heap_bytes (el_ctl s) /\
    inv0 s' (bs1 ++ lower :: merge_tail (h_state (memory s)) lower bs2) la' lu.
Proof.
  intros H. pose proof H as H'. apply inv0_shape in H' as (Hsh & _ & _).
  destruct bs2 as [|above bs2].
  - exists s, la. split; [exact (merge_noop_top _ _ _ _ _ Hsh)|]. auto.
  - cbn [merge_tail].
    destruct (is_available (h_state (memory s)) lower) eqn:El;
      [destruct (is_available (h_state (memory s)) above) eqn:Ea|]; cbn [andb].
    + apply is_available_true in El, Ea.
      destruct (merge_run _ _ _ _ _ _ _ H El Ea) as [R Hi].
      exists (merge_st lower above s), (lower :: without lower (without above la)).
      split; [exact R|]. split; [reflexivity|]. split; [reflexivity|].
      split; [reflexivity | exact Hi].
    + exists s, la. split; [|auto].
      apply (merge_noop_state _ _ _ _ _ _ _ Hsh). right.
      intros E. apply is_available_true in E. congruence.
    + exists s, la. split; [|auto].
      apply (merge_noop_state _ _ _ _ _ _ _ Hsh). left.
      intros E. apply is_available_true in E. congruence.
Qed.

(** ** De-allocation on a well-formed heap *)

Lemma el_block_below_run {B} s bs1 bs2 L out b (k : Z -> M B) :
  shape s (bs1 ++ b :: bs2) L out ->
  bind (el_block_below b) k s = k (default NULL (last bs1)) s.
Proof.
  intros H.
  assert (Hbs : b ∈ bs1 ++ b :: bs2) by set_solver.
  pose proof (shape_block_bounds _ _ _ _ _ H Hbs) as (Hb1 & Hb2 & Hb3).
  pose proof (sh_start _ _ _ _ H) as Hs. pose proof (sh_top _ _ _ _ H) as Ht.
  pose proof (sh_tiles _ _ _ _ H) as Htl.
  unfold el_block_below, PTR_MINUS_BYTES.
  rewrite bind_assoc, bind_get_ctl.
  rewrite (wrap_small (b - sizeof_blockfoot)) by (consts; lia).
  destruct bs1 as [|c bs0 _] using rev_ind.
  - simpl in Htl. destruct Htl as (-> & _).
    destruct (Z.ltb_spec (heap_start (el_ctl s) - sizeof_blockfoot) (heap_start (el_ctl s)))
      as [_|Hge]; [|consts; lia].
    apply bind_ret.
  - rewrite last_snoc. cbn [default from_option id].
    rewrite <- app_assoc in Htl, Hbs. simpl in Htl.
    assert (Hc : c ∈ (bs0 ++ [c]) ++ b :: bs2) by set_solver.
    pose proof (shape_block_bounds _ _ _ _ _ H Hc) as (Hc1 & Hc2 & Hc3).
    apply tiles_app in Htl as (mid & _ & Htl). simpl in Htl.
    destruct Htl as (<- & _ & Hfoot & Hb & _). unfold size_of in *.
    destruct (Z.ltb_spec (b - sizeof_blockfoot) (heap_start (el_ctl s)))
      as [Hlt|_]; [consts; lia|].
    unfold el_get_header, PTR_MINUS_BYTES.
    rewrite !bind_assoc. rewrite bind_load by (consts; lia).
    replace (b - sizeof_blockfoot) with (c + sizeof_blockhead + rd (h_size (memory s)) c)
      by (consts; lia).
    rewrite Hfoot.
    rewrite (wrap_small (rd _ c + sizeof_blockhead)) by (consts; lia).
    rewrite wrap_small by (consts; lia).
    rewrite !bind_ret. f_equal. lia.
Qed.

Lemma el_free_step s bs1 bs2 la lu b :
  inv0 s (bs1 ++ b :: bs2) la lu -> b ∈ lu ->
  inv0 (release_st b s) (bs1 ++ b :: bs2) (b :: la) (without b lu) /\
  el_free (b + sizeof_blockhead) s
  = bind (el_merge_block_with_above b)
      (fun _ => if negb (default NULL (last bs1) =? NULL)
                then el_merge_block_with_above (default NULL (last bs1))
                else ret tt) (release_st b s).
Proof.
  intros H Hb.
  assert (Hbs : b ∈ bs1 ++ b :: bs2) by set_solver.
  pose proof (inv0_block_bounds _ _ _ _ _ H Hbs) as (Hb1 & Hb2 & Hb3).
  pose proof (inv_start _ _ _ _ H) as Hs. pose proof (inv_top _ _ _ _ H) as Ht.
  pose proof H as H'. apply inv0_shape in H' as (Hsh & Hfa & Hfu).
  rewrite Forall_forall in Hfa, Hfu.
  destruct (inv0_NoDup _ _ _ _ H) as (Nda & Ndu & Ndis).
  destruct (remove_shape _ _ _ _ Used b Hsh Hb) as [R1 H1].
  apply (set_state_shape _ _ _ _ b EL_AVAILABLE) in H1.
  destruct (add_shape _ _ _ _ Avail b H1 ltac:(set_solver)) as [R3 H3].
  assert (E : without b [b] = []) by (simpl; rewrite Z.eqb_refl; reflexivity).
  rewrite E in H3. apply shape_members in H3. cbn in H3.
  assert (N : b <> NULL) by (consts; lia).
  split.
  - apply inv0_shape. split; [exact H3|]. unfold state_of, release_st. cbn. split.
    + apply Forall_cons. split; [apply rd_insert_eq|].
      apply Forall_forall. intros x Hx.
      rewrite rd_insert_ne; [apply Hfa; exact Hx|].
      intros ->. exact (Ndis _ Hx Hb).
    + apply Forall_forall. intros x Hx.
      assert (x <> b) by (intros ->; exact (without_notin b lu Ndu Hx)).
      apply without_subset in Hx.
      rewrite rd_insert_ne by congruence. apply Hfu. exact Hx.
  - unfold el_free, PTR_MINUS_BYTES.
    replace (b + sizeof_blockhead - sizeof_blockhead) with b by lia.
    rewrite wrap_small by (consts; lia).
    rewrite bind_load by exact N. unfold state_of in Hfu. rewrite (Hfu b Hb).
    cbn [Z.eqb Pos.eqb EL_USED EL_AVAILABLE].
    rewrite (el_block_below_run _ _ _ _ _ _ _ Hsh).
    rewrite R1. rewrite (store_state_run b) by exact N. rewrite R3. reflexivity.
Qed.

Lemma el_free_inv0 s bs1 bs2 la lu b :
  inv0 s (bs1 ++ b :: bs2) la lu -> b ∈ lu ->
  exists s' la',
    el_free (b + sizeof_blockhead) s = Some (tt, s') /\
    h_state (memory s') = <[b := EL_AVAILABLE]> (h_state (memory s)) /\
    used (el_ctl s') = bl_shrink (used (el_ctl s)) (size_of s b) /\
    heap_bytes (el_ctl s') = heap_bytes (el_ctl s) /\
    inv0 s' (free_blocks (<[b := EL_AVAILABLE]> (h_state (memory s))) bs1 b bs2)
         la' (without b lu).
Proof.
  intros H Hb. destruct (el_free_step _ _ _ _ _ _ H Hb) as [H3 R].
  rewrite R. clear R.
  destruct (merge_spec _ _ _ _ _ _ H3) as (s4 & la4 & R4 & St4 & U4 & B4 & H4).
  change (h_state (memory (release_st b s)))
    with (<[b := EL_AVAILABLE]> (h_state (memory s))) in St4, H4.
  change (used (el_ctl (release_st b s)))
    with (bl_shrink (used (el_ctl s)) (size_of s b)) in U4.
  change (heap_bytes (el_ctl (release_st b s))) with (heap_bytes (el_ctl s)) in B4.
  unfold bind at 1. rewrite R4. unfold free_blocks.
  destruct bs1 as [|c bs0 _] using rev_ind.
  - cbn [last default]. change (NULL =? NULL) with true. cbn [negb].
    exists s4, la4. auto.
  - rewrite last_snoc, removelast_last. cbn [default from_option id].
    assert (Hc : c ∈ (bs0 ++ [c]) ++ b :: bs2) by set_solver.
    pose proof (inv0_block_bounds _ _ _ _ _ H Hc) as (Hc1 & _ & _).
    pose proof (inv_start _ _ _ _ H) as Hs.
    destruct (Z.eqb_spec c NULL) as [E|_]; [consts; lia|]. cbn [negb].
    rewrite <- app_assoc in H4. cbn [app] in H4.
    destruct (merge_spec _ _ _ _ _ _ H4) as (s5 & la5 & R5 & St5 & U5 & B5 & H5).
    rewrite St4 in H5.
    exists s5, la5. split; [exact R5|]. split; [congruence|]. split; [congruence|].
    split; [congruence | exact H5].
Qed.

Lemma coal_cons_head st x l :
  head_unavail st l -> coalesced_seq st l = true -> coalesced_seq st (x :: l) = true.
Proof.
  destruct l as [|y l]; [reflexivity|]. simpl head_unavail. intros Hy Hl.
  rewrite coal_cons2, Hy, andb_false_r, Hl. reflexivity.
Qed.

Lemma merge_tail_ok st b bs2 :
  is_available st b = true -> coalesced_seq st bs2 = true ->
  head_unavail st (merge_tail st b bs2) /\ coalesced_seq st (merge_tail st b bs2) = true.
Proof.
  intros Hb H. destruct bs2 as [|a r]; [split; [exact I | reflexivity]|].
  cbn [merge_tail]. rewrite Hb. cbn [andb].
  destruct (is_available st a) eqn:Ea.
  - split; [|exact (coal_cons_tail _ _ _ H)].
    destruct r as [|y r]; [exact I|]. exact (coal_next_unavail _ _ _ _ H Ea).
  - split; [exact Ea | exact H].
Qed.

Lemma free_blocks_coalesced st bs1 b bs2 :
  NoDup (bs1 ++ b :: bs2) ->
  coalesced_seq st (bs1 ++ b :: bs2) = true ->
  coalesced_seq (<[b := EL_AVAILABLE]> st)
    (free_blocks (<[b := EL_AVAILABLE]> st) bs1 b bs2) = true.
Proof.
  intros Nd H. set (st' := <[b := EL_AVAILABLE]> st).
  apply NoDup_split_notin in Nd as [N1 N2].
  assert (Hb : is_available st' b = true).
  { apply is_available_true. apply rd_insert_eq. }
  rewrite coal_app in H. apply andb_true_iff in H as [H1 H2].
  assert (H2' : coalesced_seq st' bs2 = true).
  { apply coal_cons_tail in H2. rewrite <- H2. apply coal_ext.
    intros x Hx. apply rd_insert_ne. intros ->. contradiction. }
  destruct (merge_tail_ok st' b bs2 Hb H2') as [T1 T2].
  unfold free_blocks. fold st'.
  destruct bs1 as [|c bs0 _] using rev_ind.
  - cbn [last app]. apply coal_cons_head; assumption.
  - rewrite last_snoc, removelast_last.
    assert (H1' : coalesced_seq st' (bs0 ++ [c]) = true).
    { apply coal_snoc_init in H1. rewrite <- H1. apply coal_ext.
      intros x Hx. apply rd_insert_ne. intros ->. contradiction. }
    cbn [merge_tail]. rewrite Hb, andb_true_r.
    rewrite coal_app. rewrite H1'. cbn [andb].
    destruct (is_available st' c) eqn:Ec.
    + apply coal_cons_head; assumption.
    + rewrite coal_cons_unavail by exact Ec. apply coal_cons_head; assumption.
Qed.

Lemma el_free_inv s bs1 bs2 la lu b :
  inv s (bs1 ++ b :: bs2) la lu -> b ∈ lu ->
  exists s' la',
    el_free (b + sizeof_blockhead) s = Some (tt, s') /\
    h_state (memory s') = <[b := EL_AVAILABLE]> (h_state (memory s)) /\
    used (el_ctl s') = bl_shrink (used (el_ctl s)) (size_of s b) /\
    heap_bytes (el_ctl s') = heap_bytes (el_ctl s) /\
    inv s' (free_blocks (<[b := EL_AVAILABLE]> (h_state (memory s))) bs1 b bs2)
        la' (without b lu).
Proof.
  intros [H Hco] Hb.
  destruct (el_free_inv0 _ _ _ _ _ _ H Hb) as (s' & la' & R & St & U & B & H').
  exists s', la'. repeat (split; [assumption|]).
  rewrite St. apply free_blocks_coalesced; [|exact Hco].
  exact (tiles_NoDup _ _ _ _ _ (inv_tiles _ _ _ _ H)).
Qed.

(** ** Initialisation *)

Lemma el_init_inv g heap initial_size :
  valid_boot g heap initial_size ->
  exists s, el_init g heap initial_size boot = Some (0, s) /\
            inv s [heap] [heap] [] /\
            heap_start (el_ctl s) = heap /\ heap_bytes (el_ctl s) = initial_size.
Proof.
  intros [Vs Vh Vt Vnd Vout]. destruct g as [ab ae ub ue]. cbn in Vnd, Vout.
  apply NoDup_cons in Vnd as [D1 Vnd]. apply NoDup_cons in Vnd as [D2 Vnd].
  apply NoDup_cons in Vnd as [D3 _].
  apply Forall_cons in Vout as [[Na Oa] Vout]. apply Forall_cons in Vout as [[Nb Ob] Vout].
  apply Forall_cons in Vout as [[Nc Oc] Vout]. apply Forall_cons in Vout as [[Nd Od] _].
  assert (Nh : heap <> NULL) by (consts; lia).
  unfold el_init. cbn [avail_beg_actual avail_end_actual used_beg_actual used_end_actual].
  destruct (Z.ltb_spec initial_size EL_BLOCK_OVERHEAD) as [Hlt|_]; [lia|].
  unfold boot, el_init_blocklist. cbn [el_ctl memory avail used].
  repeat mstep. cbn [set_list heap_start heap_end heap_bytes avail used].
  rewrite (wrap_small (initial_size - EL_BLOCK_OVERHEAD)) by (consts; lia).
  unfold el_get_footer. repeat mstep. rewrite rd_insert_eq.
  unfold PTR_PLUS_BYTES.
  rewrite (wrap_small (sizeof_blockhead + _)) by (consts; lia).
  rewrite (wrap_small (heap + initial_size)) by (consts; lia).
  rewrite (wrap_small (heap + _)) by (consts; lia).
  rewrite bind_store_foot by (consts; lia).
  replace (heap + (sizeof_blockhead + (initial_size - EL_BLOCK_OVERHEAD)))
    with (heap + sizeof_blockhead + (initial_size - EL_BLOCK_OVERHEAD)) by lia.
  match goal with |- exists s, bind _ _ ?s0 = _ /\ _ => set (s_pre := s0) end.
  assert (Hsh : shape s_pre [heap] (members [] []) [heap]).
  { constructor; cbn.
    - exact Vh.
    - reflexivity.
    - exact Vt.
    - rewrite rd_insert_eq. split; [reflexivity|]. split; [consts; lia|].
      split; [apply rd_insert_eq | consts; lia].
    - constructor; unfold nodes; cbn.
      all: assert (Dab : ab <> ae /\ ab <> ub /\ ab <> ue)
             by (rewrite !not_elem_of_cons in D1; tauto).
      all: assert (Dae : ae <> ub /\ ae <> ue) by (rewrite !not_elem_of_cons in D2; tauto).
      all: assert (Dub : ub <> ue) by (rewrite !not_elem_of_cons in D3; tauto).
      all: destruct Dab as (E1 & E2 & E3); destruct Dae as (E4 & E5).
      all: assert (Hh : heap <> ab /\ heap <> ae /\ heap <> ub /\ heap <> ue)
             by (repeat split; intros <-;
                 [apply Oa | apply Ob | apply Oc | apply Od]; consts; lia).
      all: destruct Hh as (Ha & Hb & Hc & Hd).
      + split.
        * rewrite !rd_insert_ne by congruence. apply rd_insert_eq.
        * rewrite !rd_insert_ne by congruence. apply rd_insert_eq.
      + split.
        * rewrite !rd_insert_ne by congruence. apply rd_insert_eq.
        * apply rd_insert_eq.
      + repeat (apply NoDup_cons; split;
                [rewrite ?not_elem_of_cons; repeat split; try congruence; apply not_elem_of_nil|]).
        apply NoDup_nil_2.
      + repeat (apply Forall_cons; split; [assumption|]). apply Forall_nil_2.
    - reflexivity.
    - unfold sentinel_ok; cbn.
      repeat (apply Forall_cons; split; [assumption|]). apply Forall_nil_2.
    - intros []; reflexivity.
    - intros []; reflexivity. }
  destruct (add_shape _ _ _ _ Avail heap Hsh ltac:(apply list_elem_of_here)) as [R H].
  exists (add_st Avail heap s_pre). split; [rewrite R; reflexivity|].
  split; [|split; reflexivity].
  assert (E : without heap [heap] = []) by (simpl; rewrite Z.eqb_refl; reflexivity).
  rewrite E in H. apply shape_members in H. cbn in H.
  split; [|reflexivity].
  apply inv0_shape. split; [exact H|]. split; [|constructor].
  apply Forall_cons. split; [|constructor]. unfold state_of. cbn. apply rd_insert_eq.
Qed.

(** ** The abstraction functions on a well-formed heap *)

Lemma inv0_list_members s bs la lu :
  inv0 s bs la lu -> list_members Avail s = la /\ list_members Used s = lu.
Proof.
  intros H. pose proof (inv_lists _ _ _ _ H) as [Ha Hu _ _].
  unfold list_members. cbn [get_list].
  rewrite (inv_alen _ _ _ _ H), (inv_ulen _ _ _ _ H), !Nat2Z.id.
  split; eapply dl_walk; eassumption.
Qed.

Lemma inv0_arena_blocks s bs la lu : inv0 s bs la lu -> arena_blocks s = bs.
Proof.
  intros H. unfold arena_blocks. eapply tiles_walk; [apply (inv_tiles _ _ _ _ H)|].
  pose proof (tiles_le _ _ _ _ _ (inv_tiles _ _ _ _ H)) as Hle.
  pose proof (inv_end _ _ _ _ H). lia.
Qed.

Lemma wf_coalesced s : wf s -> coalesced s = true.
Proof.
  intros (bs & la & lu & H & Hco). unfold coalesced.
  rewrite (inv0_arena_blocks _ _ _ _ H). exact Hco.
Qed.

(** ** Every reachable state is well-formed *)

Lemma el_malloc_wf s n p s' :
  wf s -> representable n -> el_malloc n s = Some (p, s') -> wf s'.
Proof.
  intros (bs & la & lu & H) [Hn Hrep] R. pose proof H as [H0 _].
  unfold el_malloc in R. unfold bind in R.
  rewrite (el_find_first_avail_spec _ _ _ _ n H0) in R.
  rewrite wrap_small in R by (consts; lia).
  destruct (Z.eqb_spec (first_fit s (n + EL_BLOCK_OVERHEAD) la) NULL) as [E|N].
  - injection R as _ <-. exists bs, la, lu. exact H.
  - destruct (inv0_members_nonnull _ _ _ _ H0) as [Hnn _].
    destruct (first_fit_found _ _ _ _ Hnn eq_refl N) as (l1 & l2 & El & Hsz & _).
    assert (Hb : first_fit s (n + EL_BLOCK_OVERHEAD) la ∈ la) by (rewrite El at 2; set_solver).
    destruct (el_malloc_found_inv _ _ _ _ _ n H Hb Hn Hsz) as (bs1 & bs2 & -> & R' & H').
    rewrite R' in R. injection R as _ <-. eexists _, _, _. exact H'.
Qed.

Lemma el_free_noop s p :
  already_available s p -> el_free p s = Some (tt, s).
Proof.
  intros [N Hst]. unfold el_free. rewrite bind_load by exact N.
  unfold state_of in Hst. rewrite Hst. reflexivity.
Qed.

Lemma el_free_wf s p :
  wf s -> allocated s p -> exists s', el_free p s = Some (tt, s') /\ wf s'.
Proof.
  intros (bs & la & lu & H) (b & Hb & ->). pose proof H as [H0 _].
  rewrite (proj2 (inv0_list_members _ _ _ _ H0)) in Hb.
  assert (Hbs : b ∈ bs) by (apply (inv0_in_bs _ _ _ _ _ H0); auto).
  destruct (list_elem_of_split _ _ Hbs) as (bs1 & bs2 & ->).
  destruct (el_free_inv _ _ _ _ _ _ H Hb) as (s' & la' & R & _ & _ & _ & H').
  exists s'. split; [exact R|]. eexists _, _, _. exact H'.
Qed.

Lemma reachable_wf s : reachable s -> wf s.
Proof.
  induction 1 as [g heap sz s Hv R | s n p s' _ IH Hn R | s p s' _ IH Hp R].
  - destruct (el_init_inv _ _ _ Hv) as (s0 & R0 & H0 & _).
    rewrite R0 in R. injection R as <-. exists [heap], [heap], []. exact H0.
  - exact (el_malloc_wf _ _ _ _ IH Hn R).
  - destruct Hp as [Hp|Hp].
    + destruct (el_free_wf _ _ IH Hp) as (s0 & R0 & H0).
      rewrite R0 in R. injection R as <-. exact H0.
    + rewrite (el_free_noop _ _ Hp) in R. injection R as <-. exact IH.
Qed.

(** ** The concrete heap *)

Lemma demo_valid_boot : valid_boot demo_globals demo_heap demo_size.
Proof.
  constructor; cbn.
  - vm_compute. discriminate.
  - vm_compute. discriminate.
  - reflexivity.
  - repeat (apply NoDup_cons; split; [set_solver|]). apply NoDup_nil_2.
  - repeat (apply Forall_cons; split; [split; [discriminate | vm_compute; intros [H1 H2]; contradiction]|]).
    apply Forall_nil_2.
Qed.

Lemma demo_init_run : el_init demo_globals demo_heap demo_size boot = Some (0, demo_init).
Proof. vm_compute. reflexivity. Qed.

Lemma demo_init_reachable : reachable demo_init.
Proof. exact (reach_init _ _ _ _ demo_valid_boot demo_init_run). Qed.

(** ** Frame lemmas: the fields each operation leaves alone *)

Section Preserves.
Context (R : state -> state -> Prop).
Hypothesis R_refl : forall s, R s s.
Hypothesis R_trans : forall s1 s2 s3, R s1 s2 -> R s2 s3 -> R s1 s3.

Lemma preserves_ret {A} (a : A) : preserves R (ret a).
Proof. intros s r s' [= _ <-]. apply R_refl. Qed.

Lemma preserves_bind {A B} (m : M A) (f : A -> M B) :
  preserves R m -> (forall a, preserves R (f a)) -> preserves R (bind m f).
Proof.
  intros Hm Hf s r s' H. unfold bind in H.
  destruct (m s) as [[a s1]|] eqn:E; [|discriminate].
  exact (R_trans _ _ _ (Hm _ _ _ E) (Hf a _ _ _ H)).
Qed.

Lemma preserves_load f p : preserves R (load f p).
Proof.
  intros s r s' H. unfold load in H. destruct (p =? NULL); [discriminate|].
  injection H as _ <-. apply R_refl.
Qed.

Lemma preserves_get_ctl : preserves R get_ctl.
Proof. intros s r s' [= _ <-]. apply R_refl. Qed.

Lemma preserves_if {A} (c : bool) (m1 m2 : M A) :
  preserves R m1 -> preserves R m2 -> preserves R (if c then m1 else m2).
Proof. destruct c; auto. Qed.

Lemma preserves_el_get_footer head : preserves R (el_get_footer head).
Proof.
  apply preserves_bind; [apply preserves_load | intros; apply preserves_ret].
Qed.

Lemma preserves_el_get_header foot : preserves R (el_get_header foot).
Proof.
  apply preserves_bind; [apply preserves_load | intros; apply preserves_ret].
Qed.

Lemma preserves_el_block_above block : preserves R (el_block_above block).
Proof.
  apply preserves_bind; [apply preserves_load | intros size].
  apply preserves_bind; [apply preserves_get_ctl | intros c].
  apply preserves_if; apply preserves_ret.
Qed.

Lemma preserves_el_block_below block : preserves R (el_block_below block).
Proof.
  apply preserves_bind; [apply preserves_get_ctl | intros c].
  apply preserves_if; [apply preserves_ret|].
  apply preserves_bind; [apply preserves_el_get_header | intros; apply preserves_ret].
Qed.

Lemma preserves_find_loop k n p : preserves R (find_loop k n p).
Proof.
  revert p. induction k as [|k IH]; intros p; simpl; [apply preserves_ret|].
  apply preserves_bind; [apply preserves_load | intros sz].
  apply preserves_if; [apply preserves_ret|].
  apply preserves_bind; [apply preserves_load | intros nx; apply IH].
Qed.

Lemma preserves_el_find_first_avail n : preserves R (el_find_first_avail n).
Proof.
  apply preserves_bind; [apply preserves_get_ctl | intros c].
  apply preserves_bind; [apply preserves_load | intros st; apply preserves_find_loop].
Qed.
End Preserves.

Ltac prim_store :=
  let s := fresh "s" in let r := fresh "r" in let s' := fresh "s'" in
  let H := fresh "H" in
  intros s r s' H;
  unfold store_size, store_state, store_next, store_prev, store_foot, put_list in H;
  try (match type of H with (if ?c then _ else _) = _ => destruct c; [discriminate|] end);
  cbv zeta in H; injection H as _ <-; repeat split.

Lemma same_bounds_refl s : same_bounds s s.
Proof. repeat split. Qed.

Lemma same_bounds_trans s1 s2 s3 : same_bounds s1 s2 -> same_bounds s2 s3 -> same_bounds s1 s3.
Proof. unfold same_bounds. intros H1 H2. repeat split; intuition congruence. Qed.

Lemma same_tags_refl s : same_tags s s.
Proof. repeat split. Qed.

Lemma same_tags_trans s1 s2 s3 : same_tags s1 s2 -> same_tags s2 s3 -> same_tags s1 s3.
Proof. unfold same_tags. intros H1 H2. repeat split; intuition congruence. Qed.

Lemma same_but_sizes_refl s : same_but_sizes s s.
Proof. repeat split. Qed.

Lemma same_but_sizes_trans s1 s2 s3 :
  same_but_sizes s1 s2 -> same_but_sizes s2 s3 -> same_but_sizes s1 s3.
Proof. unfold same_but_sizes. intros H1 H2. repeat split; intuition congruence. Qed.



Lemma bounds_store_size p v : preserves same_bounds (store_size p v).
Proof. prim_store. Qed.
Lemma bounds_store_state p v : preserves same_bounds (store_state p v).
Proof. prim_store. Qed.
Lemma bounds_store_next p v : preserves same_bounds (store_next p v).
Proof. prim_store. Qed.
Lemma bounds_store_prev p v : preserves same_bounds (store_prev p v).
Proof. prim_store. Qed.
Lemma bounds_store_foot p v : preserves same_bounds (store_foot p v).
Proof. prim_store. Qed.
Lemma bounds_update_counts l (f g : el_blocklist_t -> Z) :
  preserves same_bounds
    (bind get_ctl (fun c =>
       put_list l (Blocklist (bl_beg (get_list l c)) (bl_end (get_list l c))
                     (f (get_list l c)) (g (get_list l c))))).
Proof.
  intros s r s' H. unfold bind, get_ctl, put_list in H. injection H as _ <-.
  destruct l; repeat split.
Qed.

Lemma tags_store_next p v : preserves same_tags (store_next p v).
Proof. prim_store. Qed.
Lemma tags_store_prev p v : preserves same_tags (store_prev p v).
Proof. prim_store. Qed.
Lemma tags_put_list l b : preserves same_tags (put_list l b).
Proof. prim_store. Qed.

Lemma sizes_store_size p v : preserves same_but_sizes (store_size p v).
Proof. prim_store. Qed.
Lemma sizes_store_foot p v : preserves same_but_sizes (store_foot p v).
Proof. prim_store. Qed.


Ltac frame_with refl trans prims :=
  repeat (cbv zeta;
          first
            [ prims
            | apply (preserves_ret _ refl)
            | apply (preserves_load _ refl)
            | apply (preserves_get_ctl _ refl)
            | apply (preserves_el_get_footer _ refl trans)
            | apply (preserves_el_block_above _ refl trans)
            | apply (preserves_el_block_below _ refl trans)
            | apply (preserves_el_find_first_avail _ refl trans)
            | apply preserves_if
            | apply (preserves_bind _ trans); [|intro] ]).

Ltac bounds_prims :=
  first [ apply bounds_store_size | apply bounds_store_state | apply bounds_store_next
        | apply bounds_store_prev | apply bounds_store_foot
        | apply (bounds_update_counts _ (fun bl => wrap (bl_length bl + 1))
                   (fun bl => wrap (bl_bytes bl + _)))
        | apply (bounds_update_counts _ (fun bl => wrap (bl_length bl - 1))
                   (fun bl => wrap (bl_bytes bl - _))) ].

Ltac tags_prims :=
  first [ apply tags_store_next | apply tags_store_prev | apply tags_put_list ].

Ltac sizes_prims := first [ apply sizes_store_size | apply sizes_store_foot ].


Lemma bounds_el_add_block_front l b : preserves same_bounds (el_add_block_front l b).
Proof. unfold el_add_block_front. frame_with same_bounds_refl same_bounds_trans bounds_prims. Qed.

Lemma bounds_el_remove_block l b : preserves same_bounds (el_remove_block l b).
Proof. unfold el_remove_block. frame_with same_bounds_refl same_bounds_trans bounds_prims. Qed.

Lemma tags_el_add_block_front l b : preserves same_tags (el_add_block_front l b).
Proof. unfold el_add_block_front. frame_with same_tags_refl same_tags_trans tags_prims. Qed.

Lemma tags_el_remove_block l b : preserves same_tags (el_remove_block l b).
Proof. unfold el_remove_block. frame_with same_tags_refl same_tags_trans tags_prims. Qed.



Lemma sizes_el_split_block b n : preserves same_but_sizes (el_split_block b n).
Proof. unfold el_split_block. frame_with same_but_sizes_refl same_but_sizes_trans sizes_prims. Qed.

Lemma bounds_el_split_block b n : preserves same_bounds (el_split_block b n).
Proof. unfold el_split_block. frame_with same_bounds_refl same_bounds_trans bounds_prims. Qed.

Lemma bounds_el_merge lower : preserves same_bounds (el_merge_block_with_above lower).
Proof.
  unfold el_merge_block_with_above.
  frame_with same_bounds_refl same_bounds_trans
    ltac:(first [bounds_prims | apply bounds_el_add_block_front | apply bounds_el_remove_block]).
Qed.


Lemma bounds_el_malloc n : preserves same_bounds (el_malloc n).
Proof.
  unfold el_malloc, el_malloc_found.
  frame_with same_bounds_refl same_bounds_trans
    ltac:(first [bounds_prims | apply bounds_el_add_block_front | apply bounds_el_remove_block
                | apply bounds_el_split_block]).
Qed.

Lemma bounds_el_free p : preserves same_bounds (el_free p).
Proof.
  unfold el_free.
  frame_with same_bounds_refl same_bounds_trans
    ltac:(first [bounds_prims | apply bounds_el_add_block_front | apply bounds_el_remove_block
                | apply bounds_el_merge]).
Qed.

Lemma unchanged_refl (s : state) : s = s.
Proof. reflexivity. Qed.

Lemma unchanged_trans (s1 s2 s3 : state) : s2 = s1 -> s3 = s2 -> s3 = s1.
Proof. congruence. Qed.

(** * The claims *)

(** ** C1: conservation of bytes *)

(** C1, as stated, fails: right after [el_init] the available list holds
    the one block of the 4096-byte arena with [bytes = 4096], overhead
    included, so adding the overhead once more gives 4136. *)
Lemma conservation_counterexample :
  reachable demo_init /\ ~ conservation_as_stated demo_init.
Proof.
  split; [exact demo_init_reachable|].
  unfold conservation_as_stated. vm_compute. discriminate.
Qed.

(** C1, amended: in every reachable state each list's [bytes] field is
    the sum over its members of payload size plus per-block overhead, and
    the two fields add up to the byte count of the arena. *)
Theorem conservation (s : state) :
  reachable s ->
  bl_bytes (avail (el_ctl s)) = sum_bytes (h_size (memory s)) (list_members Avail s) /\
  bl_bytes (used (el_ctl s)) = sum_bytes (h_size (memory s)) (list_members Used s) /\
  bl_bytes (avail (el_ctl s)) + bl_bytes (used (el_ctl s)) = heap_bytes (el_ctl s).
Proof.
  intros Hr. destruct (reachable_wf _ Hr) as (bs & la & lu & H & _).
  destruct (inv0_list_members _ _ _ _ H) as [-> ->].
  pose proof (inv0_counts _ _ _ _ H) as (_ & Hsum & _).
  rewrite (inv_abytes _ _ _ _ H), (inv_ubytes _ _ _ _ H). auto.
Qed.

Lemma conservation_witness :
  reachable demo_init /\
  bl_bytes (avail (el_ctl demo_init)) + bl_bytes (used (el_ctl demo_init))
  = heap_bytes (el_ctl demo_init).
Proof.
  split; [exact demo_init_reachable|].
  exact (proj2 (proj2 (conservation demo_init demo_init_reachable))).
Defined.

(** ** C2: allocate followed by free *)

Lemma wrap_add_sub u x : 0 <= u < SIZE_MAX_P1 -> wrap (wrap (u + x) - x) = u.
Proof.
  intros Hu. unfold wrap. rewrite Zminus_mod_idemp_l.
  replace (u + x - x) with u by lia. apply Z.mod_small. exact Hu.
Qed.

Lemma removelast_snoc_last (l : list Z) c : last l = Some c -> removelast l ++ [c] = l.
Proof.
  destruct l as [|x l _] using rev_ind; [discriminate|].
  rewrite last_snoc, removelast_last. intros [= ->]. reflexivity.
Qed.

(** What [el_malloc] does in a well-formed state to a representable
    request: nothing when no member of the available list has room for
    the request and a new header and footer, and otherwise the first such
    member [b] is split. *)
Lemma el_malloc_cases s bs la lu n :
  inv s bs la lu -> representable n ->
  let b := first_fit s (n + EL_BLOCK_OVERHEAD) la in
  (b = NULL /\ el_malloc n s = Some (NULL, s)) \/
  (b <> NULL /\ b ∈ la /\ n + EL_BLOCK_OVERHEAD <= size_of s b /\
   exists bs1 bs2, bs = bs1 ++ b :: bs2 /\
     el_malloc n s = Some (b + sizeof_blockhead, malloc_st b n s) /\
     inv (malloc_st b n s) (bs1 ++ b :: (b + n + EL_BLOCK_OVERHEAD) :: bs2)
         ((b + n + EL_BLOCK_OVERHEAD) :: without b la) (b :: lu)).
Proof.
  intros H [Hn Hrep] b. pose proof H as [H0 _].
  unfold el_malloc, bind.
  rewrite (el_find_first_avail_spec _ _ _ _ n H0).
  rewrite wrap_small by (consts; lia). fold b.
  destruct (Z.eqb_spec b NULL) as [E|N].
  - left. split; [exact E | reflexivity].
  - right. split; [exact N|].
    destruct (inv0_members_nonnull _ _ _ _ H0) as [Hnn _].
    destruct (first_fit_found _ _ _ _ Hnn eq_refl N) as (l1 & l2 & El & Hsz & _).
    fold b in El, Hsz.
    assert (Hb : b ∈ la) by (rewrite El; set_solver).
    split; [exact Hb|]. split; [exact Hsz|].
    destruct (el_malloc_found_inv _ _ _ _ _ n H Hb Hn Hsz) as (bs1 & bs2 & E & R' & H').
    exists bs1, bs2. auto.
Qed.

Lemma inv_bytes_split s bs la lu :
  inv0 s bs la lu ->
  bl_bytes (avail (el_ctl s)) = heap_bytes (el_ctl s) - bl_bytes (used (el_ctl s)) /\
  0 <= bl_bytes (used (el_ctl s)) < SIZE_MAX_P1.
Proof.
  intros H. pose proof (inv0_counts _ _ _ _ H) as (_ & Hsum & Ha & Hu & Hb).
  rewrite (inv_abytes _ _ _ _ H), (inv_ubytes _ _ _ _ H). lia.
Qed.

Lemma free_blocks_after_malloc st bs1 b b2 bs2 :
  let st1 := <[b2 := EL_AVAILABLE]> (<[b := EL_USED]> st) in
  NoDup (bs1 ++ b :: bs2) -> b2 ∉ bs1 ++ b :: bs2 ->
  coalesced_seq st (bs1 ++ b :: bs2) = true -> is_available st b = true ->
  free_blocks (<[b := EL_AVAILABLE]> st1) bs1 b (b2 :: bs2) = bs1 ++ b :: bs2.
Proof.
  intros st1 Nd Hb2 Hco Hav. unfold free_blocks.
  assert (Hne : b2 <> b) by set_solver.
  assert (Hb : is_available (<[b := EL_AVAILABLE]> st1) b = true).
  { apply is_available_true. apply rd_insert_eq. }
  assert (Hb2' : is_available (<[b := EL_AVAILABLE]> st1) b2 = true).
  { apply is_available_true. rewrite rd_insert_ne by congruence. apply rd_insert_eq. }
  cbn [merge_tail]. rewrite Hb. cbn [andb]. rewrite Hb2'.
  destruct bs1 as [|c r _] using rev_ind; [reflexivity|].
  rewrite last_snoc, removelast_last.
  assert (Hc : is_available (<[b := EL_AVAILABLE]> st1) c = false).
  { rewrite coal_app in Hco. apply andb_true_iff in Hco as [Hco _].
    rewrite <- app_assoc in Hco. cbn [app] in Hco.
    pose proof (coal_prev_unavail _ _ _ _ Hco Hav) as Hc.
    apply NoDup_split_notin in Nd as [Nd _].
    assert (Hcb : b <> c).
    { intros ->. apply Nd. apply elem_of_app. right. apply list_elem_of_here. }
    assert (Hcb2 : b2 <> c).
    { intros ->. apply Hb2. rewrite <- app_assoc. apply elem_of_app. right.
      apply list_elem_of_here. }
    unfold is_available in *. subst st1.
    rewrite !rd_insert_ne by assumption. exact Hc. }
  rewrite Hc. cbn [andb]. rewrite <- app_assoc. reflexivity.
Qed.

(** Without wrap-around the round trip holds: in every reachable state,
    when [el_malloc n] succeeds for a representable size [n], [el_free] of
    the returned pointer right after it succeeds too and restores the
    block count and the byte total of the available list. *)
Theorem malloc_free_round_trip (s : state) (n p : Z) (s1 : state) :
  reachable s -> representable n ->
  el_malloc n s = Some (p, s1) -> p <> NULL ->
  exists s2, el_free p s1 = Some (tt, s2) /\
    bl_length (avail (el_ctl s2)) = bl_length (avail (el_ctl s)) /\
    bl_bytes (avail (el_ctl s2)) = bl_bytes (avail (el_ctl s)).
Proof.
  intros Hr Hn R Hp. destruct (reachable_wf _ Hr) as (bs & la & lu & H).
  destruct (el_malloc_cases _ _ _ _ _ H Hn) as [[_ R']|(N & Hb & Hsz & bs1 & bs2 & -> & R' & H1)];
    rewrite R' in R; injection R as <- <-; [contradiction|].
  set (b := first_fit s (n + EL_BLOCK_OVERHEAD) la) in *.
  set (b2 := b + n + EL_BLOCK_OVERHEAD) in *.
  destruct H as [H0 Hco].
  destruct (el_free_inv _ _ _ _ _ _ H1 ltac:(set_solver)) as (s2 & la2 & R2 & _ & U & B & H2 & _).
  exists s2. split; [exact R2|].
  assert (Eu : without b (b :: lu) = lu) by (simpl; rewrite Z.eqb_refl; reflexivity).
  rewrite Eu in H2.
  pose proof (tiles_NoDup _ _ _ _ _ (inv_tiles _ _ _ _ H0)) as Nd.
  assert (Hbs : b ∈ bs1 ++ b :: bs2) by set_solver.
  pose proof (inv0_block_bounds _ _ _ _ _ H0 Hbs) as (Hb1 & Hb2 & Hb3).
  destruct Hn as [Hn0 Hn1].
  assert (Hb2out : b2 ∉ bs1 ++ b :: bs2).
  { apply (tiles_inside_notin _ _ _ _ _ b _ (inv_tiles _ _ _ _ H0) Hbs).
    unfold size_of in *. subst b2. consts. lia. }
  assert (Hav : is_available (h_state (memory s)) b = true).
  { apply is_available_true. pose proof (inv_astate _ _ _ _ H0) as Ha.
    rewrite Forall_forall in Ha. apply Ha. exact Hb. }
  rewrite malloc_st_state in H2. fold b2 in H2.
  rewrite (free_blocks_after_malloc _ _ _ _ _ Nd Hb2out Hco Hav) in H2.
  split.
  - rewrite (inv_alen _ _ _ _ H2), (inv_alen _ _ _ _ H0).
    pose proof (Permutation_length (inv_perm _ _ _ _ H2)) as L2.
    pose proof (Permutation_length (inv_perm _ _ _ _ H0)) as L0.
    rewrite length_app in L2, L0. lia.
  - destruct (inv_bytes_split _ _ _ _ H2) as [E2 _].
    destruct (inv_bytes_split _ _ _ _ H0) as [E0 Hu0].
    rewrite E2, E0, B, U. f_equal.
    assert (Hsz1 : size_of (malloc_st b n s) b = n).
    { unfold size_of. rewrite malloc_st_size. fold b2.
      rewrite rd_insert_ne by (subst b2; consts; lia). apply rd_insert_eq. }
    rewrite Hsz1.
    assert (Eused : bl_bytes (used (el_ctl (malloc_st b n s)))
                    = wrap (bl_bytes (used (el_ctl s)) + wrap (EL_BLOCK_OVERHEAD + n))).
    { cbn. f_equal. f_equal. f_equal. f_equal.
      rewrite rd_insert_ne by (consts; lia). apply rd_insert_eq. }
    unfold bl_shrink. cbn [bl_bytes]. rewrite Eused.
    apply wrap_add_sub. exact Hu0.
Qed.

Lemma malloc_free_round_trip_witness :
  reachable demo_init /\ representable 100 /\
  exists s2, el_free (demo_heap + sizeof_blockhead) (final_state (el_malloc 100) demo_init)
             = Some (tt, s2) /\
    bl_length (avail (el_ctl s2)) = bl_length (avail (el_ctl demo_init)) /\
    bl_bytes (avail (el_ctl s2)) = bl_bytes (avail (el_ctl demo_init)).
Proof.
  assert (Hn : representable 100) by (split; vm_compute; congruence).
  split; [exact demo_init_reachable|]. split; [exact Hn|].
  apply (malloc_free_round_trip demo_init 100 (demo_heap + sizeof_blockhead)
           (final_state (el_malloc 100) demo_init) demo_init_reachable Hn).
  - vm_compute. reflexivity.
  - vm_compute. discriminate.
Defined.

(** C2 fails after a request whose size wraps around: in the 4096-byte
    arena, after [el_malloc 3000], [el_malloc (SIZE_MAX - 39)] (which
    returns a pointer), [el_malloc 16], [el_free] of the first and of the
    last pointer and [el_malloc 2000], the available list has two
    members; [el_malloc 970] succeeds, and [el_free] of its pointer right
    after it leaves one member, not two. *)
Lemma round_trip_overflow :
  exists s p s1 s2,
    replay wrapped_then_malloc demo_init = Some s /\
    representable 970 /\
    el_malloc 970 s = Some (p, s1) /\ p <> NULL /\
    el_free p s1 = Some (tt, s2) /\
    bl_length (avail (el_ctl s)) = 2 /\
    list_members Avail s = [demo_heap + 2040; demo_heap + 3040] /\
    bl_length (avail (el_ctl s2)) = 1 /\
    list_members Avail s2 = [demo_heap + 2040].
Proof.
  exists (after_calls wrapped_then_malloc demo_init), (demo_heap + 3072),
    (final_state (el_malloc 970) (after_calls wrapped_then_malloc demo_init)),
    (final_state (el_free (demo_heap + 3072))
       (final_state (el_malloc 970) (after_calls wrapped_then_malloc demo_init))).
  split; [vm_compute; reflexivity|].
  split; [split; vm_compute; congruence|].
  split; [vm_compute; reflexivity|].
  split; [vm_compute; discriminate|].
  split; [vm_compute; reflexivity|].
  split; [vm_compute; reflexivity|].
  split; [vm_compute; reflexivity|].
  split; vm_compute; reflexivity.
Qed.

(** ** C3: first fit *)

(** The search on a well-formed heap, for a representable request, is
    the reference scan of the members of the available list for the first
    payload of at least [n + EL_BLOCK_OVERHEAD]; it changes nothing. *)
Lemma first_fit_refines s n :
  wf s -> representable n ->
  el_find_first_avail n s
  = Some (first_fit s (n + EL_BLOCK_OVERHEAD) (list_members Avail s), s).
Proof.
  intros (bs & la & lu & H & _) [Hn Hrep].
  rewrite (el_find_first_avail_spec _ _ _ _ n H).
  rewrite wrap_small by (consts; lia).
  rewrite (proj1 (inv0_list_members _ _ _ _ H)). reflexivity.
Qed.

(** C3 fails when [n + EL_BLOCK_OVERHEAD] wraps around: for [n = SIZE_MAX]
    the search compares payloads with 39 and returns the 4056-byte block
    of the fresh arena, while no block has a payload of [n + overhead] and
    the reference scan selects none. *)
Lemma first_fit_overflow :
  el_find_first_avail SIZE_MAX demo_init = Some (demo_heap, demo_init) /\
  first_fit demo_init (SIZE_MAX + EL_BLOCK_OVERHEAD) (list_members Avail demo_init) = NULL /\
  Forall (fun b => size_of demo_init b < SIZE_MAX + EL_BLOCK_OVERHEAD)
         (list_members Avail demo_init).
Proof.
  split; [vm_compute; reflexivity|]. split; [vm_compute; reflexivity|].
  replace (list_members Avail demo_init) with [demo_heap] by (vm_compute; reflexivity).
  constructor; [vm_compute; reflexivity | constructor].
Qed.

(** ** C4: splitting *)

(** C4 fails when [target + EL_BLOCK_OVERHEAD] wraps around: the block of
    the fresh arena has payload 4056, less than [SIZE_MAX] plus overhead,
    yet [el_split_block] rewrites its size and returns a block 39 bytes
    above it. *)
Lemma split_overflow :
  size_of demo_init demo_heap < SIZE_MAX + EL_BLOCK_OVERHEAD /\
  exists s', el_split_block demo_heap SIZE_MAX demo_init = Some (demo_heap + 39, s') /\
             size_of s' demo_heap = SIZE_MAX /\ size_of demo_init demo_heap = 4056.
Proof.
  split; [vm_compute; reflexivity|].
  exists (final_state (el_split_block demo_heap SIZE_MAX) demo_init).
  split; [vm_compute; reflexivity|]. split; vm_compute; reflexivity.
Qed.

(** ** C5: merging *)

(** C5 fails for an absent lower block: [el_block_above] reads
    [lower->size] before [lower] is compared with NULL, so the call
    faults instead of returning with the state unchanged. *)
Lemma merge_null_faults (s : state) : el_merge_block_with_above NULL s = None.
Proof. reflexivity. Qed.

(** ** C6: double free *)



Lemma demo_one_reachable : reachable demo_one.
Proof.
  apply (reach_malloc demo_init 8 (demo_heap + sizeof_blockhead)).
  - exact demo_init_reachable.
  - split; vm_compute; congruence.
  - vm_compute. reflexivity.
Qed.

Lemma demo_one_allocated : allocated demo_one (demo_heap + sizeof_blockhead).
Proof.
  exists demo_heap. split; [|reflexivity].
  replace (list_members Used demo_one) with [demo_heap] by (vm_compute; reflexivity).
  apply list_elem_of_here.
Qed.


(** ** C7: allocation failure *)

Lemma find_loop_state k n p s r s' : find_loop k n p s = Some (r, s') -> s' = s.
Proof.
  revert p. induction k as [|k IH]; intros p; simpl.
  - intros [= _ <-]. reflexivity.
  - unfold bind at 1, load at 1. destruct (p =? NULL); [discriminate|].
    destruct (_ >=? _); [intros [= _ <-]; reflexivity|].
    unfold bind at 1, load at 1. destruct (p =? NULL); [discriminate|]. apply IH.
Qed.

Lemma el_find_first_avail_state n s r s' :
  el_find_first_avail n s = Some (r, s') -> s' = s.
Proof.
  unfold el_find_first_avail. rewrite bind_get_ctl.
  unfold bind at 1, load at 1. destruct (_ =? NULL); [discriminate|].
  apply find_loop_state.
Qed.

(** Whenever the first-fit search returns NULL, in any state and for any
    size, [el_malloc] returns NULL and leaves the whole state (lists,
    headers, footers, control data) as it was. *)
Theorem malloc_no_fit (s : state) (n : Z) (s0 : state) :
  el_find_first_avail n s = Some (NULL, s0) -> el_malloc n s = Some (NULL, s).
Proof.
  intros R. pose proof (el_find_first_avail_state _ _ _ _ R) as ->.
  unfold el_malloc, bind. rewrite R. reflexivity.
Qed.

Lemma malloc_no_fit_witness :
  el_find_first_avail 4050 demo_init = Some (NULL, demo_init) /\
  el_malloc 4050 demo_init = Some (NULL, demo_init).
Proof.
  assert (R : el_find_first_avail 4050 demo_init = Some (NULL, demo_init))
    by (vm_compute; reflexivity).
  split; [exact R|]. exact (malloc_no_fit demo_init 4050 demo_init R).
Defined.

(** C7 fails when [n + EL_BLOCK_OVERHEAD] wraps around: no available
    block of the fresh arena fits [SIZE_MAX] bytes, the only one having
    4056, yet [el_malloc SIZE_MAX] returns the payload address of that
    block instead of NULL, having marked it USED and counted it in the
    used list. *)
Lemma no_fit_overflow :
  Forall (fun b => size_of demo_init b < SIZE_MAX) (list_members Avail demo_init) /\
  exists s',
    el_malloc SIZE_MAX demo_init = Some (demo_heap + 32, s') /\
    demo_heap + 32 <> NULL /\
    state_of demo_init demo_heap = EL_AVAILABLE /\ state_of s' demo_heap = EL_USED /\
    bl_length (used (el_ctl demo_init)) = 0 /\ bl_length (used (el_ctl s')) = 1.
Proof.
  split.
  - replace (list_members Avail demo_init) with [demo_heap] by (vm_compute; reflexivity).
    constructor; [vm_compute; reflexivity | constructor].
  - exists (final_state (el_malloc SIZE_MAX) demo_init).
    split; [vm_compute; reflexivity|]. split; [vm_compute; discriminate|].
    split; [vm_compute; reflexivity|]. split; [vm_compute; reflexivity|].
    split; vm_compute; reflexivity.
Qed.

(** ** C8: coalescing *)

(** Without wrap-around every free coalesces: in every reachable state,
    [el_free] of an allocated pointer, or of a pointer whose block is
    already AVAILABLE, succeeds and leaves no two physically adjacent
    blocks of the arena both AVAILABLE. *)
Theorem free_coalesces (s : state) (p : Z) :
  reachable s -> allocated s p \/ already_available s p ->
  exists s', el_free p s = Some (tt, s') /\ coalesced s' = true.
Proof.
  intros Hr [Hp|Hp].
  - destruct (el_free_wf _ _ (reachable_wf _ Hr) Hp) as (s' & R & H').
    exists s'. split; [exact R | exact (wf_coalesced _ H')].
  - exists s. split; [exact (el_free_noop _ _ Hp)|].
    exact (wf_coalesced _ (reachable_wf _ Hr)).
Qed.

Lemma free_coalesces_witness :
  reachable demo_one /\ allocated demo_one (demo_heap + sizeof_blockhead) /\
  exists s', el_free (demo_heap + sizeof_blockhead) demo_one = Some (tt, s') /\
             coalesced s' = true.
Proof.
  split; [exact demo_one_reachable|]. split; [exact demo_one_allocated|].
  exact (free_coalesces demo_one (demo_heap + sizeof_blockhead) demo_one_reachable
           (or_introl demo_one_allocated)).
Defined.

(** C8 fails after a request whose size wraps around: in the 4096-byte
    arena, after [el_malloc 8], [el_malloc (SIZE_MAX - 39)] and
    [el_malloc 16], [el_free] of the first pointer and then of the last
    one, each of them a pointer [el_malloc] returned, leave the arena
    with two blocks, the one right above the other, both AVAILABLE: the
    wrapped request has overwritten the footer of the lower block, and
    [el_block_below] no longer finds it. *)
Lemma free_overflow_uncoalesced :
  exists s,
    replay wrapped_frees demo_init = Some s /\
    arena_blocks s = [demo_heap; demo_heap + 48] /\
    el_block_above demo_heap s = Some (demo_heap + 48, s) /\
    el_block_below (demo_heap + 48) s = Some (demo_heap + 48, s) /\
    state_of s demo_heap = EL_AVAILABLE /\
    state_of s (demo_heap + 48) = EL_AVAILABLE /\
    coalesced s = false.
Proof.
  exists (after_calls wrapped_frees demo_init).
  split; [vm_compute; reflexivity|]. split; [vm_compute; reflexivity|].
  split; [vm_compute; reflexivity|]. split; [vm_compute; reflexivity|].
  split; [vm_compute; reflexivity|]. split; vm_compute; reflexivity.
Qed.

(** ** C9: blocks too small to split *)





(** Allocation always splits: in a reachable state and for a
    representable size [n], [el_malloc] returns NULL and changes nothing
    when every available block has a payload below
    [n + EL_BLOCK_OVERHEAD], even one of [n] bytes or more; and a block
    that it does hand out was an available block with a payload of at
    least [n + EL_BLOCK_OVERHEAD] that has been split: it is USED, a
    member of the used list, and its payload is exactly [n]. *)
Lemma malloc_always_splits (s : state) (n : Z) :
  reachable s -> representable n ->
  (Forall (fun b => size_of s b < n + EL_BLOCK_OVERHEAD) (list_members Avail s) ->
   el_malloc n s = Some (NULL, s)) /\
  (forall p s', el_malloc n s = Some (p, s') -> p <> NULL ->
     exists b, p = b + sizeof_blockhead /\ b ∈ list_members Avail s /\
               n + EL_BLOCK_OVERHEAD <= size_of s b /\
               size_of s' b = n /\ state_of s' b = EL_USED /\
               b ∈ list_members Used s').
Proof.
  intros Hr Hn. destruct (reachable_wf _ Hr) as (bs & la & lu & H).
  pose proof H as [H0 _].
  destruct (inv0_list_members _ _ _ _ H0) as [Ea Eu]. rewrite Ea.
  destruct (inv0_members_nonnull _ _ _ _ H0) as [Hnn _].
  destruct (el_malloc_cases _ _ _ _ _ H Hn)
    as [[E R]|(N & Hb & Hsz & bs1 & bs2 & -> & R & [H1 _])].
  - split; [intros _; exact R|]. intros p s' R'. rewrite R in R'.
    injection R' as <- _. contradiction.
  - split.
    + intros Hall. apply (first_fit_none _ _ _ Hnn) in Hall. contradiction.
    + intros p s' R'. rewrite R in R'. injection R' as <- <-. intros _.
      set (b := first_fit s (n + EL_BLOCK_OVERHEAD) la) in *.
      exists b. split; [reflexivity|]. split; [exact Hb|]. split; [exact Hsz|].
      destruct Hn as [Hn0 Hn1].
      assert (Hne : b + n + EL_BLOCK_OVERHEAD <> b) by (consts; lia).
      split; [|split].
      * unfold size_of. rewrite malloc_st_size.
        rewrite rd_insert_ne by exact Hne. apply rd_insert_eq.
      * unfold state_of. rewrite malloc_st_state.
        rewrite rd_insert_ne by exact Hne. apply rd_insert_eq.
      * rewrite (proj2 (inv0_list_members _ _ _ _ H1)). apply list_elem_of_here.
Qed.



(** ** C10: the size handed out *)


(** C10 fails when [n + EL_BLOCK_OVERHEAD] wraps around to zero: after
    [el_malloc 8] in the fresh arena, [el_malloc (SIZE_MAX - 39)] selects
    the 4008-byte block, the "upper" block of the split is that same
    block, and the caller receives a block of 4008 bytes that is marked
    AVAILABLE and is a member of both lists. *)
Lemma exact_size_overflow :
  reachable demo_one /\
  exists p s', el_malloc (SIZE_MAX - 39) demo_one = Some (p, s') /\ p <> NULL /\
    size_of s' (p - sizeof_blockhead) = 4008 /\
    state_of s' (p - sizeof_blockhead) = EL_AVAILABLE /\
    bl_bytes (avail (el_ctl s')) + bl_bytes (used (el_ctl s')) = 8144.
Proof.
  split; [exact demo_one_reachable|].
  exists (demo_heap + 80), (final_state (el_malloc (SIZE_MAX - 39)) demo_one).
  split; [vm_compute; reflexivity|]. split; [vm_compute; discriminate|].
  repeat split; vm_compute; reflexivity.
Qed.

(** * Further properties of the code *)

(** ** Frames: what each function never writes *)

(** X1: the search and the four address computations are read-only: in
    any state and for any argument, when [el_find_first_avail],
    [el_get_footer], [el_get_header], [el_block_above] or [el_block_below]
    returns, the state is the one it started in. *)
Theorem queries_read_only (s : state) (x r : Z) (s' : state) :
  el_find_first_avail x s = Some (r, s') \/ el_get_footer x s = Some (r, s') \/
  el_get_header x s = Some (r, s') \/ el_block_above x s = Some (r, s') \/
  el_block_below x s = Some (r, s') ->
  s' = s.
Proof.
  intros [H|[H|[H|[H|H]]]].
  - exact (preserves_el_find_first_avail (fun s s' => s' = s)
             unchanged_refl unchanged_trans x s r s' H).
  - exact (preserves_el_get_footer (fun s s' => s' = s)
             unchanged_refl unchanged_trans x s r s' H).
  - exact (preserves_el_get_header (fun s s' => s' = s)
             unchanged_refl unchanged_trans x s r s' H).
  - exact (preserves_el_block_above (fun s s' => s' = s)
             unchanged_refl unchanged_trans x s r s' H).
  - exact (preserves_el_block_below (fun s s' => s' = s)
             unchanged_refl unchanged_trans x s r s' H).
Qed.

Lemma queries_read_only_witness :
  el_block_above demo_heap demo_one = Some (demo_heap + 48, demo_one) /\
  demo_one = demo_one.
Proof.
  assert (R : el_block_above demo_heap demo_one = Some (demo_heap + 48, demo_one))
    by (vm_compute; reflexivity).
  split; [exact R|].
  exact (queries_read_only demo_one demo_heap (demo_heap + 48) demo_one
           (or_intror (or_intror (or_intror (or_introl R))))).
Defined.

(** X2: linking leaves the blocks alone: in a reachable state, when
    [el_add_block_front] or [el_remove_block] is applied to a block of
    the arena and returns, the arena bounds and the sentinel addresses
    are as before, the arena holds the same blocks, and every one of them
    has the header size, the footer size and the state it had. *)
Theorem list_ops_frame (l : list_ptr) (b : Z) (s s' : state) :
  reachable s -> b ∈ arena_blocks s ->
  el_add_block_front l b s = Some (tt, s') \/ el_remove_block l b s = Some (tt, s') ->
  same_bounds s s' /\ arena_blocks s' = arena_blocks s /\
  forall c, c ∈ arena_blocks s ->
    size_of s' c = size_of s c /\ foot_of s' c = foot_of s c /\
    state_of s' c = state_of s c.
Proof.
  intros _ _ H.
  assert (HT : same_tags s s' /\ same_bounds s s').
  { destruct H as [H|H].
    - split; [exact (tags_el_add_block_front l b s tt s' H)
             | exact (bounds_el_add_block_front l b s tt s' H)].
    - split; [exact (tags_el_remove_block l b s tt s' H)
             | exact (bounds_el_remove_block l b s tt s' H)]. }
  destruct HT as [(Es & Ef & Est) HB]. split; [exact HB|].
  destruct HB as (B1 & B2 & B3 & _).
  split.
  - unfold arena_blocks. rewrite Es, B1, B2, B3. reflexivity.
  - intros c _. unfold foot_of, size_of, state_of. rewrite Es, Ef, Est. auto.
Qed.

Lemma list_ops_frame_witness :
  reachable demo_one /\ demo_heap ∈ arena_blocks demo_one /\
  el_remove_block Used demo_heap demo_one
  = Some (tt, final_state (el_remove_block Used demo_heap) demo_one) /\
  same_bounds demo_one (final_state (el_remove_block Used demo_heap) demo_one) /\
  arena_blocks (final_state (el_remove_block Used demo_heap) demo_one)
  = arena_blocks demo_one /\
  forall c, c ∈ arena_blocks demo_one ->
    size_of (final_state (el_remove_block Used demo_heap) demo_one) c = size_of demo_one c /\
    foot_of (final_state (el_remove_block Used demo_heap) demo_one) c = foot_of demo_one c /\
    state_of (final_state (el_remove_block Used demo_heap) demo_one) c = state_of demo_one c.
Proof.
  assert (Hb : demo_heap ∈ arena_blocks demo_one).
  { replace (arena_blocks demo_one) with [demo_heap; demo_heap + 48]
      by (vm_compute; reflexivity). apply list_elem_of_here. }
  assert (R : el_remove_block Used demo_heap demo_one
              = Some (tt, final_state (el_remove_block Used demo_heap) demo_one))
    by (vm_compute; reflexivity).
  split; [exact demo_one_reachable|]. split; [exact Hb|]. split; [exact R|].
  exact (list_ops_frame Used demo_heap demo_one _ demo_one_reachable Hb (or_intror R)).
Defined.

(** X3: splitting does no linking: in a reachable state, for a block of
    the arena and a representable size, when [el_split_block] returns,
    the control data are as before, both lists have the members they
    had, in the same order, and every block of the arena has the state
    it had. *)
Theorem split_frame (b n r : Z) (s s' : state) :
  reachable s -> b ∈ arena_blocks s -> representable n ->
  el_split_block b n s = Some (r, s') ->
  el_ctl s' = el_ctl s /\
  (forall l, list_members l s' = list_members l s) /\
  (forall c, c ∈ arena_blocks s -> state_of s' c = state_of s c).
Proof.
  intros _ _ _ H.
  destruct (sizes_el_split_block b n s r s' H) as (Ec & Est & Enx & _).
  split; [exact Ec|]. split.
  - intros l. unfold list_members. rewrite Ec, Enx. reflexivity.
  - intros c _. unfold state_of. rewrite Est. reflexivity.
Qed.

Lemma split_frame_witness :
  reachable demo_init /\ demo_heap ∈ arena_blocks demo_init /\ representable 100 /\
  el_split_block demo_heap 100 demo_init
  = Some (demo_heap + 140, final_state (el_split_block demo_heap 100) demo_init) /\
  el_ctl (final_state (el_split_block demo_heap 100) demo_init) = el_ctl demo_init /\
  (forall l, list_members l (final_state (el_split_block demo_heap 100) demo_init)
             = list_members l demo_init) /\
  (forall c, c ∈ arena_blocks demo_init ->
     state_of (final_state (el_split_block demo_heap 100) demo_init) c = state_of demo_init c).
Proof.
  assert (Hb : demo_heap ∈ arena_blocks demo_init).
  { replace (arena_blocks demo_init) with [demo_heap] by (vm_compute; reflexivity).
    apply list_elem_of_here. }
  assert (Hn : representable 100) by (split; vm_compute; congruence).
  assert (R : el_split_block demo_heap 100 demo_init
              = Some (demo_heap + 140, final_state (el_split_block demo_heap 100) demo_init))
    by (vm_compute; reflexivity).
  split; [exact demo_init_reachable|]. split; [exact Hb|]. split; [exact Hn|].
  split; [exact R|].
  exact (split_frame demo_heap 100 _ demo_init _ demo_init_reachable Hb Hn R).
Defined.



(** ** Headers, footers and neighbours *)

Lemma wrap_plus_minus h a b : a = b -> 0 <= h < SIZE_MAX_P1 ->
  wrap (wrap (h + wrap a) - wrap b) = h.
Proof.
  intros -> Hh. unfold wrap.
  rewrite Zminus_mod_idemp_l, Zminus_mod_idemp_r.
  assert (HM : SIZE_MAX_P1 <> 0) by (unfold SIZE_MAX_P1; lia).
  rewrite (Z.mod_eq b SIZE_MAX_P1) by exact HM.
  replace (h + (b - SIZE_MAX_P1 * (b / SIZE_MAX_P1)) - b)
    with (h + (- (b / SIZE_MAX_P1)) * SIZE_MAX_P1) by lia.
  rewrite Z_mod_plus_full. apply Z.mod_small. exact Hh.
Qed.

(** X5: from a header to its footer and back: in any state, when
    [el_get_footer head] returns [foot], [foot] is not null and records
    the size that [head] records, then [el_get_header foot] returns
    [head], whatever the size, wrap-around included. *)
Theorem footer_header_round_trip (s : state) (head foot : Z) (s1 : state) :
  0 <= head < SIZE_MAX_P1 ->
  el_get_footer head s = Some (foot, s1) ->
  foot <> NULL -> rd (f_size (memory s)) foot = size_of s head ->
  el_get_header foot s = Some (head, s).
Proof.
  intros Hh R Nf Hf. unfold el_get_footer, bind, load in R.
  destruct (Z.eqb_spec head NULL) as [|Nh]; [discriminate|].
  injection R as <- _.
  unfold el_get_header. rewrite bind_load by exact Nf. rewrite Hf.
  unfold ret, PTR_MINUS_BYTES, PTR_PLUS_BYTES, size_of. f_equal. f_equal.
  apply wrap_plus_minus; [lia | exact Hh].
Qed.

Lemma footer_header_round_trip_witness :
  el_get_footer demo_heap demo_init = Some (demo_heap + 4088, demo_init) /\
  el_get_header (demo_heap + 4088) demo_init = Some (demo_heap, demo_init).
Proof.
  assert (R : el_get_footer demo_heap demo_init = Some (demo_heap + 4088, demo_init))
    by (vm_compute; reflexivity).
  split; [exact R|].
  apply (footer_header_round_trip demo_init demo_heap (demo_heap + 4088) demo_init).
  - vm_compute. split; [discriminate | reflexivity].
  - exact R.
  - vm_compute. discriminate.
  - vm_compute. reflexivity.
Defined.

Lemma neighbours_wf s bs1 b bs2 la lu :
  inv0 s (bs1 ++ b :: bs2) la lu ->
  el_block_above b s = Some (chain_head bs2 NULL, s) /\
  el_block_below b s = Some (default NULL (last bs1), s).
Proof.
  intros H. apply inv0_shape in H as (Hsh & _ & _). split.
  - rewrite <- bind_ret_r. rewrite (el_block_above_run _ _ _ _ _ _ _ Hsh). reflexivity.
  - rewrite <- bind_ret_r. rewrite (el_block_below_run _ _ _ _ _ _ _ Hsh). reflexivity.
Qed.

(** X6: the physical neighbours, edges included: in a reachable state
    whose arena blocks are [bs1 ++ b :: bs2] in address order,
    [el_block_above b] returns the first block of [bs2], or NULL when [b]
    is the topmost block, and [el_block_below b] returns the last block
    of [bs1], or NULL when [b] is the bottommost block. *)
Theorem block_neighbours (s : state) (bs1 : list Z) (b : Z) (bs2 : list Z) :
  reachable s -> arena_blocks s = bs1 ++ b :: bs2 ->
  el_block_above b s = Some (chain_head bs2 NULL, s) /\
  el_block_below b s = Some (default NULL (last bs1), s).
Proof.
  intros Hr E. destruct (reachable_wf _ Hr) as (bs & la & lu & H & _).
  rewrite (inv0_arena_blocks _ _ _ _ H) in E. subst bs.
  exact (neighbours_wf _ _ _ _ _ _ H).
Qed.

Lemma block_neighbours_witness :
  reachable demo_one /\ arena_blocks demo_one = [] ++ demo_heap :: [demo_heap + 48] /\
  el_block_above demo_heap demo_one = Some (demo_heap + 48, demo_one) /\
  el_block_below demo_heap demo_one = Some (NULL, demo_one).
Proof.
  assert (E : arena_blocks demo_one = [] ++ demo_heap :: [demo_heap + 48])
    by (vm_compute; reflexivity).
  split; [exact demo_one_reachable|]. split; [exact E|].
  exact (block_neighbours demo_one [] demo_heap [demo_heap + 48] demo_one_reachable E).
Defined.

(** X7: above and below are inverse: in a reachable state, for an arena
    block [b], when [el_block_above b] returns a block [a] (not NULL),
    [el_block_below a] returns [b]; and when [el_block_below b] returns a
    block [c], [el_block_above c] returns [b]. *)
Theorem above_below_inverse (s : state) (b a : Z) :
  reachable s -> b ∈ arena_blocks s -> a <> NULL ->
  (el_block_above b s = Some (a, s) -> el_block_below a s = Some (b, s)) /\
  (el_block_below b s = Some (a, s) -> el_block_above a s = Some (b, s)).
Proof.
  intros Hr Hb Na. destruct (reachable_wf _ Hr) as (bs & la & lu & H & _).
  rewrite (inv0_arena_blocks _ _ _ _ H) in Hb.
  destruct (list_elem_of_split _ _ Hb) as (bs1 & bs2 & ->).
  destruct (neighbours_wf _ _ _ _ _ _ H) as [Ra Rb]. split; intros R.
  - rewrite Ra in R. injection R as R.
    destruct bs2 as [|a' bs2]; simpl in R; [congruence|]. subst a'.
    assert (H' : inv0 s ((bs1 ++ [b]) ++ a :: bs2) la lu)
      by (rewrite <- app_assoc; exact H).
    destruct (neighbours_wf _ _ _ _ _ _ H') as [_ Rb'].
    rewrite last_snoc in Rb'. exact Rb'.
  - rewrite Rb in R. injection R as R.
    destruct bs1 as [|c bs0 _] using rev_ind; [simpl in R; congruence|].
    rewrite last_snoc in R. cbn in R. subst c.
    assert (H' : inv0 s (bs0 ++ a :: b :: bs2) la lu)
      by (rewrite <- app_assoc in H; exact H).
    destruct (neighbours_wf _ _ _ _ _ _ H') as [Ra' _]. exact Ra'.
Qed.

Lemma above_below_inverse_witness :
  reachable demo_one /\ demo_heap ∈ arena_blocks demo_one /\
  el_block_above demo_heap demo_one = Some (demo_heap + 48, demo_one) /\
  el_block_below (demo_heap + 48) demo_one = Some (demo_heap, demo_one).
Proof.
  assert (Hb : demo_heap ∈ arena_blocks demo_one).
  { replace (arena_blocks demo_one) with [demo_heap; demo_heap + 48]
      by (vm_compute; reflexivity). apply list_elem_of_here. }
  assert (R : el_block_above demo_heap demo_one = Some (demo_heap + 48, demo_one))
    by (vm_compute; reflexivity).
  split; [exact demo_one_reachable|]. split; [exact Hb|]. split; [exact R|].
  apply (proj1 (above_below_inverse demo_one demo_heap (demo_heap + 48)
                  demo_one_reachable Hb ltac:(vm_compute; discriminate))).
  exact R.
Defined.

(** ** Reachable states *)

(** X8: the partition invariant: in every reachable state the arena
    blocks, found from the recorded sizes, tile the arena from
    [heap_start] to [heap_end] with footers that repeat the header sizes,
    their spans add up to [heap_bytes], and every arena block is a member
    of exactly one of the two lists: the available list holds blocks in
    state AVAILABLE only and the used list blocks in state USED only. *)
Theorem partition_invariant (s : state) :
  reachable s ->
  tiles (h_size (memory s)) (f_size (memory s))
        (heap_start (el_ctl s)) (arena_blocks s) (heap_end (el_ctl s)) /\
  sum_bytes (h_size (memory s)) (arena_blocks s) = heap_bytes (el_ctl s) /\
  list_members Avail s ++ list_members Used s ≡ₚ arena_blocks s /\
  NoDup (list_members Avail s ++ list_members Used s) /\
  Forall (fun b => state_of s b = EL_AVAILABLE) (list_members Avail s) /\
  Forall (fun b => state_of s b = EL_USED) (list_members Used s).
Proof.
  intros Hr. destruct (reachable_wf _ Hr) as (bs & la & lu & H & _).
  destruct (inv0_list_members _ _ _ _ H) as [-> ->].
  rewrite (inv0_arena_blocks _ _ _ _ H).
  pose proof (inv_tiles _ _ _ _ H) as Ht.
  split; [exact Ht|]. split.
  { rewrite (tiles_sum _ _ _ _ _ Ht), (inv_end _ _ _ _ H). lia. }
  split; [exact (inv_perm _ _ _ _ H)|]. split.
  { rewrite (inv_perm _ _ _ _ H). exact (tiles_NoDup _ _ _ _ _ Ht). }
  split; [exact (inv_astate _ _ _ _ H) | exact (inv_ustate _ _ _ _ H)].
Qed.

Lemma partition_invariant_witness :
  reachable demo_one /\
  list_members Avail demo_one ++ list_members Used demo_one ≡ₚ arena_blocks demo_one.
Proof.
  split; [exact demo_one_reachable|].
  exact (proj1 (proj2 (proj2 (partition_invariant demo_one demo_one_reachable)))).
Defined.

Lemma allocated_block s bs la lu p :
  inv0 s bs la lu -> allocated s p ->
  exists b, p = b + sizeof_blockhead /\ b ∈ lu /\ b ∈ bs.
Proof.
  intros H (b & Hb & ->). rewrite (proj2 (inv0_list_members _ _ _ _ H)) in Hb.
  exists b. split; [reflexivity|]. split; [exact Hb|].
  apply (inv0_in_bs _ _ _ _ _ H). auto.
Qed.

Lemma demo_two_reachable : reachable demo_two.
Proof.
  apply (reach_malloc demo_one 16 (demo_heap + 80)).
  - exact demo_one_reachable.
  - split; vm_compute; congruence.
  - vm_compute. reflexivity.
Qed.

Lemma demo_two_allocated :
  allocated demo_two (demo_heap + sizeof_blockhead) /\ allocated demo_two (demo_heap + 80).
Proof.
  assert (E : list_members Used demo_two = [demo_heap + 48; demo_heap])
    by (vm_compute; reflexivity).
  split.
  - exists demo_heap. split; [|reflexivity]. rewrite E.
    apply list_elem_of_further, list_elem_of_here.
  - exists (demo_heap + 48). split; [|vm_compute; reflexivity]. rewrite E.
    apply list_elem_of_here.
Qed.

(** X9: allocated memory lies in the arena and never overlaps: in a
    reachable state the payload of an allocated pointer [p], with its
    footer, ends at or below [heap_end] and its header starts at or above
    [heap_start]; and for two different allocated pointers the payload of
    one ends at least a footer and a header below the other. *)
Theorem allocations_disjoint (s : state) (p q : Z) :
  reachable s -> allocated s p -> allocated s q ->
  (heap_start (el_ctl s) + sizeof_blockhead <= p /\
   p + size_of s (p - sizeof_blockhead) + sizeof_blockfoot <= heap_end (el_ctl s)) /\
  (p <> q ->
   p + size_of s (p - sizeof_blockhead) + EL_BLOCK_OVERHEAD <= q \/
   q + size_of s (q - sizeof_blockhead) + EL_BLOCK_OVERHEAD <= p).
Proof.
  intros Hr Hp Hq. destruct (reachable_wf _ Hr) as (bs & la & lu & H & _).
  destruct (allocated_block _ _ _ _ _ H Hp) as (b & -> & _ & Hb).
  destruct (allocated_block _ _ _ _ _ H Hq) as (b' & -> & _ & Hb').
  replace (b + sizeof_blockhead - sizeof_blockhead) with b by lia.
  replace (b' + sizeof_blockhead - sizeof_blockhead) with b' by lia.
  pose proof (inv0_block_bounds _ _ _ _ _ H Hb) as (B1 & B2 & B3).
  split; [consts; lia|]. intros Hne.
  assert (Hbb : b <> b') by congruence.
  destruct (list_elem_of_split _ _ Hb) as (l1 & l2 & ->).
  pose proof (tiles_apart _ _ _ _ _ _ _ b' (inv_tiles _ _ _ _ H)) as [A1 A2].
  unfold size_of.
  apply elem_of_app in Hb' as [Hb'|Hb'].
  - right. specialize (A1 Hb'). consts. lia.
  - apply elem_of_cons in Hb' as [->|Hb']; [contradiction|].
    left. specialize (A2 Hb'). consts. lia.
Qed.

Lemma allocations_disjoint_witness :
  reachable demo_two /\
  allocated demo_two (demo_heap + sizeof_blockhead) /\ allocated demo_two (demo_heap + 80) /\
  demo_heap + sizeof_blockhead <> demo_heap + 80 /\
  (heap_start (el_ctl demo_two) + sizeof_blockhead <= demo_heap + sizeof_blockhead /\
   demo_heap + sizeof_blockhead
   + size_of demo_two (demo_heap + sizeof_blockhead - sizeof_blockhead) + sizeof_blockfoot
   <= heap_end (el_ctl demo_two)) /\
  (demo_heap + sizeof_blockhead
   + size_of demo_two (demo_heap + sizeof_blockhead - sizeof_blockhead) + EL_BLOCK_OVERHEAD
   <= demo_heap + 80 \/
   demo_heap + 80 + size_of demo_two (demo_heap + 80 - sizeof_blockhead) + EL_BLOCK_OVERHEAD
   <= demo_heap + sizeof_blockhead).
Proof.
  assert (Hne : demo_heap + sizeof_blockhead <> demo_heap + 80) by (vm_compute; discriminate).
  destruct demo_two_allocated as [Hp Hq].
  split; [exact demo_two_reachable|]. split; [exact Hp|]. split; [exact Hq|].
  split; [exact Hne|].
  destruct (allocations_disjoint demo_two _ _ demo_two_reachable Hp Hq) as [Hin Hap].
  split; [exact Hin | exact (Hap Hne)].
Defined.

Lemma reachable_heap_bytes s : reachable s -> EL_BLOCK_OVERHEAD <= heap_bytes (el_ctl s).
Proof.
  induction 1 as [g heap sz s Hv R | s n p s' _ IH Hn R | s p s' _ IH Hp R].
  - destruct (el_init_inv _ _ _ Hv) as (s0 & R0 & _ & _ & Hb).
    rewrite R0 in R. injection R as <-. rewrite Hb. apply Hv.
  - destruct (bounds_el_malloc _ _ _ _ R) as (_ & _ & E & _). lia.
  - destruct (bounds_el_free _ _ _ _ R) as (_ & _ & E & _). lia.
Qed.

Lemma coalesced_all_available st bs :
  coalesced_seq st bs = true -> Forall (fun b => is_available st b = true) bs ->
  (length bs <= 1)%nat.
Proof.
  intros Hco Hall. destruct bs as [|x [|y bs]]; simpl; try lia.
  rewrite coal_cons2 in Hco. apply Forall_cons in Hall as [Hx Hall].
  apply Forall_cons in Hall as [Hy _]. rewrite Hx, Hy in Hco. discriminate.
Qed.

(** X10: once everything is freed the heap is one maximal block again:
    in a reachable state whose used list is empty, the arena holds the
    single block at [heap_start], AVAILABLE, with payload
    [heap_bytes - EL_BLOCK_OVERHEAD], and it is the only member of the
    available list. *)
Theorem all_free_single_block (s : state) :
  reachable s -> list_members Used s = [] ->
  arena_blocks s = [heap_start (el_ctl s)] /\
  list_members Avail s = [heap_start (el_ctl s)] /\
  state_of s (heap_start (el_ctl s)) = EL_AVAILABLE /\
  size_of s (heap_start (el_ctl s)) = heap_bytes (el_ctl s) - EL_BLOCK_OVERHEAD.
Proof.
  intros Hr Eu. pose proof (reachable_heap_bytes _ Hr) as Hb.
  destruct (reachable_wf _ Hr) as (bs & la & lu & H & Hco).
  destruct (inv0_list_members _ _ _ _ H) as [Ea Eu']. rewrite Eu' in Eu. subst lu.
  rewrite Ea, (inv0_arena_blocks _ _ _ _ H).
  pose proof (inv_perm _ _ _ _ H) as Hp. rewrite app_nil_r in Hp.
  pose proof (inv_astate _ _ _ _ H) as Hs. pose proof (inv_tiles _ _ _ _ H) as Ht.
  pose proof (inv_end _ _ _ _ H) as He.
  assert (Hall : Forall (fun b => is_available (h_state (memory s)) b = true) bs).
  { rewrite <- Hp. eapply Forall_impl; [exact Hs|]. intros x Hx.
    apply is_available_true. exact Hx. }
  pose proof (coalesced_all_available _ _ Hco Hall) as Hlen.
  destruct bs as [|b [|b' bs]]; simpl in Hlen; try lia.
  - simpl in Ht. consts. lia.
  - simpl in Ht. destruct Ht as (-> & _ & _ & Ht).
    assert (Ela : la = [heap_start (el_ctl s)]).
    { apply Permutation_length_1_inv. symmetry. exact Hp. }
    rewrite Ela in Hs |- *. apply Forall_cons in Hs as [Hs _].
    repeat split; try assumption. unfold size_of. consts. lia.
Qed.

Lemma all_free_single_block_witness :
  reachable demo_init /\ list_members Used demo_init = [] /\
  arena_blocks demo_init = [heap_start (el_ctl demo_init)].
Proof.
  assert (E : list_members Used demo_init = []) by (vm_compute; reflexivity).
  split; [exact demo_init_reachable|]. split; [exact E|].
  exact (proj1 (all_free_single_block demo_init demo_init_reachable E)).
Defined.

(** X11: a reachable heap has nothing left to merge: in a reachable
    state [el_merge_block_with_above] of any arena block returns with the
    state unchanged. *)
Theorem merge_noop_reachable (s : state) (b : Z) :
  reachable s -> b ∈ arena_blocks s ->
  el_merge_block_with_above b s = Some (tt, s).
Proof.
  intros Hr Hb. destruct (reachable_wf _ Hr) as (bs & la & lu & H & Hco).
  rewrite (inv0_arena_blocks _ _ _ _ H) in Hb.
  destruct (list_elem_of_split _ _ Hb) as (bs1 & bs2 & ->).
  pose proof H as H'. apply inv0_shape in H' as (Hsh & _ & _).
  destruct bs2 as [|a bs2]; [exact (merge_noop_top _ _ _ _ _ Hsh)|].
  apply (merge_noop_state _ _ _ _ _ _ _ Hsh).
  rewrite coal_app in Hco. apply andb_true_iff in Hco as [_ Hco].
  rewrite coal_cons2 in Hco. apply andb_true_iff in Hco as [Hco _].
  apply negb_true_iff, andb_false_iff in Hco. unfold state_of.
  destruct Hco as [Hc|Hc]; [left | right]; intros E;
    apply is_available_true in E; congruence.
Qed.

Lemma merge_noop_reachable_witness :
  reachable demo_one /\ demo_heap ∈ arena_blocks demo_one /\
  el_merge_block_with_above demo_heap demo_one = Some (tt, demo_one).
Proof.
  assert (Hb : demo_heap ∈ arena_blocks demo_one).
  { replace (arena_blocks demo_one) with [demo_heap; demo_heap + 48]
      by (vm_compute; reflexivity). apply list_elem_of_here. }
  split; [exact demo_one_reachable|]. split; [exact Hb|].
  exact (merge_noop_reachable demo_one demo_heap demo_one_reachable Hb).
Defined.

(** ** Allocation in reachable states *)

Lemma first_fit_cases (s : state) (n : Z) :
  wf s -> representable n ->
  exists r, el_find_first_avail n s = Some (r, s) /\
    ((r = NULL /\
      Forall (fun b => size_of s b < n + EL_BLOCK_OVERHEAD) (list_members Avail s)) \/
     (r <> NULL /\ exists l1 l2, list_members Avail s = l1 ++ r :: l2 /\
        n + EL_BLOCK_OVERHEAD <= size_of s r /\
        Forall (fun b => size_of s b < n + EL_BLOCK_OVERHEAD) l1)).
Proof.
  intros Hwf Hn.
  exists (first_fit s (n + EL_BLOCK_OVERHEAD) (list_members Avail s)).
  split; [exact (first_fit_refines _ _ Hwf Hn)|].
  destruct Hwf as (bs & la & lu & H & _).
  destruct (inv0_list_members _ _ _ _ H) as [-> _].
  destruct (inv0_members_nonnull _ _ _ _ H) as [Hnn _].
  destruct (Z.eq_dec (first_fit s (n + EL_BLOCK_OVERHEAD) la) NULL) as [E|N].
  - left. split; [exact E|]. apply (first_fit_none _ _ _ Hnn). exact E.
  - right. split; [exact N|].
    exact (first_fit_found _ _ _ _ Hnn eq_refl N).
Qed.

(** X12: first fit for representable sizes: in a reachable state
    [el_find_first_avail n] returns, without changing anything, either
    NULL, and then every member of the available list has a payload
    below [n + EL_BLOCK_OVERHEAD], or a member [r] of the available list
    with a payload of at least [n + EL_BLOCK_OVERHEAD] such that every
    member in front of it has a smaller payload than that. *)
Theorem first_fit_search (s : state) (n : Z) :
  reachable s -> representable n ->
  exists r, el_find_first_avail n s = Some (r, s) /\
    ((r = NULL /\
      Forall (fun b => size_of s b < n + EL_BLOCK_OVERHEAD) (list_members Avail s)) \/
     (r <> NULL /\ exists l1 l2, list_members Avail s = l1 ++ r :: l2 /\
        n + EL_BLOCK_OVERHEAD <= size_of s r /\
        Forall (fun b => size_of s b < n + EL_BLOCK_OVERHEAD) l1)).
Proof.
  intros Hr Hn. destruct (first_fit_cases s n (reachable_wf _ Hr) Hn) as (r & R & H).
  exists r. split; [exact R|].
  destruct H as [[E Hall]|(N & l1 & l2 & E & Hge & Hall)].
  - left. split; [exact E | exact Hall].
  - right. split; [exact N|]. exists l1, l2. auto.
Qed.

Lemma first_fit_search_witness :
  reachable demo_one /\ representable 100 /\
  exists r, el_find_first_avail 100 demo_one = Some (r, demo_one) /\
    ((r = NULL /\
      Forall (fun b => size_of demo_one b < 100 + EL_BLOCK_OVERHEAD)
             (list_members Avail demo_one)) \/
     (r <> NULL /\ exists l1 l2, list_members Avail demo_one = l1 ++ r :: l2 /\
        100 + EL_BLOCK_OVERHEAD <= size_of demo_one r /\
        Forall (fun b => size_of demo_one b < 100 + EL_BLOCK_OVERHEAD) l1)).
Proof.
  assert (Hn : representable 100) by (split; vm_compute; congruence).
  split; [exact demo_one_reachable|]. split; [exact Hn|].
  exact (first_fit_search demo_one 100 demo_one_reachable Hn).
Defined.

(** X13: when allocation succeeds: in a reachable state and for a
    representable size [n], [el_malloc n] always returns, and it returns
    a pointer other than NULL exactly when some member of the available
    list has a payload of at least [n + EL_BLOCK_OVERHEAD]. *)
Theorem malloc_succeeds_iff (s : state) (n : Z) :
  reachable s -> representable n ->
  exists p s', el_malloc n s = Some (p, s') /\
    (p <> NULL <->
     Exists (fun b => n + EL_BLOCK_OVERHEAD <= size_of s b) (list_members Avail s)).
Proof.
  intros Hr Hn. destruct (reachable_wf _ Hr) as (bs & la & lu & H).
  pose proof H as [H0 _].
  destruct (inv0_list_members _ _ _ _ H0) as [-> _].
  destruct (inv0_members_nonnull _ _ _ _ H0) as [Hnn _].
  destruct (el_malloc_cases _ _ _ _ _ H Hn)
    as [[E R]|(N & Hb & Hsz & bs1 & bs2 & -> & R & _)].
  - exists NULL, s. split; [exact R|]. split; [congruence|].
    intros Hex. apply (first_fit_none _ _ _ Hnn) in E.
    apply Exists_exists in Hex as (x & Hx & Hsx).
    rewrite Forall_forall in E. specialize (E x Hx). lia.
  - eexists _, _. split; [exact R|]. split.
    + intros _. apply Exists_exists. eexists. split; [exact Hb | exact Hsz].
    + intros _. destruct Hn as [Hn0 Hn1].
      pose proof (inv0_block_bounds _ _ _ _ _ H0
                    ltac:(apply (inv0_in_bs _ _ _ _ _ H0); left; exact Hb)) as (B1 & _).
      pose proof (inv_start _ _ _ _ H0). consts. lia.
Qed.

Lemma malloc_succeeds_iff_witness :
  reachable demo_init /\ representable 4050 /\
  exists p s', el_malloc 4050 demo_init = Some (p, s') /\
    (p <> NULL <->
     Exists (fun b => 4050 + EL_BLOCK_OVERHEAD <= size_of demo_init b)
            (list_members Avail demo_init)).
Proof.
  assert (Hn : representable 4050) by (split; vm_compute; congruence).
  split; [exact demo_init_reachable|]. split; [exact Hn|].
  exact (malloc_succeeds_iff demo_init 4050 demo_init_reachable Hn).
Defined.

(** X14: what a successful allocation does to the lists and the arena:
    in a reachable state, for a representable size [n], when [el_malloc n]
    returns a pointer [p] other than NULL, the block [b] below [p] is the
    new first member of the used list, the rest of the used list is as
    before, the remainder at [b + n + EL_BLOCK_OVERHEAD] is the new first
    member of the available list in place of [b], and in the arena the
    remainder is inserted right above [b]. *)
Theorem malloc_effect (s : state) (n p : Z) (s' : state) :
  reachable s -> representable n ->
  el_malloc n s = Some (p, s') -> p <> NULL ->
  exists b bs1 bs2, p = b + sizeof_blockhead /\
    arena_blocks s = bs1 ++ b :: bs2 /\
    arena_blocks s' = bs1 ++ b :: (b + n + EL_BLOCK_OVERHEAD) :: bs2 /\
    list_members Used s' = b :: list_members Used s /\
    list_members Avail s'
    = (b + n + EL_BLOCK_OVERHEAD) :: without b (list_members Avail s).
Proof.
  intros Hr Hn R Hp. destruct (reachable_wf _ Hr) as (bs & la & lu & H).
  pose proof H as [H0 _].
  destruct (inv0_list_members _ _ _ _ H0) as [-> ->].
  rewrite (inv0_arena_blocks _ _ _ _ H0).
  destruct (el_malloc_cases _ _ _ _ _ H Hn)
    as [[E R']|(N & Hb & Hsz & bs1 & bs2 & -> & R' & [H1 _])];
    rewrite R' in R; injection R as <- <-; [contradiction|].
  set (b := first_fit s (n + EL_BLOCK_OVERHEAD) la) in *.
  exists b, bs1, bs2. split; [reflexivity|]. split; [reflexivity|].
  destruct (inv0_list_members _ _ _ _ H1) as [-> ->].
  rewrite (inv0_arena_blocks _ _ _ _ H1). auto.
Qed.

Lemma malloc_effect_witness :
  reachable demo_init /\ representable 8 /\
  exists b bs1 bs2, demo_heap + sizeof_blockhead = b + sizeof_blockhead /\
    arena_blocks demo_init = bs1 ++ b :: bs2 /\
    arena_blocks demo_one = bs1 ++ b :: (b + 8 + EL_BLOCK_OVERHEAD) :: bs2 /\
    list_members Used demo_one = b :: list_members Used demo_init /\
    list_members Avail demo_one
    = (b + 8 + EL_BLOCK_OVERHEAD) :: without b (list_members Avail demo_init).
Proof.
  assert (Hn : representable 8) by (split; vm_compute; congruence).
  split; [exact demo_init_reachable|]. split; [exact Hn|].
  apply (malloc_effect demo_init 8 (demo_heap + sizeof_blockhead) demo_one
           demo_init_reachable Hn).
  - vm_compute. reflexivity.
  - vm_compute. discriminate.
Defined.

(** X15: allocation leaves earlier allocations alone: in a reachable
    state, for a representable size, whatever [el_malloc] returns, every
    pointer [q] that was allocated is still allocated, its block has the
    payload size it had, and [q] is not the pointer returned. *)
Theorem malloc_keeps_allocations (s : state) (n p : Z) (s' : state) (q : Z) :
  reachable s -> representable n ->
  el_malloc n s = Some (p, s') -> allocated s q ->
  allocated s' q /\
  size_of s' (q - sizeof_blockhead) = size_of s (q - sizeof_blockhead) /\
  q <> p.
Proof.
  intros Hr Hn R Hq. destruct (reachable_wf _ Hr) as (bs & la & lu & H).
  pose proof H as [H0 _].
  destruct (allocated_block _ _ _ _ _ H0 Hq) as (b' & -> & Hb' & Hbs').
  replace (b' + sizeof_blockhead - sizeof_blockhead) with b' by lia.
  pose proof (inv0_block_bounds _ _ _ _ _ H0 Hbs') as (B1 & _).
  pose proof (inv_start _ _ _ _ H0) as Hs.
  destruct (inv0_NoDup _ _ _ _ H0) as (_ & _ & Ndis).
  destruct (el_malloc_cases _ _ _ _ _ H Hn)
    as [[E R']|(N & Hb & Hsz & bs1 & bs2 & -> & R' & [H1 _])];
    rewrite R' in R; injection R as <- <-.
  - split; [exact Hq|]. split; [reflexivity | consts; lia].
  - set (b := first_fit s (n + EL_BLOCK_OVERHEAD) la) in *.
    assert (Hne : b' <> b) by (intros ->; exact (Ndis _ Hb Hb')).
    assert (Hne2 : b' <> b + n + EL_BLOCK_OVERHEAD).
    { intros ->. destruct Hn as [Hn0 Hn1].
      assert (Hbs : b ∈ bs1 ++ b :: bs2) by (apply (inv0_in_bs _ _ _ _ _ H0); auto).
      refine (tiles_inside_notin _ _ _ _ _ b (b + n + EL_BLOCK_OVERHEAD)
                (inv_tiles _ _ _ _ H0) Hbs _ Hbs').
      unfold size_of in *. consts. lia. }
    split; [|split].
    + exists b'. split; [|reflexivity].
      rewrite (proj2 (inv0_list_members _ _ _ _ H1)). set_solver.
    + unfold size_of. rewrite malloc_st_size. rewrite !rd_insert_ne by congruence.
      reflexivity.
    + lia.
Qed.

Lemma malloc_keeps_allocations_witness :
  reachable demo_one /\ representable 16 /\
  allocated demo_one (demo_heap + sizeof_blockhead) /\
  allocated (final_state (el_malloc 16) demo_one) (demo_heap + sizeof_blockhead).
Proof.
  assert (Hn : representable 16) by (split; vm_compute; congruence).
  split; [exact demo_one_reachable|]. split; [exact Hn|].
  split; [exact demo_one_allocated|].
  apply (malloc_keeps_allocations demo_one 16 (demo_heap + 80)
           (final_state (el_malloc 16) demo_one) (demo_heap + sizeof_blockhead)
           demo_one_reachable Hn).
  - vm_compute. reflexivity.
  - exact demo_one_allocated.
Defined.

(** ** De-allocation in reachable states *)

Lemma merge_spec_sizes s bs1 bs2 la lu lower :
  inv0 s (bs1 ++ lower :: bs2) la lu ->
  exists s' la',
    el_merge_block_with_above lower s = Some (tt, s') /\
    h_state (memory s') = h_state (memory s) /\
    inv0 s' (bs1 ++ lower :: merge_tail (h_state (memory s)) lower bs2) la' lu /\
    (forall q, is_available (h_state (memory s)) q = false ->
               size_of s' q = size_of s q).
Proof.
  intros H. pose proof H as H'. apply inv0_shape in H' as (Hsh & _ & _).
  destruct bs2 as [|above bs2].
  - exists s, la. split; [exact (merge_noop_top _ _ _ _ _ Hsh)|]. auto.
  - cbn [merge_tail].
    destruct (is_available (h_state (memory s)) lower) eqn:El;
      [destruct (is_available (h_state (memory s)) above) eqn:Ea|]; cbn [andb].
    + pose proof El as El'. apply is_available_true in El, Ea.
      destruct (merge_run _ _ _ _ _ _ _ H El Ea) as [R Hi].
      exists (merge_st lower above s), (lower :: without lower (without above la)).
      split; [exact R|]. split; [reflexivity|]. split; [exact Hi|].
      intros q Hq. unfold size_of. cbn. apply rd_insert_ne. congruence.
    + exists s, la. split; [|auto].
      apply (merge_noop_state _ _ _ _ _ _ _ Hsh). right.
      intros E. apply is_available_true in E. congruence.
    + exists s, la. split; [|auto].
      apply (merge_noop_state _ _ _ _ _ _ _ Hsh). left.
      intros E. apply is_available_true in E. congruence.
Qed.

Lemma el_free_full s bs1 bs2 la lu b :
  inv s (bs1 ++ b :: bs2) la lu -> b ∈ lu ->
  exists s' la',
    el_free (b + sizeof_blockhead) s = Some (tt, s') /\
    h_state (memory s') = <[b := EL_AVAILABLE]> (h_state (memory s)) /\
    inv s' (free_blocks (<[b := EL_AVAILABLE]> (h_state (memory s))) bs1 b bs2)
        la' (without b lu) /\
    (forall q, q <> b -> state_of s q = EL_USED -> size_of s' q = size_of s q).
Proof.
  intros [H Hco] Hb. destruct (el_free_step _ _ _ _ _ _ H Hb) as [H3 R].
  assert (Hnd : NoDup (bs1 ++ b :: bs2)) by exact (tiles_NoDup _ _ _ _ _ (inv_tiles _ _ _ _ H)).
  pose proof (free_blocks_coalesced _ _ _ _ Hnd Hco) as Hco'.
  rewrite R. clear R.
  destruct (merge_spec_sizes _ _ _ _ _ _ H3) as (s4 & la4 & R4 & St4 & H4 & Sz4).
  change (h_state (memory (release_st b s)))
    with (<[b := EL_AVAILABLE]> (h_state (memory s))) in St4, H4, Sz4.
  assert (Hq0 : forall q, q <> b -> state_of s q = EL_USED ->
            is_available (<[b := EL_AVAILABLE]> (h_state (memory s))) q = false).
  { intros q Hqb Hq. apply is_available_used. rewrite rd_insert_ne by congruence. exact Hq. }
  unfold bind at 1. rewrite R4. unfold free_blocks in *.
  destruct bs1 as [|c bs0 _] using rev_ind.
  - cbn [last default] in *. change (NULL =? NULL) with true. cbn [negb].
    exists s4, la4. split; [reflexivity|]. split; [exact St4|].
    split; [split; [exact H4 | rewrite St4; exact Hco']|].
    intros q Hqb Hq. exact (Sz4 q (Hq0 q Hqb Hq)).
  - rewrite last_snoc, removelast_last in *. cbn [default from_option id].
    assert (Hc : c ∈ (bs0 ++ [c]) ++ b :: bs2) by set_solver.
    pose proof (inv0_block_bounds _ _ _ _ _ H Hc) as (Hc1 & _ & _).
    pose proof (inv_start _ _ _ _ H) as Hs.
    destruct (Z.eqb_spec c NULL) as [E|_]; [consts; lia|]. cbn [negb].
    rewrite <- app_assoc in H4. cbn [app] in H4.
    destruct (merge_spec_sizes _ _ _ _ _ _ H4) as (s5 & la5 & R5 & St5 & H5 & Sz5).
    rewrite St4 in H5, Sz5.
    exists s5, la5. split; [exact R5|]. split; [congruence|].
    split; [split; [exact H5 | rewrite St5, St4; exact Hco']|].
    intros q Hqb Hq. rewrite (Sz5 q (Hq0 q Hqb Hq)). exact (Sz4 q (Hq0 q Hqb Hq)).
Qed.

(** X16: what [el_free] does: in a reachable state, [el_free] of an
    allocated pointer [p] with block [b] returns; [b] is then AVAILABLE
    and no longer a member of the used list, whose other members keep
    their order, so that [p] is no longer allocated; and the arena is
    the old one with [b] merged with the block above it if that was
    AVAILABLE and with the block below it if that was AVAILABLE. *)
Theorem free_effect (s : state) (p : Z) :
  reachable s -> allocated s p ->
  exists s' b bs1 bs2, p = b + sizeof_blockhead /\
    arena_blocks s = bs1 ++ b :: bs2 /\
    el_free p s = Some (tt, s') /\
    arena_blocks s' = free_blocks (h_state (memory s')) bs1 b bs2 /\
    h_state (memory s') = <[b := EL_AVAILABLE]> (h_state (memory s)) /\
    list_members Used s' = without b (list_members Used s) /\
    ~ allocated s' p.
Proof.
  intros Hr Hp. destruct (reachable_wf _ Hr) as (bs & la & lu & H).
  pose proof H as [H0 _].
  destruct (allocated_block _ _ _ _ _ H0 Hp) as (b & -> & Hb & Hbs).
  destruct (list_elem_of_split _ _ Hbs) as (bs1 & bs2 & ->).
  destruct (el_free_full _ _ _ _ _ _ H Hb) as (s' & la' & R & St & [H1 _] & _).
  exists s', b, bs1, bs2. split; [reflexivity|].
  split; [exact (inv0_arena_blocks _ _ _ _ H0)|]. split; [exact R|].
  split; [rewrite St; exact (inv0_arena_blocks _ _ _ _ H1)|]. split; [exact St|].
  rewrite (proj2 (inv0_list_members _ _ _ _ H1)), (proj2 (inv0_list_members _ _ _ _ H0)).
  split; [reflexivity|].
  intros (b0 & Hb0 & E). assert (b0 = b) by lia. subst b0.
  rewrite (proj2 (inv0_list_members _ _ _ _ H1)) in Hb0.
  destruct (inv0_NoDup _ _ _ _ H0) as (_ & Ndu & _).
  exact (without_notin b lu Ndu Hb0).
Qed.

Lemma free_effect_witness :
  reachable demo_one /\ allocated demo_one (demo_heap + sizeof_blockhead) /\
  exists s' b bs1 bs2, demo_heap + sizeof_blockhead = b + sizeof_blockhead /\
    arena_blocks demo_one = bs1 ++ b :: bs2 /\
    el_free (demo_heap + sizeof_blockhead) demo_one = Some (tt, s') /\
    arena_blocks s' = free_blocks (h_state (memory s')) bs1 b bs2 /\
    h_state (memory s') = <[b := EL_AVAILABLE]> (h_state (memory demo_one)) /\
    list_members Used s' = without b (list_members Used demo_one) /\
    ~ allocated s' (demo_heap + sizeof_blockhead).
Proof.
  split; [exact demo_one_reachable|]. split; [exact demo_one_allocated|].
  exact (free_effect demo_one _ demo_one_reachable demo_one_allocated).
Defined.

(** X17: [el_free] leaves the other allocations alone: in a reachable
    state, after [el_free] of an allocated pointer [p], every other
    allocated pointer [q] is still allocated and its block is still USED
    with the payload size it had. *)
Theorem free_keeps_allocations (s : state) (p q : Z) (s' : state) :
  reachable s -> allocated s p -> allocated s q -> q <> p ->
  el_free p s = Some (tt, s') ->
  allocated s' q /\
  state_of s' (q - sizeof_blockhead) = EL_USED /\
  size_of s' (q - sizeof_blockhead) = size_of s (q - sizeof_blockhead).
Proof.
  intros Hr Hp Hq Hne R. destruct (reachable_wf _ Hr) as (bs & la & lu & H).
  pose proof H as [H0 _].
  destruct (allocated_block _ _ _ _ _ H0 Hp) as (b & -> & Hb & Hbs).
  destruct (allocated_block _ _ _ _ _ H0 Hq) as (b' & -> & Hb' & _).
  replace (b' + sizeof_blockhead - sizeof_blockhead) with b' by lia.
  assert (Hbb : b' <> b) by (intros ->; apply Hne; reflexivity).
  destruct (list_elem_of_split _ _ Hbs) as (bs1 & bs2 & ->).
  destruct (el_free_full _ _ _ _ _ _ H Hb) as (s1 & la' & R1 & St & [H1 _] & Sz).
  rewrite R1 in R. injection R as <-.
  pose proof (inv_ustate _ _ _ _ H0) as Hu. rewrite Forall_forall in Hu.
  split; [|split].
  - exists b'. split; [|reflexivity].
    rewrite (proj2 (inv0_list_members _ _ _ _ H1)). apply in_without; assumption.
  - unfold state_of. rewrite St, rd_insert_ne by congruence. exact (Hu b' Hb').
  - exact (Sz b' Hbb (Hu b' Hb')).
Qed.

Lemma free_keeps_allocations_witness :
  reachable demo_two /\ allocated demo_two (demo_heap + sizeof_blockhead) /\
  allocated demo_two (demo_heap + 80) /\
  allocated (final_state (el_free (demo_heap + sizeof_blockhead)) demo_two) (demo_heap + 80).
Proof.
  split; [exact demo_two_reachable|]. split; [exact (proj1 demo_two_allocated)|].
  split; [exact (proj2 demo_two_allocated)|].
  apply (free_keeps_allocations demo_two (demo_heap + sizeof_blockhead) (demo_heap + 80)
           (final_state (el_free (demo_heap + sizeof_blockhead)) demo_two)
           demo_two_reachable (proj1 demo_two_allocated) (proj2 demo_two_allocated)).
  - vm_compute. discriminate.
  - vm_compute. reflexivity.
Defined.

Lemma tiles_sizes_unique sz ft sz' ft' a bs e :
  tiles sz ft a bs e -> tiles sz' ft' a bs e ->
  forall x, x ∈ bs -> rd sz' x = rd sz x.
Proof.
  revert a. induction bs as [|b bs IH]; intros a H H' x Hx; [set_solver|].
  simpl in H, H'. destruct H as (-> & _ & _ & H). destruct H' as (_ & _ & _ & H').
  assert (E : rd sz' a = rd sz a).
  { destruct bs as [|b' bs]; simpl in H, H'; [lia|].
    destruct H as (E1 & _). destruct H' as (E2 & _). lia. }
  apply elem_of_cons in Hx as [->|Hx]; [exact E|].
  rewrite E in H'. exact (IH _ H H' x Hx).
Qed.

(** X18: allocate-then-free gives the arena back as it was: in a
    reachable state, when [el_malloc n] succeeds for a representable [n]
    and the returned pointer is freed at once, the arena holds the same
    blocks in the same order with the same payload sizes and states as
    before the allocation, the used list has the same members in the same
    order, and the available list has the same members. *)
Theorem malloc_free_restores (s : state) (n p : Z) (s1 : state) :
  reachable s -> representable n ->
  el_malloc n s = Some (p, s1) -> p <> NULL ->
  exists s2, el_free p s1 = Some (tt, s2) /\
    arena_blocks s2 = arena_blocks s /\
    (forall x, x ∈ arena_blocks s ->
       size_of s2 x = size_of s x /\ state_of s2 x = state_of s x) /\
    list_members Used s2 = list_members Used s /\
    list_members Avail s2 ≡ₚ list_members Avail s.
Proof.
  intros Hr Hn R Hp. destruct (reachable_wf _ Hr) as (bs & la & lu & H).
  destruct (el_malloc_cases _ _ _ _ _ H Hn) as [[_ R']|(N & Hb & Hsz & bs1 & bs2 & -> & R' & H1)];
    rewrite R' in R; injection R as <- <-; [contradiction|].
  set (b := first_fit s (n + EL_BLOCK_OVERHEAD) la) in *.
  set (b2 := b + n + EL_BLOCK_OVERHEAD) in *.
  destruct H as [H0 Hco].
  destruct (el_free_full _ _ _ _ _ _ H1 ltac:(apply list_elem_of_here))
    as (s2 & la2 & R2 & St & [H2 _] & _).
  exists s2. split; [exact R2|].
  assert (Eu : without b (b :: lu) = lu) by (simpl; rewrite Z.eqb_refl; reflexivity).
  rewrite Eu in H2.
  pose proof (tiles_NoDup _ _ _ _ _ (inv_tiles _ _ _ _ H0)) as Nd.
  assert (Hbs : b ∈ bs1 ++ b :: bs2) by (apply (inv0_in_bs _ _ _ _ _ H0); auto).
  pose proof (inv0_block_bounds _ _ _ _ _ H0 Hbs) as (Hb1 & Hb2 & Hb3).
  destruct Hn as [Hn0 Hn1].
  assert (Hb2out : b2 ∉ bs1 ++ b :: bs2).
  { refine (tiles_inside_notin _ _ _ _ _ b b2 (inv_tiles _ _ _ _ H0) Hbs _).
    unfold size_of in *. subst b2. consts. lia. }
  assert (Hst : rd (h_state (memory s)) b = EL_AVAILABLE).
  { pose proof (inv_astate _ _ _ _ H0) as Ha. rewrite Forall_forall in Ha. exact (Ha b Hb). }
  assert (Hav : is_available (h_state (memory s)) b = true) by (apply is_available_true; exact Hst).
  rewrite malloc_st_state in H2, St. fold b2 in H2, St.
  rewrite (free_blocks_after_malloc _ _ _ _ _ Nd Hb2out Hco Hav) in H2.
  rewrite (inv0_arena_blocks _ _ _ _ H2), (inv0_arena_blocks _ _ _ _ H0).
  destruct (inv0_list_members _ _ _ _ H2) as [-> ->].
  destruct (inv0_list_members _ _ _ _ H0) as [-> ->].
  split; [reflexivity|]. split; [|split; [reflexivity|]].
  - intros x Hx. split.
    + unfold size_of.
      assert (Hbe : heap_start (el_ctl s2) = heap_start (el_ctl s) /\
                    heap_end (el_ctl s2) = heap_end (el_ctl s)).
      { pose proof (bounds_el_free _ _ _ _ R2) as (E1 & E2 & _).
        pose proof (bounds_el_malloc _ _ _ _ R') as (E3 & E4 & _).
        split; congruence. }
      destruct Hbe as [Ea Ee]. pose proof (inv_tiles _ _ _ _ H2) as T2.
      rewrite Ea, Ee in T2.
      exact (tiles_sizes_unique _ _ _ _ _ _ _ (inv_tiles _ _ _ _ H0) T2 x Hx).
    + unfold state_of. rewrite St.
      destruct (Z.eq_dec x b) as [->|Hxb]; [rewrite rd_insert_eq; symmetry; exact Hst|].
      rewrite !rd_insert_ne; [reflexivity | congruence | | congruence].
      intros <-. contradiction.
  - apply (Permutation_app_inv_r lu).
    rewrite (inv_perm _ _ _ _ H2), (inv_perm _ _ _ _ H0). reflexivity.
Qed.

Lemma malloc_free_restores_witness :
  reachable demo_one /\ representable 100 /\
  exists s2, el_free (demo_heap + 80) (final_state (el_malloc 100) demo_one) = Some (tt, s2) /\
    arena_blocks s2 = arena_blocks demo_one.
Proof.
  assert (Hn : representable 100) by (split; vm_compute; congruence).
  split; [exact demo_one_reachable|]. split; [exact Hn|].
  destruct (malloc_free_restores demo_one 100 (demo_heap + 80)
              (final_state (el_malloc 100) demo_one) demo_one_reachable Hn)
    as (s2 & R & E & _).
  - vm_compute. reflexivity.
  - vm_compute. discriminate.
  - exists s2. split; [exact R | exact E].
Defined.



(** ** Splitting without wrap-around *)

(** X20: a split that fits: in any state, for a block at a positive
    address whose span ends below 2^64 and whose payload [S] is at least
    [n + EL_BLOCK_OVERHEAD], [el_split_block] returns the address
    [block + n + EL_BLOCK_OVERHEAD]; afterwards the block has payload [n]
    and a footer with [n] right after that payload, the new block has
    payload [S - n - EL_BLOCK_OVERHEAD] and its footer, with the same
    size, is the footer the block had before. *)
Theorem split_fits (s : state) (block n : Z) :
  0 < block -> 0 <= n -> n + EL_BLOCK_OVERHEAD <= size_of s block ->
  block + size_of s block + EL_BLOCK_OVERHEAD < SIZE_MAX_P1 ->
  exists s', el_split_block block n s = Some (block + n + EL_BLOCK_OVERHEAD, s') /\
    size_of s' block = n /\ foot_of s' block = n /\
    size_of s' (block + n + EL_BLOCK_OVERHEAD) = size_of s block - n - EL_BLOCK_OVERHEAD /\
    foot_of s' (block + n + EL_BLOCK_OVERHEAD) = size_of s block - n - EL_BLOCK_OVERHEAD /\
    block + n + EL_BLOCK_OVERHEAD + sizeof_blockhead
      + size_of s' (block + n + EL_BLOCK_OVERHEAD)
    = block + sizeof_blockhead + size_of s block.
Proof.
  intros Hb Hn HS Htop. exists (split_st block n s).
  assert (R : el_split_block block n s
              = Some (block + n + EL_BLOCK_OVERHEAD, split_st block n s)).
  { rewrite <- bind_ret_r. destruct s as [c [sz st nx pv ft]]. unfold size_of in *.
    cbn in *. rewrite el_split_block_run by assumption. reflexivity. }
  split; [exact R|]. unfold foot_of, size_of in *. cbn.
  assert (E1 : rd (<[block + n + EL_BLOCK_OVERHEAD :=
                     rd (h_size (memory s)) block - n - EL_BLOCK_OVERHEAD]>
                    (<[block := n]> (h_size (memory s)))) block = n).
  { rewrite rd_insert_ne by (consts; lia). apply rd_insert_eq. }
  rewrite E1, !rd_insert_eq.
  split; [reflexivity|]. split.
  { rewrite rd_insert_ne by (consts; lia). apply rd_insert_eq. }
  split; [reflexivity|]. split; [|consts; lia].
  replace (block + n + EL_BLOCK_OVERHEAD + sizeof_blockhead
           + (rd (h_size (memory s)) block - n - EL_BLOCK_OVERHEAD))
    with (block + sizeof_blockhead + rd (h_size (memory s)) block) by (consts; lia).
  apply rd_insert_eq.
Qed.

Lemma split_fits_witness :
  exists s', el_split_block demo_heap 100 demo_init
             = Some (demo_heap + 100 + EL_BLOCK_OVERHEAD, s') /\
    size_of s' demo_heap = 100.
Proof.
  destruct (split_fits demo_init demo_heap 100) as (s' & R & E & _).
  - vm_compute. reflexivity.
  - vm_compute. discriminate.
  - vm_compute. discriminate.
  - vm_compute. reflexivity.
  - exists s'. split; [exact R | exact E].
Defined.

(** X21: a split that does not fit: in any state, for a non-null block
    whose payload is below [n + EL_BLOCK_OVERHEAD], with [n]
    representable, [el_split_block] returns NULL and changes nothing. *)
Theorem split_too_small (s : state) (block n : Z) :
  block <> NULL -> representable n -> size_of s block < n + EL_BLOCK_OVERHEAD ->
  el_split_block block n s = Some (NULL, s).
Proof.
  intros Nb [Hn0 Hn1] Hs. unfold el_split_block. rewrite bind_load by exact Nb.
  rewrite wrap_small by (consts; lia). unfold size_of in Hs.
  destruct (Z.ltb_spec (rd (h_size (memory s)) block) (n + EL_BLOCK_OVERHEAD)); [|lia].
  reflexivity.
Qed.

Lemma split_too_small_witness :
  representable 4050 /\ el_split_block demo_heap 4050 demo_init = Some (NULL, demo_init).
Proof.
  assert (Hn : representable 4050) by (split; vm_compute; congruence).
  split; [exact Hn|].
  apply (split_too_small demo_init demo_heap 4050).
  - vm_compute. discriminate.
  - exact Hn.
  - vm_compute. reflexivity.
Defined.

(** ** Initialisation *)

(** X22: a successful [el_init]: from the zeroed [el_ctl], with an arena
    that holds at least one block's overhead and lies between address 8
    and 2^64, and four distinct non-null sentinels outside it, [el_init]
    returns 0; the arena is then one AVAILABLE block at its start with
    payload [initial_size - EL_BLOCK_OVERHEAD], which is the only member
    of the available list, the used list is empty, and the state is
    well-formed. *)
Theorem init_ok (g : globals) (heap initial_size : Z) :
  valid_boot g heap initial_size ->
  exists s, el_init g heap initial_size boot = Some (0, s) /\
    heap_start (el_ctl s) = heap /\ heap_bytes (el_ctl s) = initial_size /\
    heap_end (el_ctl s) = heap + initial_size /\
    arena_blocks s = [heap] /\ list_members Avail s = [heap] /\
    list_members Used s = [] /\
    size_of s heap = initial_size - EL_BLOCK_OVERHEAD /\
    state_of s heap = EL_AVAILABLE /\ wf s.
Proof.
  intros Hv. destruct (el_init_inv _ _ _ Hv) as (s & R & H & Es & Eb).
  exists s. split; [exact R|]. split; [exact Es|]. split; [exact Eb|].
  pose proof H as [H0 _]. pose proof (inv_end _ _ _ _ H0) as Ee.
  split; [lia|]. split; [exact (inv0_arena_blocks _ _ _ _ H0)|].
  destruct (inv0_list_members _ _ _ _ H0) as [Ea Eu].
  split; [exact Ea|]. split; [exact Eu|].
  pose proof (inv_tiles _ _ _ _ H0) as Ht. simpl in Ht.
  destruct Ht as (_ & _ & _ & Ht).
  pose proof (inv_astate _ _ _ _ H0) as Hs. apply Forall_cons in Hs as [Hs _].
  split; [unfold size_of; consts; lia|]. split; [exact Hs|].
  exists [heap], [heap], []. exact H.
Qed.

Lemma init_ok_witness :
  valid_boot demo_globals demo_heap demo_size /\
  exists s, el_init demo_globals demo_heap demo_size boot = Some (0, s) /\
            arena_blocks s = [demo_heap].
Proof.
  split; [exact demo_valid_boot|].
  destruct (init_ok demo_globals demo_heap demo_size demo_valid_boot)
    as (s & R & _ & _ & _ & E & _).
  exists s. split; [exact R | exact E].
Defined.

(** ** Moving a block between the lists *)

Lemma shape_list_members s bs L out l :
  shape s bs L out -> list_members l s = L l.
Proof.
  intros H. pose proof (sh_lists _ _ _ _ H) as [Ha Hu _ _].
  unfold list_members. rewrite (sh_len _ _ _ _ H l), Nat2Z.id.
  destruct l; cbn [get_list]; eapply dl_walk; eassumption.
Qed.

Lemma without_notin_id (b : Z) l : b ∉ l -> without b l = l.
Proof.
  induction l as [|x l IH]; intros H; [reflexivity|]. simpl.
  destruct (Z.eqb_spec x b) as [->|_]; [set_solver|]. f_equal. apply IH. set_solver.
Qed.

(** X24: unlink and relink: in a reachable state, [el_remove_block] of a
    member [b] of list [l] followed by [el_add_block_front] of [b] to
    list [l'] both return; [b] is then the first member of [l'], every
    other block is in the list and at the relative position it had, and
    the [length] and [bytes] fields of both lists count their members
    and the members' payloads plus overhead. *)
Theorem move_block (s : state) (l l' : list_ptr) (b : Z) :
  reachable s -> b ∈ list_members l s ->
  exists s1 s2,
    el_remove_block l b s = Some (tt, s1) /\
    el_add_block_front l' b s1 = Some (tt, s2) /\
    list_members l' s2 = b :: without b (list_members l' s) /\
    (l <> l' -> list_members l s2 = without b (list_members l s)) /\
    (forall k, bl_length (get_list k (el_ctl s2)) = Z.of_nat (length (list_members k s2)) /\
               bl_bytes (get_list k (el_ctl s2))
               = sum_bytes (h_size (memory s2)) (list_members k s2)).
Proof.
  intros Hr Hb. destruct (reachable_wf _ Hr) as (bs & la & lu & H0 & _).
  pose proof H0 as H. apply inv0_shape in H as (Hsh & _ & _).
  rewrite (shape_list_members _ _ _ _ l Hsh) in Hb.
  destruct (remove_shape _ _ _ _ l b Hsh Hb) as [R1 H1].
  destruct (add_shape _ _ _ _ l' b H1 ltac:(apply list_elem_of_here)) as [R2 H2].
  exists (remove_st l b s), (add_st l' b (remove_st l b s)).
  split; [rewrite <- bind_ret_r, R1; reflexivity|].
  split; [rewrite <- bind_ret_r, R2; reflexivity|].
  rewrite !(shape_list_members _ _ _ _ _ H2), !(shape_list_members _ _ _ _ _ Hsh).
  destruct (inv0_NoDup _ _ _ _ H0) as (Nda & Ndu & Ndis).
  split; [|split].
  - destruct l, l'; cbn in *; try reflexivity; f_equal; symmetry; apply without_notin_id.
    + intros Hin. exact (Ndis _ Hb Hin).
    + intros Hin. exact (Ndis _ Hin Hb).
  - intros Hne. destruct l, l'; cbn; try reflexivity; contradiction.
  - intros k. rewrite (shape_list_members _ _ _ _ k H2).
    split; [exact (sh_len _ _ _ _ H2 k) | exact (sh_bytes _ _ _ _ H2 k)].
Qed.

Lemma move_block_witness :
  reachable demo_one /\ demo_heap ∈ list_members Used demo_one /\
  exists s1 s2,
    el_remove_block Used demo_heap demo_one = Some (tt, s1) /\
    el_add_block_front Avail demo_heap s1 = Some (tt, s2) /\
    list_members Avail s2 = demo_heap :: without demo_heap (list_members Avail demo_one).
Proof.
  assert (Hb : demo_heap ∈ list_members Used demo_one).
  { replace (list_members Used demo_one) with [demo_heap] by (vm_compute; reflexivity).
    apply list_elem_of_here. }
  split; [exact demo_one_reachable|]. split; [exact Hb|].
  destruct (move_block demo_one Used Avail demo_heap demo_one_reachable Hb)
    as (s1 & s2 & R1 & R2 & E & _).
  exists s1, s2. auto.
Defined.
